(** * The versioned migration engine of the client, embedded in Rocq

    Sources embedded here:
    - [client/src/utils/version.js]            (SemVer model, history, path resolver)
    - [client/src/utils/migrations.js]         (registry, [createMigration], executor)
    - [client/src/utils/migrationStrategies.js] (primitive library)
    - [client/src/utils/versionService.js]     (version tracker)
    - [client/src/utils/exampleMigration.js]   (template procedure)

    Conventions of the embedding.
    - A JavaScript string is a [string]; its characters stand for code units.
    - [localStorage] is a finite map from keys to string values.
    - A function that may raise returns a [Result]; a function that also
      touches [localStorage] takes the store and returns the new one next to
      its [Result] (the store survives an exception).
    - [async]/[await] is sequential here: every promise of these modules is
      awaited as soon as it is created, so a rejected promise is a raised
      exception at the [await].
    - [console] output cannot fail and does not influence any result; it is
      left out. *)

From Stdlib Require Import ZArith NArith Lia Ascii String.
From Stdlib Require Import DecimalString DecimalN DecimalPos.
From stdpp Require Import base option list gmap strings sorting.

Local Open Scope string_scope.
Local Open Scope list_scope.

(** ** Exceptions *)

(** An [Error] object as the engine sees it: [catch] handlers only read
    [message] and [stack]. *)
Record JsError := mkJsError {
  errName : string;
  message : string;
  stack : string
}.

(** [new Error(msg)]: the stack starts with "name: message"; the frames
    that follow are engine specific and are not represented. *)
Definition newError (name msg : string) : JsError :=
  {| errName := name; message := msg; stack := name +:+ ": " +:+ msg |}.

Inductive Result (A : Type) : Type :=
| Return (a : A)
| Throw (e : JsError).
Arguments Return {A} a.
Arguments Throw {A} e.

Definition bindR {A B} (r : Result A) (k : A -> Result B) : Result B :=
  match r with
  | Return a => k a
  | Throw e => Throw e
  end.

Declare Scope result_scope.
Delimit Scope result_scope with result.
Notation "x <~ r ; k" := (bindR r (fun x => k))
  (at level 100, r at next level, right associativity) : result_scope.

(** ** Numbers produced by [parseInt(digits, 10)]

    A JavaScript Number is an IEEE-754 double.  A run of decimal digits
    denotes a natural number; [parseInt] returns the double nearest to it
    (ties to even), which is the number itself below 2^53 and [Infinity]
    from 2^1024 - 2^970 on. *)
Inductive Number : Type :=
| Finite (n : N)
| Infinity.

Definition roundToDouble (n : N) : Number :=
  let k := N.log2 n in
  if (k <? 53)%N then Finite n
  else
    let sh := (k - 52)%N in
    let q := N.shiftr n sh in
    let r := N.land n (N.ones sh) in
    let half := N.shiftl 1 (sh - 1) in
    let q' := if ((half <? r) || ((r =? half) && N.odd q))%N then (q + 1)%N else q in
    let v := N.shiftl q' sh in
    if (2 ^ 1024 <=? v)%N then Infinity else Finite v.

(** [a !== b] and [a > b] on such numbers. *)
Definition Number_eqb (a b : Number) : bool :=
  match a, b with
  | Finite x, Finite y => (x =? y)%N
  | Infinity, Infinity => true
  | _, _ => false
  end.

Definition Number_gtb (a b : Number) : bool :=
  match a, b with
  | Finite x, Finite y => (y <? x)%N
  | Infinity, Finite _ => true
  | _, _ => false
  end.

Definition isDigit (c : ascii) : bool :=
  let n := N_of_ascii c in ((48 <=? n) && (n <=? 57))%N.

Definition digitValue (c : ascii) : N := (N_of_ascii c - 48)%N.

Fixpoint decimalValue (acc : N) (s : string) : N :=
  match s with
  | EmptyString => acc
  | String c s' => decimalValue (10 * acc + digitValue c)%N s'
  end.

(** [parseInt(s, 10)] for a string [s] of digits (what [\d+] captured). *)
Definition parseInt10 (s : string) : Number := roundToDouble (decimalValue 0 s).

(** ** version.js: the SemVer model *)

Record SemanticVersion := mkSemanticVersion {
  major : Number;
  minor : Number;
  patch : Number;
  label : option string;
  raw : string
}.

(** Longest prefix of digits, and what follows it: the greedy [\d+]. *)
Fixpoint spanDigits (s : string) : string * string :=
  match s with
  | String c s' =>
      if isDigit c then let '(d, r) := spanDigits s' in (String c d, r)
      else (EmptyString, s)
  | EmptyString => (EmptyString, EmptyString)
  end.

(** [.] of a regular expression does not match a line terminator. *)
Definition isLineTerminator (c : ascii) : bool :=
  let n := N_of_ascii c in ((n =? 10) || (n =? 13))%N.

Fixpoint noLineTerminator (s : string) : bool :=
  match s with
  | EmptyString => true
  | String c s' => negb (isLineTerminator c) && noLineTerminator s'
  end.

(** The captures of [/^(\d+)\.(\d+)\.(\d+)(?:-(.+))?$/], or [None] when the
    string does not match. *)
Definition matchVersion (versionStr : string)
  : option (string * string * string * option string) :=
  let '(m1, r1) := spanDigits versionStr in
  match m1, r1 with
  | String _ _, String "."%char r1' =>
      let '(m2, r2) := spanDigits r1' in
      match m2, r2 with
      | String _ _, String "."%char r2' =>
          let '(m3, r3) := spanDigits r2' in
          match m3, r3 with
          | String _ _, EmptyString => Some (m1, m2, m3, None)
          | String _ _, String "-"%char (String c l' as l) =>
              if noLineTerminator l then Some (m1, m2, m3, Some l) else None
          | _, _ => None
          end
      | _, _ => None
      end
  | _, _ => None
  end.

Definition parseVersion (versionStr : string) : Result SemanticVersion :=
  match matchVersion versionStr with
  | None => Throw (newError "Error" ("Invalid version format: " +:+ versionStr))
  | Some (m1, m2, m3, m4) =>
      Return {| major := parseInt10 m1;
                minor := parseInt10 m2;
                patch := parseInt10 m3;
                label := m4;   (* match[4] || null: a captured label is never empty *)
                raw := versionStr |}
  end.

(** [a.label > b.label] on strings: lexicographic on code units. *)
Definition string_gtb (a b : string) : bool :=
  match String.compare a b with Gt => true | _ => false end.

(** The body of [compareVersions] once both versions are parsed. *)
Definition compareParsed (a b : SemanticVersion) : Z :=
  if negb (Number_eqb (major a) (major b)) then
    (if Number_gtb (major a) (major b) then 1 else -1)%Z
  else if negb (Number_eqb (minor a) (minor b)) then
    (if Number_gtb (minor a) (minor b) then 1 else -1)%Z
  else if negb (Number_eqb (patch a) (patch b)) then
    (if Number_gtb (patch a) (patch b) then 1 else -1)%Z
  else
    match label a, label b with
    | None, Some _ => 1%Z
    | Some _, None => (-1)%Z
    | None, None => 0%Z
    | Some la, Some lb =>
        if String.eqb la lb then 0%Z
        else if string_gtb la lb then 1%Z else (-1)%Z
    end.

Definition compareVersions (versionA versionB : string) : Result Z :=
  (a <~ parseVersion versionA;
   b <~ parseVersion versionB;
   Return (compareParsed a b))%result.

Definition validVersion (s : string) : Prop :=
  exists v, parseVersion s = Return v.

(** *** The version history *)

Record VersionRecord := mkVersionRecord {
  version : string;
  requiresMigration : bool;
  migrateFrom : list string;
  storageKeys : list string;
  notes : string;
  changes : list string;
  breaking : bool
}.

(** The history and the current version as [version.js] ships them. *)
Definition shipped_APP_VERSION : string := "1.0.0-alpha".

Definition shipped_VERSION_HISTORY : list VersionRecord :=
  [ {| version := "1.0.0-alpha";
       requiresMigration := false;
       migrateFrom := [];
       storageKeys :=
         [ "companies"; "app_version";
           "reviews_1651"; "reviews_1138"; "reviews_1651639"; "reviews_40772";
           "reviews_6036";
           "reviewsTableColumnOrder"; "reviewsTableColumnVisibility";
           "reviewsTableColumnOrderCompare"; "reviewsTableColumnVisibilityCompare";
           "sentimentChartsOrder"; "sentimentChartsHidden";
           "sentimentChartsOrderCompare"; "sentimentChartsHiddenCompare" ];
       notes := "Initial version with version tracking capability";
       changes := [ "Added version tracking system";
                    "Local storage migration framework" ];
       breaking := false |} ].

(** *** [Array.prototype.sort] with a comparator that may raise

    The engine's sort is stable, and for a comparator that is a consistent
    weak order every stable sort returns the same array; it is rendered as a
    stable insertion sort.  An exception of the comparator aborts the sort.
    An array of length 0 or 1 is returned without any comparison; from
    length 2 on every element is compared at least once. *)
Fixpoint insertSorted {A} (cmp : A -> A -> Result Z) (x : A) (l : list A)
  : Result (list A) :=
  match l with
  | [] => Return [x]
  | y :: l' =>
      (c <~ cmp x y;
       if (c <=? 0)%Z then Return (x :: y :: l')
       else (r <~ insertSorted cmp x l'; Return (y :: r)))%result
  end.

Fixpoint sortWith {A} (cmp : A -> A -> Result Z) (l : list A) : Result (list A) :=
  match l with
  | [] => Return []
  | x :: l' => (s <~ sortWith cmp l'; insertSorted cmp x s)%result
  end.

(** [findIndex]: [None] stands for -1. *)
Fixpoint findIndex {A} (p : A -> bool) (l : list A) : option nat :=
  match l with
  | [] => None
  | x :: l' => if p x then Some 0 else S <$> findIndex p l'
  end.

(** [arr.slice(start, end)] for non-negative bounds. *)
Definition slice {A} (start stop : nat) (l : list A) : list A :=
  take (stop - start) (drop start l).

(** The comparator [(a, b) => compareVersions(a.version, b.version)]. *)
Definition byVersion (a b : VersionRecord) : Result Z :=
  compareVersions (version a) (version b).

Definition getMigrationPath (VERSION_HISTORY : list VersionRecord)
    (fromVersion toVersion : string) : Result (list VersionRecord) :=
  if String.eqb fromVersion toVersion then Return []
  else
    (sortedVersions <~
       sortWith byVersion VERSION_HISTORY;
     let fromIndex := findIndex (fun v => String.eqb (version v) fromVersion) sortedVersions in
     let toIndex := findIndex (fun v => String.eqb (version v) toVersion) sortedVersions in
     match fromIndex, toIndex with
     | Some fromIndex, Some toIndex =>
         Return (filter (fun v => requiresMigration v = true)
                        (slice (fromIndex + 1) (toIndex + 1) sortedVersions))
     | _, _ => Return []    (* console.error, then the empty path *)
     end)%result.

(** ** JavaScript values

    The values that travel through [localStorage] and through the result
    objects of migrations: what [JSON.parse] can return.  [undefined] is
    [None] in an [option value].  Numbers are the integers; an object is the
    list of its own enumerable properties in the order in which the engine
    enumerates them (see [setProp]). *)
#[local] Unset Elimination Schemes.
Inductive value : Type :=
| VNull
| VBool (b : bool)
| VNum (n : Z)
| VStr (s : string)
| VArr (items : list value)
| VObj (props : list (string * value)).
#[local] Set Elimination Schemes.

Definition printN (n : N) : string := NilEmpty.string_of_uint (N.to_uint n).

Definition printZ (z : Z) : string :=
  if (z <? 0)%Z then String "-" (printN (Z.abs_N z)) else printN (Z.to_N z).

Definition natToString (n : nat) : string := printN (N.of_nat n).

Fixpoint getProp (k : string) (props : list (string * value)) : option value :=
  match props with
  | [] => None
  | (k', v) :: ps => if String.eqb k' k then Some v else getProp k ps
  end.

Fixpoint allDigits (s : string) : bool :=
  match s with
  | EmptyString => true
  | String c s' => isDigit c && allDigits s'
  end.

(** A decimal numeral without sign and without leading zeros. *)
Definition canonicalNumeral (s : string) : bool :=
  match s with
  | EmptyString => false
  | _ => allDigits s && String.eqb (printN (decimalValue 0 s)) s
  end.

(** An array index written as a property name. *)
Definition indexOfKey (k : string) : option nat :=
  if canonicalNumeral k then Some (N.to_nat (decimalValue 0 k)) else None.

(** The names that the engine keeps apart as array indices: the canonical
    numerals up to 2^32 - 2. *)
Definition arrayIndex (k : string) : option N :=
  if canonicalNumeral k && (decimalValue 0 k <? 4294967295)%N
  then Some (decimalValue 0 k) else None.

Fixpoint replaceProp (k : string) (v : value) (props : list (string * value))
  : list (string * value) :=
  match props with
  | [] => []
  | (k', v') :: ps =>
      if String.eqb k' k then (k', v) :: ps else (k', v') :: replaceProp k v ps
  end.

Fixpoint insertIndex (i : N) (p : string * value) (props : list (string * value))
  : list (string * value) :=
  match props with
  | [] => [p]
  | q :: ps =>
      match arrayIndex (fst q) with
      | Some j => if (j <? i)%N then q :: insertIndex i p ps else p :: props
      | None => p :: props
      end
  end.

(** Defining a property, with the list in the order in which the engine
    enumerates own properties: array indices first, ascending, then the
    other names in the order of their creation.  An existing property keeps
    its place. *)
Definition setProp (k : string) (v : value) (props : list (string * value))
  : list (string * value) :=
  match getProp k props with
  | Some _ => replaceProp k v props
  | None =>
      match arrayIndex k with
      | Some i => insertIndex i (k, v) props
      | None => props ++ [(k, v)]
      end
  end.

Definition charsOf (s : string) : list value :=
  (fun c => VStr (String c EmptyString)) <$> list_ascii_of_string s.

Definition indexed (l : list value) : list (string * value) :=
  imap (fun i x => (natToString i, x)) l.

(** [{...v}]: the own enumerable properties that a spread copies. *)
Definition ownEnumerable (v : option value) : list (string * value) :=
  match v with
  | Some (VObj props) => props
  | Some (VArr items) => indexed items
  | Some (VStr s) => indexed (charsOf s)
  | _ => []
  end.

Definition typeError (msg : string) : JsError := newError "TypeError" msg.

(** [v[k]] and [v.k]. *)
Definition getMember (v : option value) (k : string) : Result (option value) :=
  match v with
  | None =>
      Throw (typeError ("Cannot read properties of undefined (reading '" +:+ k +:+ "')"))
  | Some VNull =>
      Throw (typeError ("Cannot read properties of null (reading '" +:+ k +:+ "')"))
  | Some (VObj props) => Return (getProp k props)
  | Some (VArr items) =>
      if String.eqb k "length" then Return (Some (VNum (Z.of_nat (length items))))
      else Return (i ← indexOfKey k; items !! i)
  | Some (VStr s) =>
      if String.eqb k "length" then Return (Some (VNum (Z.of_nat (String.length s))))
      else Return (i ← indexOfKey k; charsOf s !! i)
  | Some (VBool _) | Some (VNum _) => Return None
  end.

(** *** Members inherited from the built-in prototypes

    The string-named members of the prototypes as ECMAScript 2023 defines
    them, with the additions that browsers implement. *)

Definition objectPrototype : list string :=
  [ "constructor"; "hasOwnProperty"; "isPrototypeOf"; "propertyIsEnumerable";
    "toLocaleString"; "toString"; "valueOf";
    "__defineGetter__"; "__defineSetter__"; "__lookupGetter__"; "__lookupSetter__" ].

Definition arrayPrototype : list string :=
  [ "at"; "concat"; "copyWithin"; "entries"; "every"; "fill"; "filter"; "find";
    "findIndex"; "findLast"; "findLastIndex"; "flat"; "flatMap"; "forEach";
    "includes"; "indexOf"; "join"; "keys"; "lastIndexOf"; "map"; "pop"; "push";
    "reduce"; "reduceRight"; "reverse"; "shift"; "slice"; "some"; "sort"; "splice";
    "toReversed"; "toSorted"; "toSpliced"; "unshift"; "values"; "with" ].

Definition stringPrototype : list string :=
  [ "at"; "charAt"; "charCodeAt"; "codePointAt"; "concat"; "endsWith"; "includes";
    "indexOf"; "isWellFormed"; "lastIndexOf"; "localeCompare"; "match"; "matchAll";
    "normalize"; "padEnd"; "padStart"; "repeat"; "replace"; "replaceAll"; "search";
    "slice"; "split"; "startsWith"; "substring"; "toLocaleLowerCase";
    "toLocaleUpperCase"; "toLowerCase"; "toUpperCase"; "toWellFormed"; "trim";
    "trimEnd"; "trimStart";
    "substr"; "anchor"; "big"; "blink"; "bold"; "fixed"; "fontcolor"; "fontsize";
    "italics"; "link"; "small"; "strike"; "sub"; "sup"; "trimLeft"; "trimRight" ].

Definition numberPrototype : list string :=
  [ "toExponential"; "toFixed"; "toPrecision" ].

(** The names under which a value inherits a function. *)
Definition inheritedFunctions (v : value) : list string :=
  match v with
  | VNull => []
  | VBool _ | VObj _ => objectPrototype
  | VNum _ => numberPrototype ++ objectPrototype
  | VStr _ => stringPrototype ++ objectPrototype
  | VArr _ => arrayPrototype ++ objectPrototype
  end.

(** What [JSON.stringify] writes for the prototype of a value, which is
    what the inherited accessor [__proto__] returns: [Object.prototype] has
    no enumerable property, [Array.prototype] is an empty array, and the
    prototypes of the primitives wrap an empty string, 0 and [false]. *)
Definition prototypeAsJSON (v : value) : value :=
  match v with
  | VArr _ => VArr []
  | VStr _ => VStr ""
  | VNum _ => VNum 0
  | VBool _ => VBool false
  | VNull | VObj _ => VObj []
  end.

(** What a member read produces: a value that is data, [undefined], or a
    function. *)
Inductive Member :=
| MData (v : option value)
| MFunction.

(** [v[k]] for an arbitrary name [k]: an own property first, then what the
    prototypes provide.  (For the names that the engine reads with a dot,
    [success], [affectedKeys], [error], [message] and [reviews], no prototype
    provides anything, and [getMember] is the whole read.) *)
Definition readMember (v : option value) (k : string) : Result Member :=
  (own <~ getMember v k;
   match own, v with
   | Some x, _ => Return (MData (Some x))
   | None, Some x =>
       if String.eqb k "__proto__" then Return (MData (Some (prototypeAsJSON x)))
       else if bool_decide (k ∈ inheritedFunctions x) then Return MFunction
       else Return (MData None)
   | None, None => Return (MData None)
   end)%result.

(** Truthiness, as [if (x)], [!x], [x && y] and [x || y] test it. *)
Definition truthy (v : option value) : bool :=
  match v with
  | None | Some VNull => false
  | Some (VBool b) => b
  | Some (VNum n) => negb (n =? 0)%Z
  | Some (VStr s) => negb (String.eqb s "")
  | Some (VArr _) | Some (VObj _) => true
  end.

(** [a ?? b]. *)
Definition nullish (v : option value) (d : value) : value :=
  match v with
  | None | Some VNull => d
  | Some x => x
  end.

Definition joinWith (sep : string) : list string -> string :=
  fix go l :=
    match l with
    | [] => ""
    | [x] => x
    | x :: l' => x +:+ sep +:+ go l'
    end.

(** [String(v)], the conversion a template literal applies. *)
Fixpoint toStr (v : value) : string :=
  match v with
  | VNull => "null"
  | VBool true => "true"
  | VBool false => "false"
  | VNum n => printZ n
  | VStr s => s
  | VArr items =>
      joinWith "," (map (fun x => match x with VNull => "" | _ => toStr x end) items)
  | VObj _ => "[object Object]"
  end.

(** ** [JSON.stringify] and [JSON.parse]

    [JSON_stringify] writes the compact text the engine writes.
    [JSON_parse] reads compact texts: insignificant white space, numbers
    with a fraction or an exponent, and [\u] escapes above 255 have no
    representation here and are syntax errors of the model. *)

Definition DQUOTE : ascii := "034"%char.
Definition BACKSLASH : ascii := "\"%char.

Definition hexDigit (n : N) : ascii :=
  if (n <? 10)%N then ascii_of_N (48 + n) else ascii_of_N (87 + n).

Definition hexValue (c : ascii) : option N :=
  let n := N_of_ascii c in
  if ((48 <=? n) && (n <=? 57))%N then Some (n - 48)%N
  else if ((97 <=? n) && (n <=? 102))%N then Some (n - 87)%N
  else if ((65 <=? n) && (n <=? 70))%N then Some (n - 55)%N
  else None.

Definition escapeChar (c : ascii) : string :=
  let n := N_of_ascii c in
  if Ascii.eqb c DQUOTE then String BACKSLASH (String DQUOTE "")
  else if Ascii.eqb c BACKSLASH then String BACKSLASH (String BACKSLASH "")
  else if (n =? 8)%N then String BACKSLASH "b"
  else if (n =? 12)%N then String BACKSLASH "f"
  else if (n =? 10)%N then String BACKSLASH "n"
  else if (n =? 13)%N then String BACKSLASH "r"
  else if (n =? 9)%N then String BACKSLASH "t"
  else if (n <? 32)%N then
    String BACKSLASH (String "u" (String "0" (String "0"
      (String (hexDigit (n / 16)) (String (hexDigit (n mod 16)) "")))))
  else String c "".

Fixpoint escape (s : string) : string :=
  match s with
  | EmptyString => ""
  | String c s' => escapeChar c +:+ escape s'
  end.

Definition quote (s : string) : string :=
  String DQUOTE (escape s +:+ String DQUOTE "").

(** Elements or members, separated by commas and closed by [close]. *)
Definition printSeq {A} (f : A -> string) (close : string) : list A -> string :=
  fix go l :=
    match l with
    | [] => close
    | [x] => f x +:+ close
    | x :: l' => f x +:+ String "," (go l')
    end.

Fixpoint JSON_stringify (v : value) : string :=
  match v with
  | VNull => "null"
  | VBool true => "true"
  | VBool false => "false"
  | VNum n => printZ n
  | VStr s => quote s
  | VArr items => String "[" (printSeq JSON_stringify "]" items)
  | VObj props =>
      String "{" (printSeq (fun p => quote (fst p) +:+ String ":" (JSON_stringify (snd p)))
                           "}" props)
  end.

(** The characters of a string literal up to its closing quote, and the
    text after it. *)
Fixpoint parseString (s : string) : option (string * string) :=
  match s with
  | EmptyString => None
  | String c r =>
      if Ascii.eqb c DQUOTE then Some (EmptyString, r)
      else if Ascii.eqb c BACKSLASH then
        match r with
        | EmptyString => None
        | String e r' =>
            let continue (x : ascii) :=
              '(str, rest) ← parseString r'; Some (String x str, rest) in
            if Ascii.eqb e DQUOTE then continue DQUOTE
            else if Ascii.eqb e BACKSLASH then continue BACKSLASH
            else if Ascii.eqb e "/" then continue "/"%char
            else if Ascii.eqb e "b" then continue "008"%char
            else if Ascii.eqb e "f" then continue "012"%char
            else if Ascii.eqb e "n" then continue "010"%char
            else if Ascii.eqb e "r" then continue "013"%char
            else if Ascii.eqb e "t" then continue "009"%char
            else if Ascii.eqb e "u" then
              match r' with
              | String h1 (String h2 (String h3 (String h4 r''))) =>
                  a ← hexValue h1; b ← hexValue h2; c' ← hexValue h3; d ← hexValue h4;
                  let n := (4096 * a + 256 * b + 16 * c' + d)%N in
                  if (n <? 256)%N then
                    '(str, rest) ← parseString r''; Some (String (ascii_of_N n) str, rest)
                  else None
              | _ => None
              end
            else None
        end
      else if (N_of_ascii c <? 32)%N then None
      else '(str, rest) ← parseString r; Some (String c str, rest)
  end.

Definition parseNumber (s : string) : option (Z * string) :=
  match s with
  | String c r =>
      if Ascii.eqb c "-" then
        let '(ds, rest) := spanDigits r in
        if canonicalNumeral ds then Some ((- Z.of_N (decimalValue 0 ds))%Z, rest) else None
      else
        let '(ds, rest) := spanDigits s in
        if canonicalNumeral ds then Some (Z.of_N (decimalValue 0 ds), rest) else None
  | EmptyString => None
  end.

Fixpoint stripPrefix (p s : string) : option string :=
  match p, s with
  | EmptyString, _ => Some s
  | String a p', String b s' => if Ascii.eqb a b then stripPrefix p' s' else None
  | String _ _, EmptyString => None
  end.

Fixpoint parseValue (fuel : nat) (s : string) {struct fuel} : option (value * string) :=
  match fuel with
  | O => None
  | S fuel' =>
      match parseNumber s with
      | Some (z, r) => Some (VNum z, r)
      | None =>
      match stripPrefix "null" s with
      | Some r => Some (VNull, r)
      | None =>
      match stripPrefix "true" s with
      | Some r => Some (VBool true, r)
      | None =>
      match stripPrefix "false" s with
      | Some r => Some (VBool false, r)
      | None =>
      match s with
      | String c r =>
          if Ascii.eqb c DQUOTE then
            '(str, r') ← parseString r; Some (VStr str, r')
          else if Ascii.eqb c "[" then
            match stripPrefix "]" r with
            | Some r' => Some (VArr [], r')
            | None => '(l, r') ← parseElements fuel' r; Some (VArr l, r')
            end
          else if Ascii.eqb c "{" then
            match stripPrefix "}" r with
            | Some r' => Some (VObj [], r')
            | None => '(l, r') ← parseMembers fuel' r; Some (VObj l, r')
            end
          else None
      | EmptyString => None
      end end end end end
  end
with parseElements (fuel : nat) (s : string) {struct fuel}
  : option (list value * string) :=
  match fuel with
  | O => None
  | S fuel' =>
      '(v, r) ← parseValue fuel' s;
      match r with
      | String c r' =>
          if Ascii.eqb c "]" then Some ([v], r')
          else if Ascii.eqb c "," then
            '(l, r'') ← parseElements fuel' r'; Some (v :: l, r'')
          else None
      | EmptyString => None
      end
  end
with parseMembers (fuel : nat) (s : string) {struct fuel}
  : option (list (string * value) * string) :=
  match fuel with
  | O => None
  | S fuel' =>
      match s with
      | String q r0 =>
          if Ascii.eqb q DQUOTE then
            '(k, r1) ← parseString r0;
            match r1 with
            | String colon r2 =>
                if Ascii.eqb colon ":" then
                  '(v, r) ← parseValue fuel' r2;
                  match r with
                  | String c r' =>
                      if Ascii.eqb c "}" then Some ([(k, v)], r')
                      else if Ascii.eqb c "," then
                        '(l, r'') ← parseMembers fuel' r'; Some ((k, v) :: l, r'')
                      else None
                  | EmptyString => None
                  end
                else None
            | EmptyString => None
            end
          else None
      | EmptyString => None
      end
  end.

(** A repeated member name keeps its first place and its last value. *)
Fixpoint normalize (v : value) : value :=
  match v with
  | VArr items => VArr (map normalize items)
  | VObj props =>
      VObj (fold_left (fun acc p => setProp (fst p) (normalize (snd p)) acc) props [])
  | _ => v
  end.

Definition syntaxError : JsError :=
  newError "SyntaxError" "Unexpected token in JSON".

Definition JSON_parse (text : string) : Result value :=
  match parseValue (S (String.length text)) text with
  | Some (v, EmptyString) => Return (normalize v)
  | _ => Throw syntaxError
  end.

(** ** localStorageService.js: the store and its keys *)

Abbreviation Storage := (gmap string string).

Module LOCAL_STORAGE_KEYS.
Definition COMPANIES : string := "companies".
Definition APP_VERSION : string := "app_version".
End LOCAL_STORAGE_KEYS.

(** [!x] for what [localStorage.getItem] returned: [null] and the empty
    string are falsy. *)
Definition falsyItem (item : option string) : bool :=
  match item with
  | None => true
  | Some s => String.eqb s ""
  end.

(** The keys in the order of [localStorage.key(0)], [localStorage.key(1)],
    ...; the standard leaves the order to the browser, the model takes the
    order of the finite map. *)
Definition storageKeysOf (st : Storage) : list string := (map_to_list st).*1.

(** [arr.map(callback)]: the callback receives the element, its index and
    the array, and its first exception ends the loop. *)
Definition Callback := value -> nat -> list value -> Result value.

Fixpoint arrayMapFrom (callback : Callback) (arr : list value) (i : nat)
    (items : list value) : Result (list value) :=
  match items with
  | [] => Return []
  | x :: items' =>
      (y <~ callback x i arr;
       ys <~ arrayMapFrom callback arr (S i) items';
       Return (y :: ys))%result
  end.

Definition arrayMap (callback : Callback) (arr : list value) : Result (list value) :=
  arrayMapFrom callback arr 0 arr.

(** [v.map(callback)] for a value [v] that came out of [JSON.parse]. *)
Definition callMap (v : value) (callback : Callback) : Result (list value) :=
  match v with
  | VArr items => arrayMap callback items
  | VNull => Throw (typeError "Cannot read properties of null (reading 'map')")
  | _ => Throw (typeError "companies.map is not a function")
  end.

(** [o.k = x]: on an object the property is defined; on an array it is an
    extra property that [JSON.stringify] does not write, and on a primitive
    the assignment is lost. *)
Definition assignProp (o : value) (k : string) (x : value) : value :=
  match o with
  | VObj props => VObj (setProp k x props)
  | _ => o
  end.

(** [delete o[k]]: the own property goes, if there is one. *)
Definition deleteProp (k : string) (props : list (string * value))
  : list (string * value) :=
  filter (fun p => fst p <> k) props.

(** [k in o] for an object [o] that an object literal built: an own
    property, or what [Object.prototype] provides. *)
Definition hasProperty (props : list (string * value)) (k : string) : bool :=
  match getProp k props with
  | Some _ => true
  | None => String.eqb k "__proto__" || bool_decide (k ∈ objectPrototype)
  end.

(** [o[k] = m] for an object [o] that an object literal built, as
    [JSON.stringify] will find [o].  An own property takes the value; a new
    name becomes an own property, except [__proto__]: the inherited setter
    takes that assignment, which changes the prototype at most and no own
    property.  A property that holds a function or [undefined] is not
    written by [JSON.stringify], so it is left out here. *)
Definition putMember (props : list (string * value)) (k : string) (m : Member)
  : list (string * value) :=
  match m with
  | MData (Some x) =>
      match getProp k props with
      | Some _ => setProp k x props
      | None => if String.eqb k "__proto__" then props else setProp k x props
      end
  | MData None | MFunction => deleteProp k props
  end.

(** ** migrationStrategies.js: the primitive library *)

Module companyMigrations.

(** [{ ...company, [fieldName]: company[fieldName] ?? defaultValue }].
    When the read finds an inherited function, the new object carries that
    function under [fieldName]; [JSON.stringify], the only reader of the new
    object, does not write a function, so the property is left out here. *)
Definition withField (fieldName : string) (defaultValue : value) : Callback :=
  fun company _ _ =>
    (current <~ readMember (Some company) fieldName;
     match current with
     | MData current =>
         Return (VObj (setProp fieldName (nullish current defaultValue)
                               (ownEnumerable (Some company))))
     | MFunction => Return (VObj (ownEnumerable (Some company)))
     end)%result.

Definition addField (fieldName : string) (defaultValue : value) (st : Storage)
  : Result value * Storage :=
  let companiesJson := st !! LOCAL_STORAGE_KEYS.COMPANIES in
  if falsyItem companiesJson then (Return (VObj [("updated", VNum 0)]), st)
  else
    match (companies <~ JSON_parse (default "" companiesJson);
           callMap companies (withField fieldName defaultValue))%result with
    | Return updatedCompanies =>
        (Return (VObj [("updated", VNum (Z.of_nat (length updatedCompanies)));
                       ("fieldAdded", VStr fieldName)]),
         <[LOCAL_STORAGE_KEYS.COMPANIES := JSON_stringify (VArr updatedCompanies)]> st)
    | Throw error => (Throw error, st)      (* logged, then thrown again *)
    end.


(** [clearAll]: the companies entry is removed. *)
Definition clearAll (st : Storage) : Result value * Storage :=
  (Return (VObj [("cleared", VBool true)]), delete LOCAL_STORAGE_KEYS.COMPANIES st).

(** The callback of [renameField]:
    [const result = { ...company };
     if (oldName in result) { result[newName] = result[oldName]; delete result[oldName]; }] *)
Definition renamed (oldName newName : string) : Callback :=
  fun company _ _ =>
    let result := ownEnumerable (Some company) in
    if hasProperty result oldName then
      (current <~ readMember (Some (VObj result)) oldName;
       Return (VObj (deleteProp oldName (putMember result newName current))))%result
    else Return (VObj result).

Definition renameField (oldName newName : string) (st : Storage)
  : Result value * Storage :=
  let companiesJson := st !! LOCAL_STORAGE_KEYS.COMPANIES in
  if falsyItem companiesJson then (Return (VObj [("updated", VNum 0)]), st)
  else
    match (companies <~ JSON_parse (default "" companiesJson);
           callMap companies (renamed oldName newName))%result with
    | Return updatedCompanies =>
        (Return (VObj [("updated", VNum (Z.of_nat (length updatedCompanies)));
                       ("fieldRenamed", VObj [("from", VStr oldName);
                                              ("to", VStr newName)])]),
         <[LOCAL_STORAGE_KEYS.COMPANIES := JSON_stringify (VArr updatedCompanies)]> st)
    | Throw error => (Throw error, st)      (* logged, then thrown again *)
    end.

End companyMigrations.

(** [clearStorageItems] of migrations.js: nothing happens unless [keys] is
    an array; [removeItem] converts each key to a string and does not
    raise. *)
Definition clearStorageItems (keys : option value) (st : Storage) : Storage :=
  match keys with
  | Some (VArr items) => foldl (fun st key => delete (toStr key) st) st items
  | _ => st
  end.

Module reviewCacheHelpers.

Definition findAllKeys (st : Storage) : list string :=
  filter (fun key => negb (String.eqb key "") && String.prefix "reviews_" key = true)
         (storageKeysOf st).


(** [`reviews_${glassdoorId}`] *)
Definition getKey (glassdoorId : value) : string := "reviews_" +:+ toStr glassdoorId.

(** [clearAllCache]: the number of keys found, and the store without
    them. *)
Definition clearAllCache (st : Storage) : nat * Storage :=
  let keys := findAllKeys st in
  (length keys, clearStorageItems (Some (VArr (VStr <$> keys))) st).

(** [getReviews]: [null] when the entry is absent or empty, and when
    [JSON.parse] raises. *)
Definition getReviews (glassdoorId : value) (st : Storage) : value :=
  let data := st !! getKey glassdoorId in
  if falsyItem data then VNull
  else
    match JSON_parse (default "" data) with
    | Return parsed => parsed
    | Throw _ => VNull
    end.

End reviewCacheHelpers.

Module reviewMigrations.

(** What one turn of the loop of [transformReviews] does to its entry. *)
Inductive EntryOutcome := EntryUpdated | EntrySkipped | EntryFailed.

(** The body of the loop for one key; [now] is what
    [new Date().toISOString()] returns in this turn. *)
Definition transformEntry (transformer : Callback) (now : string) (key : string)
    (st : Storage) : EntryOutcome * Storage :=
  let cacheData := st !! key in
  if falsyItem cacheData then (EntrySkipped, st)               (* continue *)
  else
    match JSON_parse (default "" cacheData) with
    | Throw _ => (EntryFailed, st)
    | Return cache =>
        if truthy (Some cache) then
          match getMember (Some cache) "reviews" with
          | Return (Some (VArr reviews)) =>
              match arrayMap transformer reviews with
              | Throw _ => (EntryFailed, st)
              | Return transformedReviews =>
                  let cache1 := assignProp cache "reviews" (VArr transformedReviews) in
                  let cache2 := assignProp cache1 "lastMigrated" (VStr now) in
                  (EntryUpdated, <[key := JSON_stringify cache2]> st)
              end
          | Return _ => (EntrySkipped, st)
          | Throw _ => (EntryFailed, st)
          end
        else (EntrySkipped, st)
    end.

(** The [for] loop over the keys, with the two counters; [i] counts the
    turns. *)
Fixpoint transformLoop (transformer : Callback) (clock : nat -> string) (i : nat)
    (keys : list string) (updatedCount failedCount : nat) (st : Storage)
  : nat * nat * Storage :=
  match keys with
  | [] => (updatedCount, failedCount, st)
  | key :: keys' =>
      match transformEntry transformer (clock i) key st with
      | (EntryUpdated, st') =>
          transformLoop transformer clock (S i) keys' (S updatedCount) failedCount st'
      | (EntrySkipped, st') =>
          transformLoop transformer clock (S i) keys' updatedCount failedCount st'
      | (EntryFailed, st') =>
          transformLoop transformer clock (S i) keys' updatedCount (S failedCount) st'
      end
  end.

(** The transformer is a function of its arguments; [clock i] is the
    time read in turn [i] of the loop. *)
Definition transformReviews (transformer : Callback) (clock : nat -> string)
    (st : Storage) : Result value * Storage :=
  let cacheKeys := reviewCacheHelpers.findAllKeys st in
  let '(updatedCount, failedCount, st') :=
    transformLoop transformer clock 0 cacheKeys 0 0 st in
  (Return (VObj [("processed", VNum (Z.of_nat (length cacheKeys)));
                 ("updated", VNum (Z.of_nat updatedCount));
                 ("failed", VNum (Z.of_nat failedCount))]),
   st').


Definition clearAllCache (st : Storage) : Result value * Storage :=
  let '(count, st') := reviewCacheHelpers.clearAllCache st in
  (Return (VObj [("clearedCount", VNum (Z.of_nat count))]), st').

End reviewMigrations.

Module generalMigrations.

(** The handler of [forEachMatchingKey], called with a key and its item;
    it works on the store and resolves or rejects. *)
Definition Handler := string -> option string -> Storage -> Result unit * Storage.

(** The second loop of [forEachMatchingKey], with its two counters. *)
Fixpoint handleKeys (handler : Handler) (keys : list string) (succeeded failed : nat)
    (st : Storage) : nat * nat * Storage :=
  match keys with
  | [] => (succeeded, failed, st)
  | key :: keys' =>
      match handler key (st !! key) st with
      | (Return _, st') => handleKeys handler keys' (S succeeded) failed st'
      | (Throw _, st') => handleKeys handler keys' succeeded (S failed) st'
      end
  end.

(** [pattern] stands for [key => pattern.test(key)], which is a function
    of the key for a regular expression without the flags [g] and [y]. *)
Definition forEachMatchingKey (pattern : string -> bool) (handler : Handler)
    (st : Storage) : Result value * Storage :=
  let keys := filter (fun key => negb (String.eqb key "") && pattern key = true)
                     (storageKeysOf st) in
  let '(succeeded, failed, st') := handleKeys handler keys 0 0 st in
  (Return (VObj [("processed", VNum (Z.of_nat (length keys)));
                 ("succeeded", VNum (Z.of_nat succeeded));
                 ("failed", VNum (Z.of_nat failed))]),
   st').

(** [preserveData[key] = localStorage.getItem(key)] on the object literal
    [preserveData]: the name [__proto__] is taken by the inherited setter,
    which ignores a string and for [null] only clears the prototype; either
    way no item is kept under it. *)
Definition preserve (st : Storage) (preserveData : gmap string (option string))
    (key : string) : gmap string (option string) :=
  if String.eqb key "__proto__" then preserveData
  else <[key := st !! key]> preserveData.

(** [if (preserveData[key] !== null) localStorage.setItem(key, preserveData[key])] *)
Definition restore (key : string) (item : option string) (st : Storage) : Storage :=
  match item with
  | Some data => <[key := data]> st
  | None => st
  end.

(** [clearAllStorage]; [exceptKeys] is [None] when the argument is left
    out.  The keys of [preserveData] are distinct, so the order in which
    they are restored does not show. *)
Definition clearAllStorage (exceptKeys : option (list string)) (st : Storage)
  : Result value * Storage :=
  let exceptKeys := default [] exceptKeys in
  let preserveData := foldl (preserve st) ∅ exceptKeys in
  let itemCount := size st in
  (Return (VObj [("cleared", VNum (Z.of_nat itemCount));
                 ("preserved", VNum (Z.of_nat (length exceptKeys)))]),
   map_fold restore ∅ preserveData).

End generalMigrations.

(** ** migrations.js: procedures, registry and executor *)

(** A migration procedure, called as [procedure(fromVersion, toVersion)];
    it works on the store and resolves to a value or rejects. *)
Abbreviation Procedure :=
  (string -> string -> Storage -> Result (option value) * Storage)%type.

Record MigrationOptions := mkMigrationOptions {
  affects : option (list string);      (* [None]: left out, the default [[]] applies *)
  migrate : Procedure                  (* the logger argument only prints *)
}.

Definition affectsOf (options : MigrationOptions) : list string :=
  default [] (affects options).

(** [{ success: true, affectedKeys: affects, ...result }] *)
Definition successObject (affectedKeys : list string) (result : option value) : value :=
  VObj (foldl (fun acc p => setProp (fst p) (snd p) acc)
              [("success", VBool true); ("affectedKeys", VArr (VStr <$> affectedKeys))]
              (ownEnumerable result)).

(** [{ success: false, affectedKeys: affects, error: { message, stack } }] *)
Definition failureObject (affectedKeys : list string) (error : JsError) : value :=
  VObj [("success", VBool false);
        ("affectedKeys", VArr (VStr <$> affectedKeys));
        ("error", VObj [("message", VStr (message error)); ("stack", VStr (stack error))])].

Definition createMigration (options : MigrationOptions) : Procedure :=
  fun fromVersion toVersion st =>
    match migrate options fromVersion toVersion st with
    | (Return result, st') => (Return (Some (successObject (affectsOf options) result)), st')
    | (Throw error, st') => (Return (Some (failureObject (affectsOf options) error)), st')
    end.

(** ** exampleMigration.js: the template procedure *)

Module exampleMigration.

(** [(review) => ({ ...review, migrated: true, processingVersion: toVersion })] *)
Definition markMigrated (toVersion : string) : Callback :=
  fun review _ _ =>
    Return (VObj (setProp "processingVersion" (VStr toVersion)
                    (setProp "migrated" (VBool true) (ownEnumerable (Some review))))).

(** The object [results] with its two counters; a counter that is
    [undefined] is a property nobody reads, and is left out. *)
Definition resultsObject (companiesUpdated reviewsUpdated : option value)
    (rest : list (string * value)) : value :=
  VObj (match companiesUpdated with Some x => [("companiesUpdated", x)] | None => [] end
        ++ match reviewsUpdated with Some x => [("reviewsUpdated", x)] | None => [] end
        ++ [("errors", VArr [])] ++ rest).

(** The [migrate] function of [migrateToV1_1_0]; [now] is what
    [new Date().toISOString()] returns for the default of the new field, and
    [clock] gives the times that [transformReviews] reads.  Its [catch]
    returns the message of the error under [error]. *)
Definition migrateFunction (now : string) (clock : nat -> string) : Procedure :=
  fun fromVersion toVersion st =>
    let failed (companiesUpdated : option value) (error : JsError) :=
      Some (resultsObject companiesUpdated (Some (VNum 0))
                          [("success", VBool false); ("error", VStr (message error))]) in
    match companyMigrations.addField "lastUpdated" (VStr now) st with
    | (Throw error, st1) => (Return (failed (Some (VNum 0)) error), st1)
    | (Return companyResult, st1) =>
        match getMember (Some companyResult) "updated" with
        | Throw error => (Return (failed (Some (VNum 0)) error), st1)
        | Return companiesUpdated =>
            match reviewMigrations.transformReviews (markMigrated toVersion) clock st1 with
            | (Throw error, st2) => (Return (failed companiesUpdated error), st2)
            | (Return reviewResult, st2) =>
                match getMember (Some reviewResult) "updated" with
                | Throw error => (Return (failed companiesUpdated error), st2)
                | Return reviewsUpdated =>
                    (Return (Some (resultsObject companiesUpdated reviewsUpdated
                                                 [("success", VBool true)])), st2)
                end
            end
        end
    end.

Definition migrateToV1_1_0 (now : string) (clock : nat -> string) : Procedure :=
  createMigration {| affects := Some [LOCAL_STORAGE_KEYS.COMPANIES];
                     migrate := migrateFunction now clock |}.

End exampleMigration.

(** What the engine itself does, recorded next to the store: which
    procedure it invoked with which arguments, and when it saved the
    version marker. *)
Inductive Event :=
| Invoked (fromVersion toVersion : string)
| SavedVersion (v : string).

Record World := mkWorld {
  localStorage : Storage;
  trace : list Event
}.

Module Step.
(** An entry of [results]. *)
Record t := mk {
  version : string;
  success : option value;
  affectedKeys : option value;
  details : option value
}.
End Step.

Inductive ErrorInfo :=
| ErrorValue (v : option value)     (* [result.error] *)
| ErrorThrown (e : JsError).        (* the caught exception *)

Module Exec.
(** The object [executeMigrations] resolves to; a field that the object
    literal leaves out is [None]. *)
Record t := mk {
  success : bool;
  message : string;
  affectedKeys : option (list value);
  error : option ErrorInfo;
  results : option (list Step.t)
}.
End Exec.

(** [Set.prototype.add] compares with SameValueZero; two objects or arrays
    are the same only if they are one object, which a parsed or freshly
    built value never is. *)
Definition sameValueZero (a b : value) : bool :=
  match a, b with
  | VNull, VNull => true
  | VBool x, VBool y => Bool.eqb x y
  | VNum x, VNum y => (x =? y)%Z
  | VStr x, VStr y => String.eqb x y
  | _, _ => false
  end.

Definition setAdd (s : list value) (x : value) : list value :=
  if existsb (sameValueZero x) s then s else (s ++ [x])%list.

(** [if (r.affectedKeys && Array.isArray(r.affectedKeys)) r.affectedKeys.forEach(add)] *)
Definition addAffectedKeys (affectedKeys : list value) (ak : option value) : list value :=
  match ak with
  | Some (VArr keys) => foldl setAdd affectedKeys keys
  | _ => affectedKeys
  end.

(** [result.error?.message || "Unknown error"] inside a template literal. *)
Definition errorMessageOf (err : option value) : string :=
  match err with
  | None | Some VNull => "Unknown error"
  | Some e =>
      match getMember (Some e) "message" with
      | Return (Some m) => if truthy (Some m) then toStr m else "Unknown error"
      | _ => "Unknown error"
      end
  end.

Inductive StepOutcome :=
| Continue (results : list Step.t) (affectedKeys : list value)
| Stop (r : Exec.t).

Section Engine.

Variable APP_VERSION : string.
Variable VERSION_HISTORY : list VersionRecord.
(** The registry [migrations]: version string to procedure. *)
Variable migrations : gmap string Procedure.

Definition checkMigrationNeeded (storedVersion : option string) : Result bool :=
  if falsyItem storedVersion then Return false
  else (c <~ compareVersions (default "" storedVersion) APP_VERSION;
        Return (negb (c =? 0)%Z))%result.

(** The [try] block of one turn of the loop, from the value the
    procedure resolved to. *)
Definition stepBody (version : string) (results : list Step.t)
    (affectedKeys : list value) (result : option value) : Result StepOutcome :=
  (ak <~ getMember result "affectedKeys";
   let affectedKeys' :=
     if truthy ak then addAffectedKeys affectedKeys ak else affectedKeys in
   ok <~ getMember result "success";
   let results' :=
     (results ++ [ {| Step.version := version; Step.success := ok;
                      Step.affectedKeys := ak; Step.details := result |} ])%list in
   if negb (truthy ok) then
     (err <~ getMember result "error";
      Return (Stop {| Exec.success := false;
                      Exec.message := "Migration failed for version " +:+ version
                                      +:+ ": " +:+ errorMessageOf err;
                      Exec.affectedKeys := Some affectedKeys';
                      Exec.error := Some (ErrorValue err);
                      Exec.results := Some results' |}))
   else Return (Continue results' affectedKeys'))%result.

(** The [for] loop of [executeMigrations] over the rest of the path. *)
Fixpoint runPath (storedVersion : string) (path : list VersionRecord)
    (results : list Step.t) (affectedKeys : list value) (w : World)
  : Exec.t * World :=
  match path with
  | [] =>
      ({| Exec.success := true;
          Exec.message := "Successfully migrated from " +:+ storedVersion
                          +:+ " to " +:+ APP_VERSION;
          Exec.affectedKeys := Some affectedKeys;
          Exec.error := None;
          Exec.results := Some results |}, w)
  | versionInfo :: path' =>
      let version := version versionInfo in
      match migrations !! version with
      | Some migrationFn =>
          let '(resolved, st') := migrationFn storedVersion version (localStorage w) in
          let w' := {| localStorage := st';
                       trace := (trace w ++ [Invoked storedVersion version])%list |} in
          match (result <~ resolved;
                 stepBody version results affectedKeys result)%result with
          | Return (Continue results' affectedKeys') =>
              runPath storedVersion path' results' affectedKeys' w'
          | Return (Stop r) => (r, w')
          | Throw error =>
              ({| Exec.success := false;
                  Exec.message := "Migration failed for version " +:+ version
                                  +:+ ": " +:+ message error;
                  Exec.affectedKeys := Some affectedKeys;
                  Exec.error := Some (ErrorThrown error);
                  Exec.results := Some results |}, w')
          end
      | None =>
          (* a warning is logged and the loop goes on *)
          runPath storedVersion path' results affectedKeys w
      end
  end.

Definition noMigrationNeeded : Exec.t :=
  {| Exec.success := true; Exec.message := "No migration needed";
     Exec.affectedKeys := None; Exec.error := None; Exec.results := None |}.

Definition executeMigrations (storedVersion : option string) (w : World)
  : Exec.t * World :=
  match storedVersion with
  | None => (noMigrationNeeded, w)
  | Some stored =>
      if String.eqb stored "" || String.eqb stored APP_VERSION
      then (noMigrationNeeded, w)
      else
        match getMigrationPath VERSION_HISTORY stored APP_VERSION with
        | Return [] =>
            ({| Exec.success := true;
                Exec.message := "No migrations required from " +:+ stored
                                +:+ " to " +:+ APP_VERSION;
                Exec.affectedKeys := None; Exec.error := None;
                Exec.results := None |}, w)
        | Return migrationPath => runPath stored migrationPath [] [] w
        | Throw error =>
            ({| Exec.success := false;
                Exec.message := "Migration failed: " +:+ message error;
                Exec.affectedKeys := None;
                Exec.error := Some (ErrorThrown error);
                Exec.results := None |}, w)
        end
  end.

(** ** versionService.js: the version tracker *)

Definition VERSION_STORAGE_KEY : string := LOCAL_STORAGE_KEYS.APP_VERSION.

Definition getStoredVersion (w : World) : option string :=
  localStorage w !! VERSION_STORAGE_KEY.

Definition saveCurrentVersion (w : World) : string * World :=
  (APP_VERSION,
   {| localStorage := <[VERSION_STORAGE_KEY := APP_VERSION]> (localStorage w);
      trace := (trace w ++ [SavedVersion APP_VERSION])%list |}).

(** The object [checkVersionStatus] returns; [isNewer] and [isOlder] are
    left out ([None]) on a first run. *)
Record VersionStatus := mkVersionStatus {
  firstRun : bool;
  updated : bool;
  fromVersion : option string;
  toVersion : string;
  isNewer : option bool;
  isOlder : option bool
}.

Definition checkVersionStatus (w : World) : Result VersionStatus :=
  let storedVersion := getStoredVersion w in
  if falsyItem storedVersion then
    Return {| firstRun := true; updated := false; fromVersion := None;
              toVersion := APP_VERSION; isNewer := None; isOlder := None |}
  else
    (versionCompare <~ compareVersions (default "" storedVersion) APP_VERSION;
     Return {| firstRun := false;
               updated := negb (versionCompare =? 0)%Z;
               fromVersion := storedVersion;
               toVersion := APP_VERSION;
               isNewer := Some (versionCompare <? 0)%Z;
               isOlder := Some (0 <? versionCompare)%Z |})%result.

(** [{ ...status, migrationNeeded, migrationResult }] *)
Record Initialization := mkInitialization {
  status : VersionStatus;
  migrationNeeded : bool;
  migrationResult : Exec.t
}.

Definition initializeVersioning (w : World) : Result Initialization * World :=
  match checkVersionStatus w with
  | Throw error => (Throw error, w)
  | Return status =>
      let finish (w : World) :=
        let w1 := if firstRun status || updated status
                  then snd (saveCurrentVersion w) else w in
        (Return {| status := status; migrationNeeded := false;
                   migrationResult := noMigrationNeeded |}, w1) in
      if updated status && default false (isNewer status) then
        match checkMigrationNeeded (fromVersion status) with
        | Throw error => (Throw error, w)
        | Return true =>
            let '(migrationResult, w1) := executeMigrations (fromVersion status) w in
            let w2 := if Exec.success migrationResult
                      then snd (saveCurrentVersion w1) else w1 in
            (Return {| status := status; migrationNeeded := true;
                       migrationResult := migrationResult |}, w2)
        | Return false => finish w
        end
      else finish w
  end.

End Engine.

(** ** version.js: the other queries on the history *)

(** [needsMigration]: whether the target record asks for a migration from
    [fromVersion]; a record carries all its fields. *)
Definition needsMigration (VERSION_HISTORY : list VersionRecord)
    (fromVersion toVersion : string) : Result bool :=
  if String.eqb fromVersion toVersion then Return false
  else
    (c <~ compareVersions fromVersion toVersion;
     if (c <? 0)%Z then
       match find (fun v => String.eqb (version v) toVersion) VERSION_HISTORY with
       | None => Return false                   (* unknown version *)
       | Some targetVersionInfo =>
           Return (requiresMigration targetVersionInfo &&
                   existsb (String.eqb fromVersion) (migrateFrom targetVersionInfo))
       end
     else Return true)%result.   (* a downgrade is taken to need a migration *)

(** [Set.prototype.add] on a set of strings; the set is the list of its
    elements in the order of insertion, which is the order of
    [Array.from]. *)
Definition addKey (keys : list string) (key : string) : list string :=
  if bool_decide (key ∈ keys) then keys else keys ++ [key].

Definition getAffectedStorageKeys (VERSION_HISTORY : list VersionRecord)
    (fromVersion toVersion : string) : Result (list string) :=
  (migrationPath <~ getMigrationPath VERSION_HISTORY fromVersion toVersion;
   Return (foldl (fun keys version => foldl addKey keys (storageKeys version))
                 [] migrationPath))%result.

(** * Definitions used to state the properties *)

(** ** The order on versions as the specification words it

    "Compare major, then minor, then patch numerically; a version with no
    label is strictly greater than one with a label when the numeric parts
    are equal; two labeled versions with equal numeric parts compare
    lexicographically by label." *)

Definition numericOrder (a b : Number) : comparison :=
  match a, b with
  | Finite x, Finite y => (x ?= y)%N
  | Finite _, Infinity => Lt
  | Infinity, Finite _ => Gt
  | Infinity, Infinity => Eq
  end.

Definition labelOrder (a b : option string) : comparison :=
  match a, b with
  | None, None => Eq
  | None, Some _ => Gt
  | Some _, None => Lt
  | Some x, Some y => String.compare x y
  end.

(** "first by [f], then by [g]" *)
Definition thenBy {A B} (f : A -> A -> comparison) (g : B -> B -> comparison)
    (x y : A * B) : comparison :=
  match f (fst x) (fst y) with
  | Eq => g (snd x) (snd y)
  | c => c
  end.

(** What the order looks at: everything of a parsed version but [raw]. *)
Definition versionKey (v : SemanticVersion) : Number * (Number * (Number * option string)) :=
  (major v, (minor v, (patch v, label v))).

Definition specOrder (a b : SemanticVersion) : comparison :=
  thenBy numericOrder (thenBy numericOrder (thenBy numericOrder labelOrder))
         (versionKey a) (versionKey b).

(** -1, 0 and 1 for less, equal and greater. *)
Definition signOf (c : comparison) : Z :=
  match c with
  | Lt => (-1)%Z
  | Eq => 0%Z
  | Gt => 1%Z
  end.

(** The laws of a three-way comparison that decides a total order. *)
Record CompareLaws {A} (f : A -> A -> comparison) : Prop := mkCompareLaws {
  cmp_refl : forall x, f x x = Eq;
  cmp_eq : forall x y, f x y = Eq -> x = y;
  cmp_antisym : forall x y, f y x = CompOpp (f x y);
  cmp_trans : forall x y z, f x y = Lt -> f y z = Lt -> f x z = Lt
}.

(** ** Words of the path resolver's specification *)

(** "[a] is not above [b]": the comparison answers, and not with 1. *)
Definition versionStrLe (a b : string) : Prop :=
  exists c, compareVersions a b = Return c /\ (c <= 0)%Z.

Definition versionLe (a b : VersionRecord) : Prop :=
  versionStrLe (version a) (version b).

(** [i] is the place of the first record of [l] that carries version [v]. *)
Definition firstIndexOf (v : string) (l : list VersionRecord) (i : nat) : Prop :=
  (exists r, l !! i = Some r /\ version r = v) /\
  (forall k r, k < i -> l !! k = Some r -> version r <> v).

Definition versionsOf (l : list VersionRecord) : list string := version <$> l.

(** A history record with a version string that parses. *)
Definition validRecord (r : VersionRecord) : Prop := validVersion (version r).

Definition release (v : string) (requires : bool) : VersionRecord :=
  {| version := v; requiresMigration := requires; migrateFrom := [];
     storageKeys := ["companies"]; notes := ""; changes := []; breaking := false |}.

(** A history with four releases, not written in ascending order. *)
Definition sample_VERSION_HISTORY : list VersionRecord :=
  [ release "1.1.0" true; release "1.0.0" false;
    release "2.0.0" true; release "1.2.0" true ].

(** ** A sample installation

    The registry of the migration guide: 1.1.0 adds [industry] to every
    company; here 1.2.0 is a step that fails and 2.0.0 clears the
    companies. *)

(** An [async] function that returns what a primitive resolved to. *)
Definition resolving (run : Storage -> Result value * Storage)
  : Storage -> Result (option value) * Storage :=
  fun st => let '(r, st') := run st in ((x <~ r; Return (Some x))%result, st').

Definition addIndustry : Procedure :=
  createMigration
    {| affects := Some [LOCAL_STORAGE_KEYS.COMPANIES];
       migrate := fun _ _ =>
         resolving (companyMigrations.addField "industry" (VStr "Technology")) |}.

Definition failingStep : Procedure :=
  createMigration
    {| affects := Some [LOCAL_STORAGE_KEYS.COMPANIES];
       migrate := fun _ _ st => (Throw (newError "Error" "schema not supported"), st) |}.

Definition clearCompanies : Procedure :=
  createMigration
    {| affects := None;
       migrate := fun _ _ st =>
         (Return (Some (VObj [("cleared", VBool true)])),
          delete LOCAL_STORAGE_KEYS.COMPANIES st) |}.

Definition sample_migrations : gmap string Procedure :=
  {[ "1.1.0" := addIndustry; "1.2.0" := failingStep; "2.0.0" := clearCompanies ]}.

Definition acmeCompanies : string :=
  JSON_stringify (VArr [VObj [("id", VNum 1); ("name", VStr "Acme")]]).

Definition sample_world : World :=
  {| localStorage := {[ "app_version" := "1.0.0"; "companies" := acmeCompanies ]};
     trace := [] |}.

(** ** Words of the version tracker's specification *)

Definition isInvoked (e : Event) : Prop :=
  match e with
  | Invoked _ _ => True
  | SavedVersion _ => False
  end.

(** A procedure that leaves the stored version marker alone: the marker
    belongs to the version tracker. *)
Definition leavesMarker (p : Procedure) : Prop :=
  forall fromVersion toVersion st,
    snd (p fromVersion toVersion st) !! LOCAL_STORAGE_KEYS.APP_VERSION =
    st !! LOCAL_STORAGE_KEYS.APP_VERSION.

(** The three cases in which [initializeVersioning] saves the marker, read
    off the status it returns: a first run, a migration run that
    succeeded, a compiled-in version older than the stored one. *)
Definition savesMarker (init : Initialization) : bool :=
  firstRun (status init)
  || (migrationNeeded init && Exec.success (migrationResult init))
  || default false (isOlder (status init)).

(** A store whose marker is a release newer than the shipped version, and
    one whose marker is not a version. *)
Definition downgraded_world : World :=
  {| localStorage := {[ "app_version" := "1.0.0" ]}; trace := [] |}.

Definition garbled_world : World :=
  {| localStorage := {[ "app_version" := "not-a-version" ]}; trace := [] |}.

(** ** Words of the specification of [createMigration] *)

(** The value that spreading [props] gives to the name [k]: the last one
    written under that name. *)
Definition spreadProp (k : string) (props : list (string * value)) : option value :=
  getProp k (reverse props).

(** The defaults of a successful migration: [success: true] and the declared
    [affects]. *)
Definition successDefaults (affects : list string) : list (string * value) :=
  [("success", VBool true); ("affectedKeys", VArr (VStr <$> affects))].

(** ** Words of the specification of [transformReviews] *)

(** The [reviews] array of a parsed cache entry, when it has one. *)
Definition reviewsOf (cache : value) : option (list value) :=
  if truthy (Some cache) then
    match getMember (Some cache) "reviews" with
    | Return (Some (VArr reviews)) => Some reviews
    | _ => None
    end
  else None.

(** An entry that [JSON.parse] rejects. *)
Definition unparsable (text : string) : bool :=
  match JSON_parse text with
  | Throw _ => true
  | Return _ => false
  end.

(** What the transformer does on the reviews of an entry that parses:
    [Some true] when it transforms them all, [Some false] when it throws,
    [None] when the entry has no reviews array. *)
Definition transformed (transformer : Callback) (text : string) : option bool :=
  match JSON_parse text with
  | Return cache =>
      match reviewsOf cache with
      | Some reviews =>
          match arrayMap transformer reviews with
          | Return _ => Some true
          | Throw _ => Some false
          end
      | None => None
      end
  | Throw _ => None
  end.

(** The entries that [failed] counts: not empty, and either unparsable or
    with reviews on which the transformer throws. *)
Definition countedAsFailed (transformer : Callback) (item : option string) : bool :=
  negb (falsyItem item)
  && (unparsable (default "" item)
      || bool_decide (transformed transformer (default "" item) = Some false)).

(** The entries that [updated] counts. *)
Definition countedAsUpdated (transformer : Callback) (item : option string) : bool :=
  negb (falsyItem item)
  && bool_decide (transformed transformer (default "" item) = Some true).

Definition countWhere (p : string -> bool) (keys : list string) : nat :=
  length (filter (fun k => p k = true) keys).

(** A cache with one empty entry, and the transformer that changes nothing. *)
Definition empty_entry_storage : Storage := {[ "reviews_1651" := "" ]}.

Definition keepReview : Callback := fun review _ _ => Return review.

(** ** Words about JSON texts and values *)

(** The order of the names of an object: an array index comes before a
    greater one and before every other name. *)
Definition keyBefore (k1 k2 : string) : Prop :=
  match arrayIndex k1, arrayIndex k2 with
  | Some i, Some j => (i < j)%N
  | None, Some _ => False
  | _, None => True
  end.

(** The values that exist at run time: no object carries a name twice, and
    the names of an object are in the order of enumeration. *)
#[local] Unset Elimination Schemes.
Inductive wellFormed : value -> Prop :=
| wf_null : wellFormed VNull
| wf_bool b : wellFormed (VBool b)
| wf_num n : wellFormed (VNum n)
| wf_str s : wellFormed (VStr s)
| wf_arr items : Forall wellFormed items -> wellFormed (VArr items)
| wf_obj props :
    NoDup props.*1 -> StronglySorted keyBefore props.*1 ->
    Forall (fun p => wellFormed p.2) props -> wellFormed (VObj props).
#[local] Set Elimination Schemes.

(** A bound on the fuel that reading a value back takes. *)
Fixpoint weight (v : value) : nat :=
  match v with
  | VArr items => S (list_sum (map (fun x => S (weight x)) items))
  | VObj props => S (list_sum (map (fun p => S (weight (snd p))) props))
  | _ => 1
  end.

(** What may follow a number in a text: anything but a digit. *)
Definition headNotDigit (rest : string) : Prop :=
  match rest with
  | EmptyString => True
  | String c _ => isDigit c = false
  end.

(** [v] reads back from its text with any fuel from its weight on. *)
Definition readsBack (v : value) : Prop :=
  forall n rest, weight v <= n -> headNotDigit rest ->
                 parseValue n (JSON_stringify v +:+ rest) = Some (v, rest).

(** ** Words of the specification of [addField] *)

Definition isRecord (v : value) : Prop := exists props, v = VObj props.

(** The companies collection is a sequence of records: whenever the entry
    holds a JSON array, its elements are objects.  (An entry that is absent,
    empty, unparsable or not an array is not excluded.) *)
Definition recordsOnly (st : Storage) : Prop :=
  forall text items,
    st !! LOCAL_STORAGE_KEYS.COMPANIES = Some text ->
    JSON_parse text = Return (VArr items) ->
    Forall isRecord items.

(** What [addField] makes of the properties of one record. *)
Definition withFieldProps (fieldName : string) (defaultValue : value)
    (props : list (string * value)) : list (string * value) :=
  match getProp fieldName props with
  | Some current => setProp fieldName (nullish (Some current) defaultValue) props
  | None =>
      if String.eqb fieldName "__proto__" then setProp fieldName (VObj []) props
      else if bool_decide (fieldName ∈ objectPrototype) then props
      else setProp fieldName defaultValue props
  end.

Definition withFieldRecord (fieldName : string) (defaultValue : value) (v : value) : value :=
  match v with
  | VObj props => VObj (withFieldProps fieldName defaultValue props)
  | _ => v
  end.

(** ** The texts that are versions *)

(** A run of at least one digit. *)
Definition numeral (s : string) : Prop := s <> "" /\ allDigits s = true.

(** A label: at least one character, none a line terminator. *)
Definition labelText (l : option string) : Prop :=
  match l with
  | None => True
  | Some t => t <> "" /\ noLineTerminator t = true
  end.

Definition versionText (a b c : string) (l : option string) : string :=
  a +:+ "." +:+ b +:+ "." +:+ c +:+
  match l with Some t => "-" +:+ t | None => "" end.

(** A history with storage keys and sources of migration. *)
Definition keyed_VERSION_HISTORY : list VersionRecord :=
  [ {| version := "1.0.0"; requiresMigration := false; migrateFrom := [];
       storageKeys := ["companies"; "app_version"]; notes := ""; changes := [];
       breaking := false |};
    {| version := "1.2.0"; requiresMigration := true; migrateFrom := ["1.0.0"; "1.1.0"];
       storageKeys := ["reviews_1651"; "companies"]; notes := ""; changes := [];
       breaking := false |};
    {| version := "1.1.0"; requiresMigration := true; migrateFrom := ["1.0.0"];
       storageKeys := ["companies"; "sentimentChartsOrder"]; notes := ""; changes := [];
       breaking := false |} ].

(** ** More sample data for the engine *)

(** A history with a version that is no version. *)
Definition malformed_VERSION_HISTORY : list VersionRecord :=
  [ release "1.0.0" false; release "latest" true ].

(** The store of a browser that never ran the application. *)
Definition fresh_world : World := {| localStorage := ∅; trace := [] |}.

(** The message of the format error of [parseVersion]. *)
Definition invalidVersionError (v : string) : JsError :=
  newError "Error" ("Invalid version format: " +:+ v).

(** Whether the registry holds a procedure for a version. *)
Definition registered (migrations : gmap string Procedure) (v : string) : bool :=
  bool_decide (is_Some (migrations !! v)).

(** ** Words of the review cache *)

(** Whether a key belongs to the review cache. *)
Definition isReviewKey (key : string) : bool := String.prefix "reviews_" key.

(** ** Words of the company primitives *)

(** What reading [o[k]] finds on an object built by a literal. *)
Definition memberOf (props : list (string * value)) (k : string) : Member :=
  match getProp k props with
  | Some x => MData (Some x)
  | None =>
      if String.eqb k "__proto__" then MData (Some (VObj []))
      else if bool_decide (k ∈ objectPrototype) then MFunction
      else MData None
  end.

(** What [renameField] makes of the properties of one company. *)
Definition renamedProps (oldName newName : string) (props : list (string * value))
  : list (string * value) :=
  if hasProperty props oldName
  then deleteProp oldName (putMember props newName (memberOf props oldName))
  else props.

(** A name that [Object.prototype] provides to every object. *)
Definition inheritedName (k : string) : Prop :=
  k = "__proto__" \/ k ∈ objectPrototype.

(** The companies entry holds the array [items]. *)
Definition companiesAre (st : Storage) (items : list value) : Prop :=
  exists text, st !! LOCAL_STORAGE_KEYS.COMPANIES = Some text /\
               JSON_parse text = Return (VArr items).

(** Two companies, one of them with a founding year. *)
Definition twoCompanies : list value :=
  [ VObj [("id", VNum 1); ("name", VStr "Acme"); ("founded", VNum 1999)];
    VObj [("id", VNum 2); ("name", VStr "Globex")] ].

Definition twoCompanies_storage : Storage :=
  {[ LOCAL_STORAGE_KEYS.COMPANIES := JSON_stringify (VArr twoCompanies) ]}.

(** ** Words of the general primitives *)

(** Whether [clearAllStorage] keeps the item of a key. *)
Definition kept (exceptKeys : list string) (k : string) : bool :=
  bool_decide (k ∈ exceptKeys) && negb (String.eqb k "__proto__").

(** A store with the settings of the table, the marker and a cache entry. *)
Definition settings_storage : Storage :=
  {[ "app_version" := "1.0.0"; "reviewsTableColumnOrder" := "[]";
     "reviews_1651" := "{}"; "__proto__" := "x" ]}.

(** A cache entry with two reviews. *)
Definition cached_reviews : list (string * value) :=
  [("reviews", VArr [VObj [("rating", VNum 5)]; VObj [("rating", VNum 2)]]);
   ("page", VNum 1)].

Definition cache_storage : Storage :=
  {[ "reviews_1651" := JSON_stringify (VObj cached_reviews); "companies" := "[]" ]}.

(** A store whose companies entry is not JSON. *)
Definition broken_world : World :=
  {| localStorage := {[ "app_version" := "1.0.0"; "companies" := "[{" ]};
     trace := [] |}.

(** ** The numbers of a version as integers *)

(** The integer that a run of digits denotes. *)
Definition numberOf (digits : string) : N := decimalValue 0 digits.

(** The integers that a double holds exactly: those below 2^53. *)
Definition exact (n : N) : Prop := (n < 2 ^ 53)%N.

(** The order on three integers and a label: by the integers in turn, then
    by the label. *)
Definition integerOrder (x y : N * (N * (N * option string))) : comparison :=
  thenBy N.compare (thenBy N.compare (thenBy N.compare labelOrder)) x y.

(** ** Words of the affected keys *)

(** No two entries are the same value in the sense of a [Set]. *)
Definition distinctKeys (keys : list value) : Prop :=
  forall i j x y, i < j -> keys !! i = Some x -> keys !! j = Some y ->
                  sameValueZero x y = false.

(** Every key was reported by a step. *)
Definition reportedBy (steps : list Step.t) (keys : list value) : Prop :=
  forall k, k ∈ keys ->
            exists step reported,
              step ∈ steps /\ Step.affectedKeys step = Some (VArr reported) /\
              k ∈ reported.

(** * Properties *)

(** ** The SemVer model *)

Lemma numericOrder_laws : CompareLaws numericOrder.
Proof.
  split.
  - intros [x|]; simpl; [apply N.compare_refl | reflexivity].
  - intros [x|] [y|]; simpl; try discriminate; [|reflexivity].
    intros H. apply N.compare_eq in H. congruence.
  - intros [x|] [y|]; simpl; try reflexivity. apply N.compare_antisym.
  - intros [x|] [y|] [z|]; simpl; try discriminate; try reflexivity.
    rewrite !N.compare_lt_iff. lia.
Qed.

Lemma string_compare_refl s : String.compare s s = Eq.
Proof.
  induction s as [|c s IH]; simpl; [reflexivity|].
  unfold Ascii.compare. rewrite N.compare_refl. exact IH.
Qed.

Lemma string_compare_trans s1 s2 s3 :
  String.compare s1 s2 = Lt -> String.compare s2 s3 = Lt -> String.compare s1 s3 = Lt.
Proof.
  revert s2 s3.
  induction s1 as [|c1 s1 IH]; intros [|c2 s2] [|c3 s3]; simpl; try discriminate; auto.
  unfold Ascii.compare.
  destruct (N.compare_spec (N_of_ascii c1) (N_of_ascii c2)) as [E12|L12|G12];
    try discriminate;
    destruct (N.compare_spec (N_of_ascii c2) (N_of_ascii c3)) as [E23|L23|G23];
    try discriminate; intros H1 H2.
  - rewrite E12, E23, N.compare_refl. eauto.
  - rewrite E12. apply N.compare_lt_iff in L23. rewrite L23. reflexivity.
  - rewrite <- E23. apply N.compare_lt_iff in L12. rewrite L12. reflexivity.
  - assert (L : (N_of_ascii c1 < N_of_ascii c3)%N) by lia.
    apply N.compare_lt_iff in L. rewrite L. reflexivity.
Qed.

Lemma string_compare_laws : CompareLaws String.compare.
Proof.
  split.
  - apply string_compare_refl.
  - intros x y. apply String.compare_eq_iff.
  - intros x y. apply String.compare_antisym.
  - apply string_compare_trans.
Qed.

Lemma labelOrder_laws : CompareLaws labelOrder.
Proof.
  destruct string_compare_laws as [R E A T].
  split.
  - intros [x|]; simpl; auto.
  - intros [x|] [y|]; simpl; try discriminate; auto.
    intros H. f_equal. auto.
  - intros [x|] [y|]; simpl; auto.
  - intros [x|] [y|] [z|]; simpl; try discriminate; eauto.
Qed.

Lemma thenBy_laws {A B} (f : A -> A -> comparison) (g : B -> B -> comparison) :
  CompareLaws f -> CompareLaws g -> CompareLaws (thenBy f g).
Proof.
  intros [Rf Ef Af Tf] [Rg Eg Ag Tg].
  split; unfold thenBy.
  - intros [a b]; simpl. rewrite Rf. apply Rg.
  - intros [a b] [a' b']; simpl.
    destruct (f a a') eqn:Hf; try discriminate.
    intros Hg. f_equal; auto.
  - intros [a b] [a' b']; simpl.
    rewrite (Af a a'). destruct (f a a'); simpl; auto.
  - intros [a b] [a' b'] [a'' b'']; simpl.
    destruct (f a a') eqn:H1; try discriminate;
      destruct (f a' a'') eqn:H2; try discriminate; intros G1 G2.
    + apply Ef in H1, H2. subst. rewrite Rf. eauto.
    + apply Ef in H1. subst. rewrite H2. reflexivity.
    + apply Ef in H2. subst. rewrite H1. reflexivity.
    + rewrite (Tf _ _ _ H1 H2). reflexivity.
Qed.

Lemma versionKey_order_laws :
  CompareLaws (thenBy numericOrder (thenBy numericOrder (thenBy numericOrder labelOrder))).
Proof.
  repeat apply thenBy_laws; auto using numericOrder_laws, labelOrder_laws.
Qed.

Lemma Number_eqb_order a b : Number_eqb a b = match numericOrder a b with Eq => true | _ => false end.
Proof.
  destruct a as [x|], b as [y|]; simpl; try reflexivity.
  destruct (N.compare_spec x y); [apply N.eqb_eq | apply N.eqb_neq | apply N.eqb_neq]; lia.
Qed.

Lemma Number_gtb_order a b : Number_gtb a b = match numericOrder a b with Gt => true | _ => false end.
Proof.
  destruct a as [x|], b as [y|]; simpl; try reflexivity.
  destruct (N.compare_spec x y); [apply N.ltb_ge | apply N.ltb_ge | apply N.ltb_lt]; lia.
Qed.

(** The code and the specification's order agree on parsed versions. *)
Lemma compareParsed_specOrder a b : compareParsed a b = signOf (specOrder a b).
Proof.
  unfold compareParsed, specOrder, thenBy, versionKey; simpl.
  rewrite !Number_eqb_order, !Number_gtb_order.
  destruct (numericOrder (major a) (major b)); simpl; try reflexivity.
  destruct (numericOrder (minor a) (minor b)); simpl; try reflexivity.
  destruct (numericOrder (patch a) (patch b)); simpl; try reflexivity.
  destruct (label a) as [la|], (label b) as [lb|]; simpl; try reflexivity.
  unfold string_gtb.
  destruct (String.eqb_spec la lb) as [->|Hne].
  - rewrite string_compare_refl. reflexivity.
  - destruct (String.compare la lb) eqn:Hc; try reflexivity.
    apply String.compare_eq_iff in Hc. contradiction.
Qed.

Lemma compareVersions_parsed a b pa pb :
  parseVersion a = Return pa -> parseVersion b = Return pb ->
  compareVersions a b = Return (signOf (specOrder pa pb)).
Proof.
  intros Ha Hb. unfold compareVersions. rewrite Ha, Hb. simpl.
  f_equal. apply compareParsed_specOrder.
Qed.

Lemma specOrder_antisym a b : specOrder b a = CompOpp (specOrder a b).
Proof. apply (cmp_antisym _ versionKey_order_laws). Qed.

Lemma specOrder_eq_key a b : specOrder a b = Eq <-> versionKey a = versionKey b.
Proof.
  split.
  - apply (cmp_eq _ versionKey_order_laws).
  - unfold specOrder. intros ->. apply (cmp_refl _ versionKey_order_laws).
Qed.

Lemma specOrder_trans_lt a b c :
  specOrder a b = Lt -> specOrder b c = Lt -> specOrder a c = Lt.
Proof. apply (cmp_trans _ versionKey_order_laws). Qed.

(** "Not greater" is transitive, and strict as soon as one step is. *)
Lemma specOrder_trans a b c :
  specOrder a b <> Gt -> specOrder b c <> Gt ->
  specOrder a c <> Gt /\
  (specOrder a b = Lt \/ specOrder b c = Lt -> specOrder a c = Lt).
Proof.
  intros Hab Hbc.
  destruct (specOrder a b) eqn:E1; try contradiction;
    destruct (specOrder b c) eqn:E2; try contradiction.
  - apply specOrder_eq_key in E1, E2.
    assert (E : specOrder a c = Eq) by (apply specOrder_eq_key; congruence).
    rewrite E. split; [discriminate | intros [?|?]; discriminate].
  - apply specOrder_eq_key in E1. unfold specOrder in *. rewrite E1, E2.
    split; [discriminate | reflexivity].
  - apply specOrder_eq_key in E2. unfold specOrder in *. rewrite <- E2, E1.
    split; [discriminate | reflexivity].
  - rewrite (specOrder_trans_lt _ _ _ E1 E2). split; [discriminate | reflexivity].
Qed.

Lemma signOf_range c : (signOf c = -1 \/ signOf c = 0 \/ signOf c = 1)%Z.
Proof. destruct c; simpl; auto. Qed.

Lemma signOf_CompOpp c : signOf (CompOpp c) = (- signOf c)%Z.
Proof. destruct c; reflexivity. Qed.

Lemma signOf_le0 c : (signOf c <= 0)%Z <-> c <> Gt.
Proof. destruct c; simpl; split; intros; try lia; try discriminate; congruence. Qed.

Lemma signOf_lt c : signOf c = (-1)%Z <-> c = Lt.
Proof. destruct c; simpl; split; intros; try lia; try discriminate; congruence. Qed.

Lemma signOf_eq c : signOf c = 0%Z <-> c = Eq.
Proof. destruct c; simpl; split; intros; try lia; try discriminate; congruence. Qed.



(** ** The path resolver *)

Lemma versionStrLe_spec a b pa pb :
  parseVersion a = Return pa -> parseVersion b = Return pb ->
  versionStrLe a b <-> specOrder pa pb <> Gt.
Proof.
  intros Ha Hb. unfold versionStrLe.
  rewrite (compareVersions_parsed _ _ _ _ Ha Hb). split.
  - intros (c & [= <-] & Hc). by apply signOf_le0.
  - intros H. eexists; split; [reflexivity | by apply signOf_le0].
Qed.

Lemma versionStrLe_valid a b : versionStrLe a b -> validVersion a /\ validVersion b.
Proof.
  intros (c & Hc & _). unfold compareVersions, validVersion in *.
  destruct (parseVersion a) as [pa|]; [|discriminate].
  destruct (parseVersion b) as [pb|]; [|discriminate]. eauto.
Qed.

Lemma versionStrLe_trans a b c : versionStrLe a b -> versionStrLe b c -> versionStrLe a c.
Proof.
  intros Hab Hbc.
  destruct (versionStrLe_valid _ _ Hab) as [[pa Ha] [pb Hb]].
  destruct (versionStrLe_valid _ _ Hbc) as [_ [pc Hc]].
  rewrite (versionStrLe_spec _ _ _ _ Ha Hb) in Hab.
  rewrite (versionStrLe_spec _ _ _ _ Hb Hc) in Hbc.
  rewrite (versionStrLe_spec _ _ _ _ Ha Hc).
  by apply (specOrder_trans pa pb pc).
Qed.

Lemma versionStrLe_refl a : validVersion a -> versionStrLe a a.
Proof.
  intros [pa Ha]. rewrite (versionStrLe_spec _ _ _ _ Ha Ha).
  assert (E : specOrder pa pa = Eq) by by apply specOrder_eq_key.
  rewrite E. discriminate.
Qed.

(** On valid versions the comparator answers, and its answer orders the
    two versions one way or the other. *)
Lemma compareVersions_decides a b :
  validVersion a -> validVersion b ->
  exists c, compareVersions a b = Return c /\
            ((c <= 0)%Z -> versionStrLe a b) /\ (~ (c <= 0)%Z -> versionStrLe b a).
Proof.
  intros [pa Ha] [pb Hb].
  exists (signOf (specOrder pa pb)).
  split; [by apply compareVersions_parsed |]. split.
  - intros H. apply (versionStrLe_spec _ _ _ _ Ha Hb). by apply signOf_le0.
  - intros H. apply (versionStrLe_spec _ _ _ _ Hb Ha).
    rewrite (specOrder_antisym pa pb).
    destruct (specOrder pa pb); simpl in *; try discriminate. lia.
Qed.

#[local] Instance versionLe_trans : Transitive versionLe.
Proof. intros a b c. apply versionStrLe_trans. Qed.

Lemma insertSorted_spec x l :
  validRecord x -> Forall validRecord l ->
  exists r, insertSorted byVersion x l = Return r /\ r ≡ₚ x :: l /\
            (StronglySorted versionLe l -> StronglySorted versionLe r).
Proof.
  intros Hx. induction l as [|y l IH]; intros Hl; simpl.
  - exists [x]. repeat split; auto. intros _. repeat constructor.
  - apply Forall_cons in Hl as [Hy Hl].
    destruct (compareVersions_decides _ _ Hx Hy) as (c & Hc & Hle & Hgt).
    unfold byVersion at 1. rewrite Hc. simpl.
    destruct (Z.leb_spec c 0) as [Hc0|Hc0].
    + exists (x :: y :: l). repeat split; auto.
      intros Hs. constructor; [exact Hs |].
      apply StronglySorted_cons in Hs as [Hyl _].
      constructor; [by apply Hle |].
      eapply Forall_impl; [exact Hyl |]. intros z Hz.
      transitivity y; [by apply Hle | exact Hz].
    + destruct (IH Hl) as (r & Hr & Hperm & Hsorted). rewrite Hr. simpl.
      exists (y :: r). split; [reflexivity |]. split.
      * rewrite Hperm. apply Permutation_swap.
      * intros Hs. apply StronglySorted_cons in Hs as [Hyl Hs].
        constructor; [by apply Hsorted |].
        rewrite Hperm. constructor; [apply Hgt; lia | exact Hyl].
Qed.

(** Sorting a history of valid versions succeeds, rearranges it, and
    leaves it ascending. *)
Lemma sortWith_spec l :
  Forall validRecord l ->
  exists s, sortWith byVersion l = Return s /\ s ≡ₚ l /\ StronglySorted versionLe s.
Proof.
  induction l as [|x l IH]; intros Hl; simpl.
  - exists []. repeat split; auto. constructor.
  - apply Forall_cons in Hl as [Hx Hl].
    destruct (IH Hl) as (s & Hs & Hperm & Hsorted). rewrite Hs. simpl.
    assert (Hvs : Forall validRecord s) by by rewrite Hperm.
    destruct (insertSorted_spec x s Hx Hvs) as (r & Hr & Hperm' & Hsorted').
    exists r. split; [exact Hr |]. split; [by rewrite Hperm', Hperm | auto].
Qed.

Lemma findIndex_Some (v : string) l i :
  findIndex (fun r => String.eqb (version r) v) l = Some i <-> firstIndexOf v l i.
Proof.
  unfold firstIndexOf. revert i. induction l as [|x l IH]; intros i; simpl.
  - split; [discriminate |]. intros [(r & Hr & _) _]. discriminate.
  - destruct (String.eqb_spec (version x) v) as [E|NE].
    + split.
      * intros [= <-]. split; [by exists x |]. intros k r Hk. lia.
      * intros [(r & Hr & _) Hmin]. destruct i as [|i]; [reflexivity |].
        exfalso. by apply (Hmin 0 x); [lia | |].
    + rewrite fmap_Some. split.
      * intros (i' & Hi' & ->). apply IH in Hi' as [(r & Hr & Hv) Hmin].
        split; [by exists r |]. intros [|k] r' Hk Hr'; simpl in *.
        -- congruence.
        -- apply (Hmin k); [lia | exact Hr'].
      * intros [(r & Hr & Hv) Hmin]. destruct i as [|i]; simpl in *.
        -- congruence.
        -- exists i. split; [|reflexivity]. apply IH. split; [by exists r |].
           intros k r' Hk Hr'. apply (Hmin (S k)); [lia | exact Hr'].
Qed.

Lemma findIndex_None (v : string) l :
  findIndex (fun r => String.eqb (version r) v) l = None <-> v ∉ versionsOf l.
Proof.
  unfold versionsOf. induction l as [|x l IH]; simpl.
  - split; [intros _; apply not_elem_of_nil | reflexivity].
  - rewrite not_elem_of_cons.
    destruct (String.eqb_spec (version x) v) as [E|NE].
    + split; [discriminate | intros [H _]; congruence].
    + rewrite fmap_None, IH. split; [by split | by intros [_ ?]].
Qed.

Lemma findIndex_present (v : string) l :
  v ∈ versionsOf l -> exists i, findIndex (fun r => String.eqb (version r) v) l = Some i.
Proof.
  intros Hin.
  destruct (findIndex (fun r => String.eqb (version r) v) l) as [i|] eqn:E; [by exists i |].
  apply findIndex_None in E. contradiction.
Qed.

Lemma StronglySorted_lookup {A} (R : relation A) l i j x y :
  StronglySorted R l -> i < j -> l !! i = Some x -> l !! j = Some y -> R x y.
Proof.
  intros Hs. revert i j. induction Hs as [|a l Hs IH Ha]; intros i j Hij Hi Hj.
  - discriminate.
  - destruct j as [|j]; [lia |]. destruct i as [|i]; simpl in *.
    + injection Hi as <-. rewrite Forall_forall in Ha.
      apply Ha. by eapply list_elem_of_lookup_2.
    + apply (IH i j); [lia | assumption..].
Qed.

Lemma StronglySorted_sublist {A} (R : relation A) l k :
  StronglySorted R l -> k `sublist_of` l -> StronglySorted R k.
Proof.
  intros Hs Hsub. revert Hs. induction Hsub as [|x k l Hsub IH|x k l Hsub IH]; intros Hs.
  - constructor.
  - apply StronglySorted_cons in Hs as [Hx Hs].
    constructor; [auto |].
    rewrite Forall_forall in *. intros y Hy. apply Hx.
    by eapply sublist_subseteq.
  - apply StronglySorted_cons in Hs as [_ Hs]. auto.
Qed.

Lemma getMigrationPath_same VERSION_HISTORY v :
  getMigrationPath VERSION_HISTORY v v = Return [].
Proof. unfold getMigrationPath. by rewrite String.eqb_refl. Qed.

(** The path, once the history is sorted and both versions are found. *)
Lemma getMigrationPath_found VERSION_HISTORY fromVersion toVersion sorted i j :
  fromVersion <> toVersion ->
  sortWith byVersion VERSION_HISTORY = Return sorted ->
  firstIndexOf fromVersion sorted i -> firstIndexOf toVersion sorted j ->
  getMigrationPath VERSION_HISTORY fromVersion toVersion =
    Return (filter (fun r => requiresMigration r = true)
                   (take (j - i) (drop (S i) sorted))).
Proof.
  intros Hne Hsort Hi Hj. unfold getMigrationPath.
  apply String.eqb_neq in Hne. rewrite Hne, Hsort. simpl.
  apply findIndex_Some in Hi, Hj. rewrite Hi, Hj. unfold slice.
  by replace (i + 1) with (S i) by lia; replace (j + 1 - S i) with (j - i) by lia.
Qed.

(** C4.  When the history holds valid versions and both [fromVersion] and
    [toVersion] occur in it, with [fromVersion] not above [toVersion], the
    path is what is left of the ascending history strictly after (the first
    record of) [fromVersion] and up to and including (the first record of)
    [toVersion], once the records that require no migration are dropped.
    It is a subsequence of the sorted history, ascending, and every record
    of it requires migration and lies between the two versions.  From a
    version to itself the path is empty, whatever the history. *)
Theorem getMigrationPath_slice (VERSION_HISTORY : list VersionRecord)
    (fromVersion toVersion : string) :
  Forall validRecord VERSION_HISTORY ->
  fromVersion ∈ versionsOf VERSION_HISTORY ->
  toVersion ∈ versionsOf VERSION_HISTORY ->
  versionStrLe fromVersion toVersion ->
  (exists sorted path i j,
      sortWith byVersion VERSION_HISTORY = Return sorted /\
      sorted ≡ₚ VERSION_HISTORY /\ StronglySorted versionLe sorted /\
      firstIndexOf fromVersion sorted i /\ firstIndexOf toVersion sorted j /\
      getMigrationPath VERSION_HISTORY fromVersion toVersion = Return path /\
      path = filter (fun r => requiresMigration r = true)
                    (take (j - i) (drop (S i) sorted)) /\
      path `sublist_of` sorted /\
      StronglySorted versionLe path /\
      Forall (fun r => requiresMigration r = true /\
                       versionStrLe fromVersion (version r) /\
                       versionStrLe (version r) toVersion) path /\
      (compareVersions fromVersion toVersion = Return (-1)%Z -> i < j)) /\
  (forall v, getMigrationPath VERSION_HISTORY v v = Return []).
Proof.
  intros Hvalid Hfrom Hto Hle.
  split; [| apply getMigrationPath_same].
  destruct (sortWith_spec _ Hvalid) as (sorted & Hsort & Hperm & Hsorted).
  assert (Hfrom' : fromVersion ∈ versionsOf sorted)
    by (unfold versionsOf; by rewrite Hperm).
  assert (Hto' : toVersion ∈ versionsOf sorted)
    by (unfold versionsOf; by rewrite Hperm).
  destruct (findIndex_present _ _ Hfrom') as [i Hi].
  destruct (findIndex_present _ _ Hto') as [j Hj].
  apply findIndex_Some in Hi, Hj.
  set (between := take (j - i) (drop (S i) sorted)).
  set (path := filter (fun r => requiresMigration r = true) between).
  assert (Hsub : between `sublist_of` sorted).
  { unfold between. etransitivity; [apply sublist_take |]. apply sublist_drop. }
  assert (Hpath : path `sublist_of` sorted).
  { etransitivity; [apply sublist_filter | exact Hsub]. }
  exists sorted, path, i, j.
  repeat (split; [assumption |]).
  split.
  { destruct (String.eqb_spec fromVersion toVersion) as [E|NE].
    - subst toVersion. rewrite getMigrationPath_same.
      destruct Hi as [(r & Hr & Hv) Hmin], Hj as [(r' & Hr' & Hv') Hmin'].
      assert (i = j).
      { destruct (Nat.lt_trichotomy i j) as [L|[E|L]]; [|exact E|].
        - exfalso. by apply (Hmin' i r).
        - exfalso. by apply (Hmin j r'). }
      subst j. unfold path, between. by rewrite Nat.sub_diag.
    - by apply getMigrationPath_found. }
  split; [reflexivity |].
  split; [exact Hpath |].
  split; [by eapply StronglySorted_sublist |].
  split.
  { apply Forall_forall. intros r Hr. unfold path in Hr.
    apply list_elem_of_filter in Hr as [Hreq Hr]. split; [exact Hreq |].
    unfold between in Hr. apply elem_of_take in Hr as (n & Hn & Hlt).
    rewrite lookup_drop in Hn.
    destruct Hi as [(rf & Hrf & <-) _], Hj as [(rt & Hrt & <-) _]. split.
    - apply (StronglySorted_lookup versionLe sorted i (S i + n) rf r);
        [assumption | lia | assumption..].
    - destruct (decide (S i + n = j)) as [E|NE].
      + rewrite E in Hn. assert (r = rt) by congruence. subst r.
        apply versionStrLe_refl. apply (versionStrLe_valid _ _ Hle).
      + apply (StronglySorted_lookup versionLe sorted (S i + n) j r rt);
          [assumption | lia | assumption..]. }
  intros Hlt.
  destruct Hi as [(rf & Hrf & Hvf) _], Hj as [(rt & Hrt & Hvt) _].
  destruct (Nat.lt_trichotomy i j) as [L|[E|L]]; [exact L | exfalso..].
  - subst j. assert (rf = rt) by congruence. subst rt.
    assert (E : toVersion = fromVersion) by congruence. rewrite E in Hlt.
    destruct (versionStrLe_valid _ _ Hle) as [[pa Ha] _].
    rewrite (compareVersions_parsed _ _ _ _ Ha Ha) in Hlt.
    assert (E' : specOrder pa pa = Eq) by by apply specOrder_eq_key.
    rewrite E' in Hlt. discriminate.
  - assert (Hback : versionLe rt rf)
      by (apply (StronglySorted_lookup versionLe sorted j i); assumption).
    unfold versionLe, versionStrLe in Hback. rewrite Hvf, Hvt in Hback.
    destruct Hback as (c & Hc & Hc0).
    destruct (versionStrLe_valid _ _ Hle) as [[pa Ha] [pb Hb]].
    rewrite (compareVersions_parsed _ _ _ _ Ha Hb) in Hlt.
    rewrite (compareVersions_parsed _ _ _ _ Hb Ha) in Hc.
    rewrite (specOrder_antisym pa pb) in Hc.
    injection Hlt as Hlt. injection Hc as <-.
    destruct (specOrder pa pb); simpl in *; lia.
Qed.

Lemma getMigrationPath_slice_witness :
  Forall validRecord sample_VERSION_HISTORY /\
  "1.0.0" ∈ versionsOf sample_VERSION_HISTORY /\
  "2.0.0" ∈ versionsOf sample_VERSION_HISTORY /\
  versionStrLe "1.0.0" "2.0.0" /\
  getMigrationPath sample_VERSION_HISTORY "1.0.0" "2.0.0" =
    Return [release "1.1.0" true; release "1.2.0" true; release "2.0.0" true] /\
  getMigrationPath sample_VERSION_HISTORY "2.0.0" "2.0.0" = Return [].
Proof.
  assert (Hv : Forall validRecord sample_VERSION_HISTORY)
    by (repeat constructor; eexists; reflexivity).
  assert (Hf : "1.0.0" ∈ versionsOf sample_VERSION_HISTORY)
    by (apply list_elem_of_In; vm_compute; tauto).
  assert (Ht : "2.0.0" ∈ versionsOf sample_VERSION_HISTORY)
    by (apply list_elem_of_In; vm_compute; tauto).
  assert (Hle : versionStrLe "1.0.0" "2.0.0")
    by (exists (-1)%Z; split; [reflexivity | lia]).
  repeat (split; [assumption |]).
  destruct (getMigrationPath_slice sample_VERSION_HISTORY "1.0.0" "2.0.0" Hv Hf Ht Hle)
    as [(sorted & path & i & j & _ & _ & _ & _ & _ & Hpath & _) Hsame].
  split; [| apply Hsame].
  rewrite Hpath. vm_compute in Hpath |- *. exact (eq_sym Hpath).
Defined.

(** Whatever the comparator, a sort that returns has only rearranged. *)
Lemma insertSorted_perm {A} (cmp : A -> A -> Result Z) x l r :
  insertSorted cmp x l = Return r -> r ≡ₚ x :: l.
Proof.
  revert r. induction l as [|y l IH]; intros r; simpl.
  - by intros [= <-].
  - destruct (cmp x y) as [c|e]; simpl; [|discriminate].
    destruct (c <=? 0)%Z; [by intros [= <-] |].
    destruct (insertSorted cmp x l) as [r'|e]; simpl; [|discriminate].
    intros [= <-]. rewrite (IH r' eq_refl). apply Permutation_swap.
Qed.

Lemma sortWith_perm {A} (cmp : A -> A -> Result Z) l s :
  sortWith cmp l = Return s -> s ≡ₚ l.
Proof.
  revert s. induction l as [|x l IH]; intros s; simpl.
  - by intros [= <-].
  - destruct (sortWith cmp l) as [s'|e]; simpl; [|discriminate].
    intros Hins. apply insertSorted_perm in Hins. by rewrite Hins, (IH s' eq_refl).
Qed.

Lemma getMigrationPath_absent VERSION_HISTORY fromVersion toVersion path :
  fromVersion ∉ versionsOf VERSION_HISTORY \/ toVersion ∉ versionsOf VERSION_HISTORY ->
  getMigrationPath VERSION_HISTORY fromVersion toVersion = Return path -> path = [].
Proof.
  intros Habsent. unfold getMigrationPath.
  destruct (String.eqb fromVersion toVersion); [by intros [= <-] |].
  destruct (sortWith byVersion VERSION_HISTORY) as [sorted|e] eqn:Hsort; simpl;
    [|discriminate].
  apply sortWith_perm in Hsort.
  assert (Habsent' : fromVersion ∉ versionsOf sorted \/ toVersion ∉ versionsOf sorted)
    by (unfold versionsOf in *; by rewrite Hsort).
  destruct Habsent' as [H|H]; apply findIndex_None in H; rewrite H.
  - by intros [= <-].
  - clear H.
    destruct (findIndex (fun v => String.eqb (version v) fromVersion) sorted);
      by intros [= <-].
Qed.

(** C5, the claim as stated fails: resolving a path from a version that the
    shipped history does not know returns the empty path, not a failure. *)
Lemma getMigrationPath_unknown_version_counterexample :
  "0.9.0" <> "1.0.0-alpha" /\
  ("0.9.0" ∉ versionsOf shipped_VERSION_HISTORY) /\
  getMigrationPath shipped_VERSION_HISTORY "0.9.0" "1.0.0-alpha" = Return [] /\
  (forall e, getMigrationPath shipped_VERSION_HISTORY "0.9.0" "1.0.0-alpha" <> Throw e).
Proof.
  split; [discriminate |].
  split; [intros H; apply list_elem_of_In in H; vm_compute in H; intuition discriminate |].
  split; [reflexivity |].
  intros e He. vm_compute in He. discriminate.
Qed.

(** C5, amended.  For two distinct versions of which one is absent from
    the history, path resolution never returns anything but the empty
    path, and returns it whenever the versions of the history are valid (the
    unknown version is only reported on the console); [executeMigrations]
    then invokes no procedure and leaves the store alone, and reports
    success with "No migrations required". *)
Theorem getMigrationPath_unknown_version (VERSION_HISTORY : list VersionRecord)
    (fromVersion toVersion : string) :
  fromVersion <> toVersion ->
  fromVersion ∉ versionsOf VERSION_HISTORY \/ toVersion ∉ versionsOf VERSION_HISTORY ->
  (forall path,
      getMigrationPath VERSION_HISTORY fromVersion toVersion = Return path -> path = []) /\
  (Forall validRecord VERSION_HISTORY ->
   getMigrationPath VERSION_HISTORY fromVersion toVersion = Return []) /\
  (forall (migrations : gmap string Procedure) (w : World),
      exists r,
        executeMigrations toVersion VERSION_HISTORY migrations (Some fromVersion) w = (r, w) /\
        Exec.results r = None /\
        (Forall validRecord VERSION_HISTORY -> fromVersion <> "" ->
         r = {| Exec.success := true;
                Exec.message := "No migrations required from " +:+ fromVersion
                                +:+ " to " +:+ toVersion;
                Exec.affectedKeys := None; Exec.error := None;
                Exec.results := None |})).
Proof.
  intros Hne Habsent.
  assert (Hempty : forall path,
             getMigrationPath VERSION_HISTORY fromVersion toVersion = Return path ->
             path = []) by (intros path; by apply getMigrationPath_absent).
  assert (Hvalid : Forall validRecord VERSION_HISTORY ->
                   getMigrationPath VERSION_HISTORY fromVersion toVersion = Return []).
  { intros Hv. destruct (sortWith_spec _ Hv) as (sorted & Hsort & _).
    destruct (getMigrationPath VERSION_HISTORY fromVersion toVersion) as [path|e] eqn:E.
    - by rewrite (Hempty path eq_refl).
    - unfold getMigrationPath in E. apply String.eqb_neq in Hne.
      rewrite Hne, Hsort in E. simpl in E.
      repeat case_match; discriminate. }
  split; [exact Hempty |]. split; [exact Hvalid |].
  intros migrations w. unfold executeMigrations.
  destruct (String.eqb fromVersion "") eqn:E1; simpl.
  { eexists. split; [reflexivity |]. split; [reflexivity |].
    intros _ Hn. apply String.eqb_eq in E1. contradiction. }
  apply String.eqb_neq in Hne. rewrite Hne.
  destruct (getMigrationPath VERSION_HISTORY fromVersion toVersion) as [path|e] eqn:E.
  - rewrite (Hempty path eq_refl). eexists. split; [reflexivity |]. by split.
  - eexists. split; [reflexivity |]. split; [reflexivity |].
    intros Hv _. specialize (Hvalid Hv). discriminate.
Qed.

Lemma getMigrationPath_unknown_version_witness :
  "0.9.0" <> "1.0.0-alpha" /\
  ("0.9.0" ∉ versionsOf shipped_VERSION_HISTORY \/
   "1.0.0-alpha" ∉ versionsOf shipped_VERSION_HISTORY) /\
  getMigrationPath shipped_VERSION_HISTORY "0.9.0" "1.0.0-alpha" = Return [].
Proof.
  assert (Hne : "0.9.0" <> "1.0.0-alpha") by discriminate.
  assert (Habsent : "0.9.0" ∉ versionsOf shipped_VERSION_HISTORY \/
                    "1.0.0-alpha" ∉ versionsOf shipped_VERSION_HISTORY).
  { left. intros H. apply list_elem_of_In in H. vm_compute in H.
    intuition discriminate. }
  repeat (split; [assumption |]).
  apply (getMigrationPath_unknown_version shipped_VERSION_HISTORY _ _ Hne Habsent).
  repeat constructor. eexists; reflexivity.
Defined.

(** ** The executor *)

Lemma compareVersions_Return_valid a b c :
  compareVersions a b = Return c -> validVersion a /\ validVersion b.
Proof.
  unfold compareVersions, validVersion.
  destruct (parseVersion a) as [pa|]; [|discriminate].
  destruct (parseVersion b) as [pb|]; [|discriminate]. eauto.
Qed.

(** From two records on, a sort that returns has parsed every version. *)
Lemma insertSorted_compares x y l r :
  insertSorted byVersion x (y :: l) = Return r -> validRecord x /\ validRecord y.
Proof.
  simpl. unfold byVersion at 1.
  destruct (compareVersions (version x) (version y)) as [c|] eqn:E; [|discriminate].
  intros _. by apply compareVersions_Return_valid in E.
Qed.

Lemma sortWith_compares l s :
  sortWith byVersion l = Return s -> 2 <= length l -> Forall validRecord l.
Proof.
  revert s. induction l as [|x l IH]; intros s; simpl; [lia |].
  destruct (sortWith byVersion l) as [s'|] eqn:Hs; simpl; [|discriminate].
  intros Hins Hlen.
  assert (Hperm := sortWith_perm _ _ _ Hs).
  destruct s' as [|y s'].
  - apply Permutation_nil_l in Hperm. subst l. simpl in Hlen. lia.
  - destruct (insertSorted_compares _ _ _ _ Hins) as [Hx Hy].
    constructor; [exact Hx |].
    destruct l as [|z [|z' l]].
    + constructor.
    + pose proof (Permutation_length Hperm) as Hlen'.
      destruct s'; [|discriminate].
      apply Permutation_singleton_l in Hperm. injection Hperm as ->.
      by constructor.
    + apply (IH (y :: s') eq_refl). simpl. lia.
Qed.

(** A path that is not empty starts from a valid version other than the
    target. *)
Lemma getMigrationPath_nonempty VERSION_HISTORY fromVersion toVersion r path :
  getMigrationPath VERSION_HISTORY fromVersion toVersion = Return (r :: path) ->
  fromVersion <> toVersion /\ validVersion fromVersion.
Proof.
  unfold getMigrationPath.
  destruct (String.eqb_spec fromVersion toVersion) as [E|NE]; [discriminate |].
  destruct (sortWith byVersion VERSION_HISTORY) as [sorted|] eqn:Hsort; simpl;
    [|discriminate].
  destruct (findIndex (fun v => String.eqb (version v) fromVersion) sorted)
    as [i|] eqn:Hi; [|discriminate].
  destruct (findIndex (fun v => String.eqb (version v) toVersion) sorted)
    as [j|] eqn:Hj; [|discriminate].
  intros Hpath. split; [exact NE |].
  apply findIndex_Some in Hi as [(rf & Hrf & <-) _].
  assert (Hin : r ∈ slice (i + 1) (j + 1) sorted).
  { assert (Hr : r ∈ filter (fun v => requiresMigration v = true)
                            (slice (i + 1) (j + 1) sorted))
      by (injection Hpath as ->; apply list_elem_of_here).
    by apply list_elem_of_filter in Hr as [_ Hr]. }
  unfold slice in Hin. apply elem_of_take in Hin as (n & Hn & _).
  rewrite lookup_drop in Hn.
  assert (Hlen : 2 <= length sorted).
  { apply lookup_lt_Some in Hn. lia. }
  assert (Hvalid : Forall validRecord VERSION_HISTORY).
  { apply (sortWith_compares _ _ Hsort).
    apply sortWith_perm, Permutation_length in Hsort. lia. }
  rewrite <- (sortWith_perm _ _ _ Hsort) in Hvalid.
  rewrite Forall_forall in Hvalid. apply Hvalid.
  by eapply list_elem_of_lookup_2.
Qed.

Lemma getMember_defined v k x k' :
  getMember v k = Return x -> exists y, getMember v k' = Return y.
Proof.
  destruct v as [[| | | | |]|]; simpl; try discriminate; intros _;
    try (destruct (String.eqb k' "length")); eauto.
Qed.

Lemma stepBody_success version results affectedKeys result ok :
  getMember result "success" = Return ok -> truthy ok = true ->
  exists ak affectedKeys',
    getMember result "affectedKeys" = Return ak /\
    stepBody version results affectedKeys result =
      Return (Continue (results ++ [ {| Step.version := version; Step.success := ok;
                                        Step.affectedKeys := ak;
                                        Step.details := result |} ])
                       affectedKeys').
Proof.
  intros Hok Ht.
  destruct (getMember_defined _ _ _ "affectedKeys" Hok) as [ak Hak].
  exists ak. eexists. split; [exact Hak |].
  unfold stepBody. rewrite Hak. simpl. rewrite Hok. simpl. rewrite Ht. reflexivity.
Qed.

Lemma stepBody_failure version results affectedKeys result ok :
  getMember result "success" = Return ok -> truthy ok = false ->
  exists ak r,
    getMember result "affectedKeys" = Return ak /\
    stepBody version results affectedKeys result = Return (Stop r) /\
    Exec.success r = false /\
    Exec.results r =
      Some (results ++ [ {| Step.version := version; Step.success := ok;
                            Step.affectedKeys := ak; Step.details := result |} ]).
Proof.
  intros Hok Ht.
  destruct (getMember_defined _ _ _ "affectedKeys" Hok) as [ak Hak].
  destruct (getMember_defined _ _ _ "error" Hok) as [err Herr].
  exists ak. eexists. split; [exact Hak |].
  unfold stepBody. rewrite Hak. simpl. rewrite Hok. simpl. rewrite Ht. simpl.
  rewrite Herr. simpl. split; [reflexivity |]. split; reflexivity.
Qed.

(** C1.  When the resolved path has three records, each with a registered
    procedure, the first procedure resolves to a result whose [success] is
    truthy and the second to one whose [success] is falsy, then
    [executeMigrations] reports [success = false] with exactly two entries in
    [results], for steps 1 and 2 in path order; the engine has invoked the
    procedures of steps 1 and 2 and no other, and the store is as step 2
    left it. *)
Theorem executeMigrations_stops_on_first_failure
    (APP_VERSION : string) (VERSION_HISTORY : list VersionRecord)
    (migrations : gmap string Procedure) (storedVersion : string) (w : World)
    (r1 r2 r3 : VersionRecord) (p1 p2 p3 : Procedure)
    (result1 result2 ok1 ok2 : option value) (st1 st2 : Storage) :
  getMigrationPath VERSION_HISTORY storedVersion APP_VERSION = Return [r1; r2; r3] ->
  migrations !! version r1 = Some p1 ->
  migrations !! version r2 = Some p2 ->
  migrations !! version r3 = Some p3 ->
  p1 storedVersion (version r1) (localStorage w) = (Return result1, st1) ->
  getMember result1 "success" = Return ok1 -> truthy ok1 = true ->
  p2 storedVersion (version r2) st1 = (Return result2, st2) ->
  getMember result2 "success" = Return ok2 -> truthy ok2 = false ->
  exists (r : Exec.t) (s1 s2 : Step.t),
    executeMigrations APP_VERSION VERSION_HISTORY migrations (Some storedVersion) w =
      (r, {| localStorage := st2;
             trace := trace w ++ [Invoked storedVersion (version r1);
                                  Invoked storedVersion (version r2)] |}) /\
    Exec.success r = false /\
    Exec.results r = Some [s1; s2] /\
    Step.version s1 = version r1 /\ Step.success s1 = ok1 /\ Step.details s1 = result1 /\
    Step.version s2 = version r2 /\ Step.success s2 = ok2 /\ Step.details s2 = result2.
Proof.
  intros Hpath Hp1 Hp2 Hp3 Hrun1 Hok1 Ht1 Hrun2 Hok2 Ht2.
  destruct (getMigrationPath_nonempty _ _ _ _ _ Hpath) as [Hne [v Hv]].
  assert (Hnonempty : String.eqb storedVersion "" = false).
  { apply String.eqb_neq. intros ->. discriminate. }
  apply String.eqb_neq in Hne.
  destruct (stepBody_success (version r1) [] [] result1 ok1 Hok1 Ht1)
    as (ak1 & keys1 & _ & Hstep1).
  destruct (stepBody_failure (version r2)
              [ {| Step.version := version r1; Step.success := ok1;
                   Step.affectedKeys := ak1; Step.details := result1 |} ]
              keys1 result2 ok2 Hok2 Ht2)
    as (ak2 & r & _ & Hstep2 & Hsuccess & Hresults).
  cbn [app] in Hstep1, Hresults.
  exists r. do 2 eexists.
  split.
  { unfold executeMigrations. rewrite Hnonempty, Hne, Hpath.
    cbn [orb runPath]. rewrite Hp1, Hrun1. cbn [bindR]. rewrite Hstep1.
    cbn [runPath localStorage trace]. rewrite Hp2, Hrun2. cbn [bindR].
    rewrite Hstep2. by rewrite <- app_assoc. }
  split; [exact Hsuccess |].
  split; [exact Hresults |].
  by repeat split.
Qed.

Lemma executeMigrations_stops_on_first_failure_witness :
  getMigrationPath sample_VERSION_HISTORY "1.0.0" "2.0.0" =
    Return [release "1.1.0" true; release "1.2.0" true; release "2.0.0" true] /\
  sample_migrations !! "1.1.0" = Some addIndustry /\
  sample_migrations !! "1.2.0" = Some failingStep /\
  sample_migrations !! "2.0.0" = Some clearCompanies /\
  exists r w',
    executeMigrations "2.0.0" sample_VERSION_HISTORY sample_migrations (Some "1.0.0")
                      sample_world = (r, w') /\
    Exec.success r = false /\
    length <$> Exec.results r = Some 2 /\
    trace w' = [Invoked "1.0.0" "1.1.0"; Invoked "1.0.0" "1.2.0"].
Proof.
  assert (Hpath : getMigrationPath sample_VERSION_HISTORY "1.0.0" "2.0.0" =
    Return [release "1.1.0" true; release "1.2.0" true; release "2.0.0" true])
    by reflexivity.
  assert (Hp1 : sample_migrations !! "1.1.0" = Some addIndustry) by reflexivity.
  assert (Hp2 : sample_migrations !! "1.2.0" = Some failingStep) by reflexivity.
  assert (Hp3 : sample_migrations !! "2.0.0" = Some clearCompanies) by reflexivity.
  repeat (split; [assumption |]).
  edestruct (executeMigrations_stops_on_first_failure
               "2.0.0" sample_VERSION_HISTORY sample_migrations "1.0.0" sample_world)
    as (r & s1 & s2 & Hexec & Hsuccess & Hresults & _);
    [exact Hpath | exact Hp1 | exact Hp2 | exact Hp3
     | reflexivity | reflexivity | reflexivity | reflexivity | reflexivity | reflexivity |].
  eexists r, _. split; [exact Hexec |].
  split; [exact Hsuccess |]. split; [by rewrite Hresults | reflexivity].
Defined.

(** ** The version tracker *)

Section Tracker.

Variable APP_VERSION : string.
Variable VERSION_HISTORY : list VersionRecord.
Variable migrations : gmap string Procedure.

(** The loop of the executor only invokes procedures: it never saves the
    marker itself, and the marker survives when the procedures leave it
    alone. *)
Lemma runPath_trace storedVersion path results affectedKeys w r w' :
  runPath APP_VERSION migrations storedVersion path results affectedKeys w = (r, w') ->
  (exists invoked, trace w' = trace w ++ invoked /\ Forall isInvoked invoked) /\
  ((forall v p, migrations !! v = Some p -> leavesMarker p) ->
   localStorage w' !! LOCAL_STORAGE_KEYS.APP_VERSION =
   localStorage w !! LOCAL_STORAGE_KEYS.APP_VERSION).
Proof.
  revert results affectedKeys w.
  induction path as [|versionInfo path IH]; intros results affectedKeys w; cbn [runPath].
  - intros [= <- <-]. split; [|done]. exists []. by rewrite app_nil_r.
  - destruct (migrations !! version versionInfo) as [migrationFn|] eqn:Hfn; [|apply IH].
    destruct (migrationFn storedVersion (version versionInfo) (localStorage w))
      as [resolved st'] eqn:Hrun.
    set (w1 := {| localStorage := st';
                  trace := trace w ++ [Invoked storedVersion (version versionInfo)] |}).
    assert (Hone : (exists invoked, trace w1 = trace w ++ invoked /\ Forall isInvoked invoked) /\
                   ((forall v p, migrations !! v = Some p -> leavesMarker p) ->
                    localStorage w1 !! LOCAL_STORAGE_KEYS.APP_VERSION =
                    localStorage w !! LOCAL_STORAGE_KEYS.APP_VERSION)).
    { split.
      - eexists. split; [reflexivity |]. by repeat constructor.
      - intros Hframe. specialize (Hframe _ _ Hfn storedVersion (version versionInfo)
                                          (localStorage w)).
        by rewrite Hrun in Hframe. }
    destruct (bindR resolved _) as [[results' affectedKeys'|r0]|e].
    + intros Hrest. apply IH in Hrest as [(invoked & Htr & Hinv) Hmark].
      destruct Hone as [(invoked1 & Htr1 & Hinv1) Hmark1]. split.
      * exists (invoked1 ++ invoked). split.
        -- by rewrite Htr, Htr1, app_assoc.
        -- by apply Forall_app.
      * intros Hframe. by rewrite Hmark, Hmark1.
    + by intros [= <- <-].
    + by intros [= <- <-].
Qed.

Lemma executeMigrations_trace storedVersion w r w' :
  executeMigrations APP_VERSION VERSION_HISTORY migrations storedVersion w = (r, w') ->
  (exists invoked, trace w' = trace w ++ invoked /\ Forall isInvoked invoked) /\
  ((forall v p, migrations !! v = Some p -> leavesMarker p) ->
   localStorage w' !! LOCAL_STORAGE_KEYS.APP_VERSION =
   localStorage w !! LOCAL_STORAGE_KEYS.APP_VERSION).
Proof.
  assert (Hsame : forall w0 : World,
             (exists invoked, trace w0 = trace w0 ++ invoked /\ Forall isInvoked invoked) /\
             ((forall v p, migrations !! v = Some p -> leavesMarker p) ->
              localStorage w0 !! LOCAL_STORAGE_KEYS.APP_VERSION =
              localStorage w0 !! LOCAL_STORAGE_KEYS.APP_VERSION)).
  { intros w0. split; [|done]. exists []. by rewrite app_nil_r. }
  unfold executeMigrations.
  destruct storedVersion as [stored|]; [|by intros [= <- <-]].
  destruct (String.eqb stored "" || String.eqb stored APP_VERSION);
    [by intros [= <- <-] |].
  destruct (getMigrationPath VERSION_HISTORY stored APP_VERSION) as [[|r0 path]|e].
  - by intros [= <- <-].
  - apply runPath_trace.
  - by intros [= <- <-].
Qed.

(** When the marker is a valid version below the compiled-in one,
    [initializeVersioning] runs the executor and saves the marker exactly
    when the run succeeded. *)
Lemma initializeVersioning_newer w stored :
  getStoredVersion w = Some stored ->
  compareVersions stored APP_VERSION = Return (-1)%Z ->
  exists r w1,
    executeMigrations APP_VERSION VERSION_HISTORY migrations (Some stored) w = (r, w1) /\
    initializeVersioning APP_VERSION VERSION_HISTORY migrations w =
      (Return {| status := {| firstRun := false; updated := true;
                              fromVersion := Some stored; toVersion := APP_VERSION;
                              isNewer := Some true; isOlder := Some false |};
                 migrationNeeded := true; migrationResult := r |},
       if Exec.success r then snd (saveCurrentVersion APP_VERSION w1) else w1).
Proof.
  intros Hstored Hcmp.
  assert (Hnonempty : String.eqb stored "" = false).
  { apply String.eqb_neq. intros ->.
    apply compareVersions_Return_valid in Hcmp as [[v Hv] _]. discriminate. }
  destruct (executeMigrations APP_VERSION VERSION_HISTORY migrations (Some stored) w)
    as [r w1] eqn:Hexec.
  exists r, w1. split; [reflexivity |].
  unfold initializeVersioning, checkVersionStatus, checkMigrationNeeded.
  rewrite Hstored. cbn -[executeMigrations saveCurrentVersion compareVersions].
  rewrite Hnonempty, Hcmp.
  cbn -[executeMigrations saveCurrentVersion compareVersions].
  rewrite Hnonempty, Hcmp.
  cbn -[executeMigrations saveCurrentVersion compareVersions]. by rewrite Hexec.
Qed.

End Tracker.


Lemma addField_leaves_other_keys fieldName defaultValue st r st' key :
  companyMigrations.addField fieldName defaultValue st = (r, st') ->
  key <> LOCAL_STORAGE_KEYS.COMPANIES -> st' !! key = st !! key.
Proof.
  unfold companyMigrations.addField. intros Hrun Hkey.
  destruct (falsyItem _); [by injection Hrun as _ <- |].
  destruct (bindR _ _); injection Hrun as _ <-; [|done].
  by rewrite lookup_insert_ne.
Qed.

Lemma sample_migrations_leave_marker v p :
  sample_migrations !! v = Some p -> leavesMarker p.
Proof.
  unfold sample_migrations. intros Hp.
  apply lookup_insert_Some in Hp as [[_ <-]|[_ Hp]];
    [|apply lookup_insert_Some in Hp as [[_ <-]|[_ Hp]];
      [|apply lookup_singleton_Some in Hp as [_ <-]]];
    intros f t st.
  - unfold addIndustry, createMigration; cbn [migrate]. unfold resolving.
    destruct (companyMigrations.addField _ _ st) as [r st'] eqn:E.
    apply (addField_leaves_other_keys _ _ _ _ _ LOCAL_STORAGE_KEYS.APP_VERSION) in E;
      [|discriminate].
    by destruct r.
  - reflexivity.
  - unfold clearCompanies, createMigration; cbn [migrate snd].
    by apply lookup_delete_ne.
Qed.


(** C3, the claim as stated fails: with a marker newer than the compiled-in
    version, no migration is attempted and it is not a first run, yet the
    marker is written (overwritten with the older compiled-in version). *)
Lemma initializeVersioning_downgrade_counterexample :
  exists init w',
    initializeVersioning shipped_APP_VERSION shipped_VERSION_HISTORY ∅ downgraded_world =
      (Return init, w') /\
    firstRun (status init) = false /\
    isOlder (status init) = Some true /\
    migrationNeeded init = false /\
    trace w' = [SavedVersion "1.0.0-alpha"] /\
    getStoredVersion downgraded_world = Some "1.0.0" /\
    getStoredVersion w' = Some "1.0.0-alpha".
Proof. do 2 eexists. repeat split; reflexivity. Qed.

(** C3, amended.  Whatever the store, [initializeVersioning] saves the
    marker at most once, as its last action, and exactly in three cases:
    on a first run (marker absent or empty; no procedure is invoked), after
    a migration run that reports overall success, and when the compiled-in
    version is older than the stored one (no procedure is invoked).  In
    every other case (same version, failed migration run, or a marker that
    does not parse, where the call throws and changes nothing) the marker is
    not written. *)
Theorem initializeVersioning_marker_writes
    (APP_VERSION : string) (VERSION_HISTORY : list VersionRecord)
    (migrations : gmap string Procedure) (w : World) :
  match initializeVersioning APP_VERSION VERSION_HISTORY migrations w with
  | (Throw _, w') => w' = w
  | (Return init, w') =>
      checkVersionStatus APP_VERSION w = Return (status init) /\
      exists invoked,
        Forall isInvoked invoked /\
        trace w' = trace w ++ invoked ++
                   (if savesMarker init then [SavedVersion APP_VERSION] else []) /\
        (savesMarker init = true -> getStoredVersion w' = Some APP_VERSION) /\
        (migrationNeeded init = false -> invoked = []) /\
        (firstRun (status init) = true <-> falsyItem (getStoredVersion w) = true) /\
        (default false (isOlder (status init)) = true <->
         exists stored c, getStoredVersion w = Some stored /\ stored <> "" /\
                          compareVersions stored APP_VERSION = Return c /\ (0 < c)%Z) /\
        (migrationNeeded init = true <->
         exists stored c, getStoredVersion w = Some stored /\ stored <> "" /\
                          compareVersions stored APP_VERSION = Return c /\ (c < 0)%Z)
  end.
Proof.
  assert (Hsaved : forall w0 : World,
             getStoredVersion (snd (saveCurrentVersion APP_VERSION w0)) = Some APP_VERSION).
  { intros w0. unfold getStoredVersion, saveCurrentVersion. cbn.
    apply lookup_insert_eq. }
  unfold initializeVersioning, checkVersionStatus, checkMigrationNeeded.
  destruct (getStoredVersion w) as [stored|] eqn:Hs; cbn [falsyItem].
  2:{ cbn -[saveCurrentVersion getStoredVersion].
      split; [reflexivity |]. exists [].
      split; [done |]. split; [done |]. split; [intros _; apply Hsaved |].
      split; [done |]. split; [done |].
      split; (split; [done | intros (? & ? & ? & _); discriminate]). }
  destruct (String.eqb_spec stored "") as [->|Hne].
  { cbn -[saveCurrentVersion getStoredVersion].
    split; [reflexivity |]. exists [].
    split; [done |]. split; [done |]. split; [intros _; apply Hsaved |].
    split; [done |]. split; [done |].
    split; (split; [done | intros (? & ? & [= <-] & ? & _); done]). }
  cbn [default from_option id].
  destruct (compareVersions stored APP_VERSION) as [c|e] eqn:Hc; cbn [bindR]; [|done].
  destruct (Z.ltb_spec c 0) as [Hlt|Hge].
  - assert (Hnz : (c =? 0)%Z = false) by (apply Z.eqb_neq; lia).
    assert (Hpos : (0 <? c)%Z = false) by (apply Z.ltb_ge; lia).
    rewrite Hnz, Hpos. cbn [negb andb default from_option id updated isNewer fromVersion].
    cbn [falsyItem]. rewrite (proj2 (String.eqb_neq _ _) Hne).
    rewrite Hc. cbn [bindR]. rewrite Hnz. cbn [negb].
    destruct (executeMigrations APP_VERSION VERSION_HISTORY migrations (Some stored) w)
      as [r w1] eqn:Hexec.
    destruct (executeMigrations_trace _ _ _ _ _ _ _ Hexec) as [(invoked & Htr & Hinv) _].
    split; [reflexivity |]. exists invoked. unfold savesMarker.
    cbn -[saveCurrentVersion getStoredVersion].
    split; [exact Hinv |]. split.
    { destruct (Exec.success r); cbn; rewrite Htr;
        [by rewrite <- app_assoc | by rewrite app_nil_r]. }
    split.
    { destruct (Exec.success r); [intros _; apply Hsaved | done]. }
    split; [done |]. split; [done |]. split.
    + split; [done |]. intros (s & c' & [= <-] & _ & Hc' & Hpos').
      rewrite Hc in Hc'. injection Hc' as <-. lia.
    + split; [|done]. intros _. by exists stored, c.
  - cbn [updated isNewer default from_option id andb].
    rewrite andb_false_r.
    cbn [firstRun updated orb].
    destruct (Z.eqb_spec c 0) as [->|Hnz]; cbn [negb].
    + split; [reflexivity |]. exists []. unfold savesMarker.
      cbn -[saveCurrentVersion getStoredVersion].
      split; [done |]. split; [by rewrite app_nil_r |]. split; [done |].
      split; [done |]. split; [done |].
      split; (split; [done |]); intros (s & c' & [= <-] & _ & Hc' & Hpos');
        rewrite Hc in Hc'; injection Hc' as <-; lia.
    + assert (Hpos : (0 <? c)%Z = true) by (apply Z.ltb_lt; lia).
      split; [reflexivity |]. exists []. unfold savesMarker.
      cbn -[saveCurrentVersion getStoredVersion]. rewrite Hpos.
      cbn -[saveCurrentVersion getStoredVersion].
      split; [done |]. split; [done |].
      split; [intros _; apply Hsaved |]. split; [done |]. split; [done |]. split.
      * split; [|done]. intros _. exists stored, c. repeat split; [done | done | lia].
      * split; [done |]. intros (s & c' & [= <-] & _ & Hc' & Hneg).
        rewrite Hc in Hc'. injection Hc' as <-. lia.
Qed.

(** C6, the claim as stated fails: a marker that is not a version makes
    [initializeVersioning] throw the error of [parseVersion]. *)
Lemma initializeVersioning_unparsable_marker_counterexample :
  getStoredVersion garbled_world = Some "not-a-version" /\
  initializeVersioning shipped_APP_VERSION shipped_VERSION_HISTORY ∅ garbled_world =
    (Throw (newError "Error" "Invalid version format: not-a-version"), garbled_world).
Proof. split; reflexivity. Qed.

(** C6, amended.  [initializeVersioning] throws exactly when the marker is
    present and not empty and the marker or the compiled-in version does
    not parse; it then throws the error of [compareVersions] and leaves the
    store as it was.  In every other state it returns a status, and a
    failure of the migration run is reported in [migrationResult]. *)
Theorem initializeVersioning_throws
    (APP_VERSION : string) (VERSION_HISTORY : list VersionRecord)
    (migrations : gmap string Procedure) (w : World) :
  (falsyItem (getStoredVersion w) = true \/
   (exists stored, getStoredVersion w = Some stored /\
                   validVersion stored /\ validVersion APP_VERSION) ->
   exists init w',
     initializeVersioning APP_VERSION VERSION_HISTORY migrations w = (Return init, w')) /\
  (forall stored,
      getStoredVersion w = Some stored -> stored <> "" ->
      ~ (validVersion stored /\ validVersion APP_VERSION) ->
      exists e,
        compareVersions stored APP_VERSION = Throw e /\
        initializeVersioning APP_VERSION VERSION_HISTORY migrations w = (Throw e, w)).
Proof.
  split.
  - intros Hcase.
    destruct (initializeVersioning APP_VERSION VERSION_HISTORY migrations w)
      as [[init|e] w'] eqn:Hinit; [by eauto |].
    exfalso. revert Hinit.
    unfold initializeVersioning, checkVersionStatus, checkMigrationNeeded.
    destruct Hcase as [Hfalsy|(stored & Hstored & Hvs & Hva)].
    + rewrite Hfalsy. cbn. discriminate.
    + rewrite Hstored. cbn [falsyItem default from_option id].
      destruct (String.eqb stored ""); [cbn; discriminate |].
      destruct (compareVersions_decides _ _ Hvs Hva) as (c & Hc & _).
      rewrite Hc. cbn [bindR updated isNewer default from_option id].
      destruct (negb (c =? 0)%Z && (c <? 0)%Z);
        cbn [fromVersion falsyItem default from_option id].
      * destruct (String.eqb stored ""); cbn [bindR].
        -- cbn. discriminate.
        -- rewrite Hc. cbn [bindR]. destruct (negb (c =? 0)%Z).
           ++ destruct (executeMigrations _ _ _ _ _). discriminate.
           ++ discriminate.
      * discriminate.
  - intros stored Hstored Hne Hinvalid.
    assert (Hthrow : exists e, compareVersions stored APP_VERSION = Throw e).
    { destruct (compareVersions stored APP_VERSION) as [c|e] eqn:Hc; [|by eauto].
      apply compareVersions_Return_valid in Hc. contradiction. }
    destruct Hthrow as [e He]. exists e. split; [exact He |].
    unfold initializeVersioning, checkVersionStatus.
    rewrite Hstored. cbn [falsyItem default from_option id].
    rewrite (proj2 (String.eqb_neq _ _) Hne), He. reflexivity.
Qed.

Lemma initializeVersioning_throws_witness :
  (exists stored, getStoredVersion sample_world = Some stored /\
                  validVersion stored /\ validVersion "1.1.0") /\
  exists init w',
    initializeVersioning "1.1.0" sample_VERSION_HISTORY sample_migrations sample_world =
      (Return init, w').
Proof.
  assert (H : exists stored, getStoredVersion sample_world = Some stored /\
                             validVersion stored /\ validVersion "1.1.0").
  { exists "1.0.0". split; [reflexivity |]. split; eexists; reflexivity. }
  split; [exact H |].
  apply (initializeVersioning_throws "1.1.0" sample_VERSION_HISTORY sample_migrations
                                       sample_world).
  right. exact H.
Defined.

(** ** [createMigration] *)

Lemma getProp_replaceProp k k' v props :
  getProp k (replaceProp k' v props) =
  if String.eqb k' k then (_ ← getProp k' props; Some v) else getProp k props.
Proof.
  induction props as [|[k0 v0] props IH]; cbn [replaceProp getProp].
  - by destruct (String.eqb k' k).
  - destruct (String.eqb_spec k0 k') as [->|Hne]; cbn [getProp].
    + by destruct (String.eqb k' k).
    + rewrite IH. destruct (String.eqb_spec k' k) as [->|Hne']; [|reflexivity].
      by rewrite (proj2 (String.eqb_neq _ _) Hne).
Qed.

Lemma getProp_insertIndex k i k' v props :
  getProp k' props = None ->
  getProp k (insertIndex i (k', v) props) = if String.eqb k' k then Some v else getProp k props.
Proof.
  induction props as [|[k0 v0] props IH]; intros Hfresh; cbn [insertIndex getProp fst].
  - reflexivity.
  - cbn [getProp] in Hfresh. destruct (String.eqb_spec k0 k') as [->|Hne]; [discriminate |].
    destruct (arrayIndex k0) as [j|]; [destruct (j <? i)%N |]; cbn [getProp]; try reflexivity.
    rewrite (IH Hfresh). destruct (String.eqb_spec k' k) as [->|Hne']; [|reflexivity].
    by rewrite (proj2 (String.eqb_neq _ _) Hne).
Qed.

Lemma getProp_app k props props' :
  getProp k (props ++ props') =
  match getProp k props with Some v => Some v | None => getProp k props' end.
Proof.
  induction props as [|[k0 v0] props IH]; [reflexivity |]. cbn [app getProp].
  by destruct (String.eqb k0 k).
Qed.

Lemma getProp_setProp k k' v props :
  getProp k (setProp k' v props) = if String.eqb k' k then Some v else getProp k props.
Proof.
  unfold setProp. destruct (getProp k' props) as [v'|] eqn:Hown.
  - rewrite getProp_replaceProp, Hown. reflexivity.
  - destruct (arrayIndex k') as [i|]; [by apply getProp_insertIndex |].
    rewrite getProp_app. cbn [getProp].
    destruct (String.eqb_spec k' k) as [->|Hne]; [by rewrite Hown |].
    by destruct (getProp k props).
Qed.

(** Reading a name from [{ ...base, ...props }]. *)
Lemma getProp_spread k base props :
  getProp k (foldl (fun acc p => setProp (fst p) (snd p) acc) base props) =
  match spreadProp k props with
  | Some v => Some v
  | None => getProp k base
  end.
Proof.
  unfold spreadProp. induction props as [|[k' v'] props IH] using rev_ind.
  - reflexivity.
  - rewrite foldl_app, reverse_snoc. cbn [foldl fst snd getProp].
    rewrite getProp_setProp. by destruct (String.eqb k' k).
Qed.


(** ** [transformReviews] *)

Lemma countWhere_cons p k keys :
  countWhere p (k :: keys) = (if p k then 1 else 0) + countWhere p keys.
Proof.
  unfold countWhere. rewrite filter_cons.
  destruct (decide (p k = true)) as [->|H]; [reflexivity |].
  by destruct (p k).
Qed.

Lemma countWhere_ext p q keys :
  (forall k, k ∈ keys -> p k = q k) -> countWhere p keys = countWhere q keys.
Proof.
  induction keys as [|k keys IH]; intros H; [reflexivity |].
  rewrite !countWhere_cons, (H k), IH; [reflexivity | |].
  - intros k' Hk'. apply H. by right.
  - by left.
Qed.

(** One turn of the loop: the outcome is read off the entry, and no other
    entry changes. *)
Lemma transformEntry_outcome transformer now key st :
  fst (reviewMigrations.transformEntry transformer now key st) =
    if countedAsFailed transformer (st !! key) then reviewMigrations.EntryFailed
    else if countedAsUpdated transformer (st !! key) then reviewMigrations.EntryUpdated
    else reviewMigrations.EntrySkipped.
Proof.
  unfold reviewMigrations.transformEntry, countedAsFailed, countedAsUpdated,
    unparsable, transformed, reviewsOf.
  destruct (falsyItem (st !! key)); [reflexivity |]. cbn [negb andb].
  destruct (JSON_parse (default "" (st !! key))) as [cache|e]; [|reflexivity].
  cbn [orb].
  destruct (truthy (Some cache)) eqn:Htruthy; [|reflexivity].
  destruct (getMember (Some cache) "reviews") as [[[| | | |reviews|]|]|] eqn:Hget;
    try reflexivity.
  - destruct (arrayMap transformer reviews); repeat case_bool_decide; done.
  - by destruct cache.
Qed.

Lemma transformEntry_frame transformer now key st k :
  k <> key ->
  snd (reviewMigrations.transformEntry transformer now key st) !! k = st !! k.
Proof.
  intros Hne. unfold reviewMigrations.transformEntry.
  repeat case_match; cbn [snd]; try reflexivity.
  by apply lookup_insert_ne.
Qed.

Lemma transformEntry_skipped transformer now key st :
  countedAsUpdated transformer (st !! key) = false ->
  snd (reviewMigrations.transformEntry transformer now key st) = st.
Proof.
  pose proof (transformEntry_outcome transformer now key st) as Hout.
  intros Hnot. rewrite Hnot in Hout. revert Hout.
  unfold reviewMigrations.transformEntry.
  repeat case_match; cbn [fst snd]; try reflexivity; discriminate.
Qed.

Lemma transformLoop_counts transformer clock keys :
  NoDup keys ->
  forall i updatedCount failedCount st,
  exists st',
    reviewMigrations.transformLoop transformer clock i keys updatedCount failedCount st =
      (updatedCount + countWhere (fun k => countedAsUpdated transformer (st !! k)) keys,
       failedCount + countWhere (fun k => countedAsFailed transformer (st !! k)) keys,
       st') /\
    (forall k, k ∉ keys \/ countedAsUpdated transformer (st !! k) = false ->
               st' !! k = st !! k).
Proof.
  induction 1 as [|key keys Hnotin Hnodup IH]; intros i updatedCount failedCount st.
  - exists st. unfold countWhere. cbn. split; [by rewrite !Nat.add_0_r | done].
  - cbn [reviewMigrations.transformLoop].
    pose proof (transformEntry_outcome transformer (clock i) key st) as Hout.
    pose proof (transformEntry_frame transformer (clock i) key st) as Hframe.
    pose proof (transformEntry_skipped transformer (clock i) key st) as Hskip.
    destruct (reviewMigrations.transformEntry transformer (clock i) key st)
      as [outcome st1].
    cbn [fst snd] in Hout, Hframe, Hskip.
    assert (Hsame : forall (p : option string -> bool),
               countWhere (fun k => p (st1 !! k)) keys =
               countWhere (fun k => p (st !! k)) keys).
    { intros p. apply countWhere_ext. intros k Hk. rewrite Hframe; [done |].
      intros ->. contradiction. }
    assert (Hrest : forall u f, exists st',
               reviewMigrations.transformLoop transformer clock (S i) keys u f st1 =
                 (u + countWhere (fun k => countedAsUpdated transformer (st !! k)) keys,
                  f + countWhere (fun k => countedAsFailed transformer (st !! k)) keys,
                  st') /\
               (forall k, k ∉ key :: keys \/ countedAsUpdated transformer (st !! k) = false ->
                          st' !! k = st !! k)).
    { intros u f. destruct (IH (S i) u f st1) as (st' & Hloop & Hkeep).
      exists st'. rewrite Hloop, !Hsame. split; [reflexivity |].
      intros k Hk.
      destruct (decide (k = key)) as [->|Hne].
      - destruct Hk as [Hk|Hk]; [exfalso; apply Hk; by left |].
        rewrite Hkeep; [by rewrite (Hskip Hk) | by left].
      - rewrite Hkeep; [by apply Hframe |].
        destruct Hk as [Hk|Hk].
        + left. intros Hin. apply Hk. by right.
        + right. by rewrite Hframe. }
    rewrite !countWhere_cons.
    destruct (countedAsFailed transformer (st !! key)) eqn:Hf.
    + subst outcome.
      assert (Hu : countedAsUpdated transformer (st !! key) = false).
      { revert Hf. unfold countedAsFailed, countedAsUpdated, unparsable, transformed.
        destruct (falsyItem (st !! key)); [done |]. cbn [negb andb].
        destruct (JSON_parse _); [|done]. cbn [orb].
        intros Hd. apply bool_decide_eq_true in Hd. rewrite Hd. done. }
      rewrite Hu. destruct (Hrest updatedCount (S failedCount)) as (st' & -> & Hkeep).
      exists st'. split; [f_equal; f_equal; lia | exact Hkeep].
    + destruct (countedAsUpdated transformer (st !! key)) eqn:Hu; subst outcome.
      * destruct (Hrest (S updatedCount) failedCount) as (st' & -> & Hkeep).
        exists st'. split; [f_equal; f_equal; lia | exact Hkeep].
      * destruct (Hrest updatedCount failedCount) as (st' & -> & Hkeep).
        exists st'. split; [f_equal; f_equal; lia | exact Hkeep].
Qed.

Lemma findAllKeys_NoDup st : NoDup (reviewCacheHelpers.findAllKeys st).
Proof.
  unfold reviewCacheHelpers.findAllKeys, storageKeysOf.
  apply NoDup_filter, NoDup_fst_map_to_list.
Qed.



(** ** [JSON.parse] reads back what [JSON.stringify] wrote *)

Lemma value_ind (P : value -> Prop) :
  P VNull -> (forall b, P (VBool b)) -> (forall n, P (VNum n)) -> (forall s, P (VStr s)) ->
  (forall items, Forall P items -> P (VArr items)) ->
  (forall props, Forall (fun p => P p.2) props -> P (VObj props)) ->
  forall v, P v.
Proof.
  intros HNull HBool HNum HStr HArr HObj.
  fix IH 1. intros [| b | n | s | items | props].
  - exact HNull.
  - apply HBool.
  - apply HNum.
  - apply HStr.
  - apply HArr.
    exact ((fix go (l : list value) : Forall P l :=
              match l with
              | [] => Forall_nil_2 P
              | x :: l' => Forall_cons_2 P x l' (IH x) (go l')
              end) items).
  - apply HObj.
    exact ((fix go (l : list (string * value)) : Forall (fun p => P p.2) l :=
              match l with
              | [] => Forall_nil_2 _
              | p :: l' => Forall_cons_2 (fun p => P p.2) p l' (IH p.2) (go l')
              end) props).
Qed.

Lemma append_nil_l (t : string) : "" +:+ t = t.
Proof. reflexivity. Qed.

Lemma append_String c (s t : string) : String c s +:+ t = String c (s +:+ t).
Proof. reflexivity. Qed.

Lemma append_assoc (a b c : string) : (a +:+ b) +:+ c = a +:+ (b +:+ c).
Proof. induction a as [|x a IH]; [reflexivity |]. by rewrite !append_String, IH. Qed.

Lemma length_append (a b : string) :
  String.length (a +:+ b) = String.length a + String.length b.
Proof. induction a as [|x a IH]; [reflexivity |]. rewrite append_String. cbn. by rewrite IH. Qed.

(** *** Numerals *)

Lemma decimalValue_acc u acc :
  decimalValue (Npos acc) (NilEmpty.string_of_uint u) = Npos (Pos.of_uint_acc u acc).
Proof.
  revert acc. induction u as [|u IH|u IH|u IH|u IH|u IH|u IH|u IH|u IH|u IH|u IH];
    intros acc; cbn [NilEmpty.string_of_uint decimalValue Pos.of_uint_acc];
    [reflexivity | rewrite <- IH; f_equal; unfold digitValue; cbn; lia ..].
Qed.

Lemma decimalValue_uint u :
  decimalValue 0 (NilEmpty.string_of_uint u) = Pos.of_uint u.
Proof.
  induction u as [|u IH|u IH|u IH|u IH|u IH|u IH|u IH|u IH|u IH|u IH];
    cbn [NilEmpty.string_of_uint decimalValue Pos.of_uint];
    [reflexivity | exact IH | apply (decimalValue_acc u) ..].
Qed.

Lemma decimalValue_printN n : decimalValue 0 (printN n) = n.
Proof.
  unfold printN. rewrite decimalValue_uint. apply DecimalN.Unsigned.of_to.
Qed.

Lemma allDigits_uint u : allDigits (NilEmpty.string_of_uint u) = true.
Proof. induction u; cbn; auto. Qed.

Lemma printN_head n : exists c s, printN n = String c s /\ isDigit c = true.
Proof.
  unfold printN.
  assert (Hnonnil : N.to_uint n <> Decimal.Nil).
  { destruct n as [|p]; [discriminate | apply DecimalPos.Unsigned.to_uint_nonnil]. }
  pose proof (allDigits_uint (N.to_uint n)) as Hdigits.
  destruct (N.to_uint n); try contradiction; cbn in *; eauto.
Qed.

Lemma canonicalNumeral_printN n : canonicalNumeral (printN n) = true.
Proof.
  destruct (printN_head n) as (c & s & Hp & _).
  unfold canonicalNumeral. rewrite decimalValue_printN, String.eqb_refl, Hp, <- Hp.
  unfold printN. by rewrite allDigits_uint.
Qed.

Lemma spanDigits_append ds rest :
  allDigits ds = true -> headNotDigit rest -> spanDigits (ds +:+ rest) = (ds, rest).
Proof.
  intros Hds Hrest. induction ds as [|c ds IH].
  - rewrite append_nil_l. destruct rest as [|c r]; [reflexivity |].
    cbn in *. by rewrite Hrest.
  - cbn in Hds. apply andb_true_iff in Hds as [Hc Hds].
    rewrite append_String. cbn [spanDigits]. by rewrite Hc, (IH Hds).
Qed.

Lemma isDigit_not_minus c : isDigit c = true -> Ascii.eqb c "-" = false.
Proof.
  intros H. apply Ascii.eqb_neq. intros ->. discriminate.
Qed.

Lemma parseNumber_printZ z rest :
  headNotDigit rest -> parseNumber (printZ z +:+ rest) = Some (z, rest).
Proof.
  intros Hrest. unfold printZ.
  destruct (Z.ltb_spec z 0) as [Hneg|Hpos].
  - rewrite append_String. unfold parseNumber. cbn [Ascii.eqb Bool.eqb].
    unfold printN at 1.
    rewrite spanDigits_append by (auto using allDigits_uint).
    fold (printN (Z.abs_N z)).
    rewrite canonicalNumeral_printN, decimalValue_printN. do 2 f_equal. lia.
  - destruct (printN_head (Z.to_N z)) as (c & s & Hp & Hc).
    assert (Hspan : spanDigits (printN (Z.to_N z) +:+ rest) = (printN (Z.to_N z), rest)).
    { apply spanDigits_append; [apply allDigits_uint | exact Hrest]. }
    unfold parseNumber. rewrite Hp in Hspan |- *. rewrite append_String in Hspan |- *.
    rewrite (isDigit_not_minus _ Hc), Hspan, <- Hp.
    rewrite canonicalNumeral_printN, decimalValue_printN. do 2 f_equal. lia.
Qed.

(** *** String literals *)

Lemma parseString_escapeChar c tail :
  parseString (escapeChar c +:+ tail) =
  match parseString tail with
  | Some (str, rest) => Some (String c str, rest)
  | None => None
  end.
Proof.
  destruct c as [[|] [|] [|] [|] [|] [|] [|] [|]]; reflexivity.
Qed.

Lemma parseString_escape s rest :
  parseString (escape s +:+ String DQUOTE rest) = Some (s, rest).
Proof.
  induction s as [|c s IH].
  - reflexivity.
  - cbn [escape]. by rewrite append_assoc, parseString_escapeChar, IH.
Qed.

(** *** Values *)

Ltac norm_append :=
  repeat first [rewrite append_assoc | rewrite append_String | rewrite append_nil_l].

Lemma parseValue_string n t :
  parseValue (S n) (String DQUOTE t) =
  match parseString t with
  | Some (str, r) => Some (VStr str, r)
  | None => None
  end.
Proof. reflexivity. Qed.

Lemma parseValue_array n t :
  parseValue (S n) (String "[" t) =
  match stripPrefix "]" t with
  | Some r => Some (VArr [], r)
  | None =>
      match parseElements n t with
      | Some (l, r) => Some (VArr l, r)
      | None => None
      end
  end.
Proof. reflexivity. Qed.

Lemma parseValue_object n t :
  parseValue (S n) (String "{" t) =
  match stripPrefix "}" t with
  | Some r => Some (VObj [], r)
  | None =>
      match parseMembers n t with
      | Some (l, r) => Some (VObj l, r)
      | None => None
      end
  end.
Proof. reflexivity. Qed.

Lemma parseElements_step n s :
  parseElements (S n) s =
  match parseValue n s with
  | Some (v, String c r') =>
      if Ascii.eqb c "]" then Some ([v], r')
      else if Ascii.eqb c "," then
        match parseElements n r' with
        | Some (l, r'') => Some (v :: l, r'')
        | None => None
        end
      else None
  | _ => None
  end.
Proof. cbn [parseElements]. by destruct (parseValue n s) as [[v [|c r']]|]. Qed.

Lemma parseMembers_step n k t :
  parseMembers (S n) (quote k +:+ String ":" t) =
  match parseValue n t with
  | Some (v, String c r') =>
      if Ascii.eqb c "}" then Some ([(k, v)], r')
      else if Ascii.eqb c "," then
        match parseMembers n r' with
        | Some (l, r'') => Some ((k, v) :: l, r'')
        | None => None
        end
      else None
  | _ => None
  end.
Proof.
  unfold quote. rewrite append_String, append_assoc, append_String, append_nil_l.
  cbn [parseMembers]. change (Ascii.eqb DQUOTE DQUOTE) with true. cbn match.
  rewrite parseString_escape. cbn [mbind option_bind]. 
  change (Ascii.eqb ":" ":") with true. cbn match.
  by destruct (parseValue n t) as [[v [|c r']]|].
Qed.

Lemma isDigit_not_close c : isDigit c = true -> Ascii.eqb "]" c = false.
Proof. intros H. apply Ascii.eqb_neq. intros <-. discriminate. Qed.

Lemma stringify_head_not_close v t : stripPrefix "]" (JSON_stringify v +:+ t) = None.
Proof.
  destruct v as [| [|] | z | s | items | props]; try reflexivity.
  cbn [JSON_stringify]. unfold printZ.
  destruct (z <? 0)%Z; [reflexivity |].
  destruct (printN_head (Z.to_N z)) as (c & s & -> & Hc).
  rewrite append_String. cbn [stripPrefix]. by rewrite (isDigit_not_close _ Hc).
Qed.

Lemma headNotDigit_close rest : headNotDigit (String "]" rest).
Proof. reflexivity. Qed.

Lemma headNotDigit_comma rest : headNotDigit (String "," rest).
Proof. reflexivity. Qed.

Lemma headNotDigit_brace rest : headNotDigit (String "}" rest).
Proof. reflexivity. Qed.

Lemma parseElements_printSeq x items :
  Forall readsBack (x :: items) ->
  forall n rest,
    list_sum (map (fun v => S (weight v)) (x :: items)) <= n ->
    parseElements n (printSeq JSON_stringify "]" (x :: items) +:+ rest) =
      Some (x :: items, rest).
Proof.
  revert x. induction items as [|y items IH]; intros x Hall n rest Hn.
  - apply Forall_cons in Hall as [Hx _]. cbn in Hn.
    destruct n as [|n]; [lia |]. rewrite parseElements_step.
    cbn [printSeq]. rewrite append_assoc, append_String, append_nil_l.
    rewrite Hx; [reflexivity | lia | apply headNotDigit_close].
  - apply Forall_cons in Hall as [Hx Hall]. simpl in Hn.
    destruct n as [|n]; [lia |]. rewrite parseElements_step.
    change (printSeq JSON_stringify "]" (x :: y :: items))
      with (JSON_stringify x +:+ String "," (printSeq JSON_stringify "]" (y :: items))).
    rewrite append_assoc, append_String.
    rewrite Hx; [| lia | apply headNotDigit_comma].
    change (Ascii.eqb "," "]") with false. change (Ascii.eqb "," ",") with true.
    cbn match. rewrite (IH y Hall); [reflexivity |]. simpl. lia.
Qed.

Lemma parseMembers_printSeq p props :
  Forall (fun p => readsBack p.2) (p :: props) ->
  forall n rest,
    list_sum (map (fun p => S (weight (snd p))) (p :: props)) <= n ->
    parseMembers n (printSeq (fun p => quote (fst p) +:+ String ":" (JSON_stringify (snd p)))
                             "}" (p :: props) +:+ rest) =
      Some (p :: props, rest).
Proof.
  revert p. induction props as [|q props IH]; intros [k v] Hall n rest Hn.
  - apply Forall_cons in Hall as [Hv _]. cbn in Hn, Hv.
    destruct n as [|n]; [lia |].
    cbn [printSeq fst snd]. norm_append.
    rewrite parseMembers_step.
    rewrite Hv; [reflexivity | lia | apply headNotDigit_brace].
  - apply Forall_cons in Hall as [Hv Hall]. simpl in Hn. cbn in Hv.
    destruct n as [|n]; [lia |].
    change (printSeq (fun p => quote (fst p) +:+ String ":" (JSON_stringify (snd p)))
                     "}" ((k, v) :: q :: props))
      with ((quote k +:+ String ":" (JSON_stringify v)) +:+
            String "," (printSeq (fun p => quote (fst p) +:+ String ":"
                                                 (JSON_stringify (snd p)))
                                 "}" (q :: props))).
    norm_append.
    rewrite parseMembers_step.
    rewrite Hv; [| lia | apply headNotDigit_comma].
    change (Ascii.eqb "," "}") with false. change (Ascii.eqb "," ",") with true.
    cbn match. rewrite (IH q Hall); [reflexivity |]. simpl. lia.
Qed.

Lemma parseValue_stringify v : readsBack v.
Proof.
  induction v as [| b | z | s | items IH | props IH] using value_ind;
    intros n rest Hn Hrest; (destruct n as [|n]; [cbn in Hn; lia |]).
  - reflexivity.
  - by destruct b.
  - cbn [parseValue JSON_stringify]. by rewrite parseNumber_printZ.
  - cbn [JSON_stringify]. unfold quote.
    rewrite append_String, append_assoc, append_String, append_nil_l.
    by rewrite parseValue_string, parseString_escape.
  - cbn [JSON_stringify]. rewrite append_String, parseValue_array.
    destruct items as [|x items]; [reflexivity |].
    assert (Hhead : stripPrefix "]" (printSeq JSON_stringify "]" (x :: items) +:+ rest) = None).
    { destruct items as [|y items].
      - cbn [printSeq]. rewrite append_assoc. apply stringify_head_not_close.
      - change (printSeq JSON_stringify "]" (x :: y :: items))
          with (JSON_stringify x +:+ String "," (printSeq JSON_stringify "]" (y :: items))).
        rewrite append_assoc. apply stringify_head_not_close. }
    rewrite Hhead, (parseElements_printSeq x items IH); [reflexivity |].
    simpl in Hn |- *. lia.
  - cbn [JSON_stringify]. rewrite append_String, parseValue_object.
    destruct props as [|p props]; [reflexivity |].
    assert (Hhead : stripPrefix "}"
              (printSeq (fun p => quote (fst p) +:+ String ":" (JSON_stringify (snd p)))
                        "}" (p :: props) +:+ rest) = None).
    { destruct props as [|q props]; reflexivity. }
    rewrite Hhead, (parseMembers_printSeq p props IH); [reflexivity |].
    simpl in Hn |- *. lia.
Qed.

Lemma append_nil_r (s : string) : s +:+ "" = s.
Proof. induction s as [|c s IH]; [reflexivity |]. by rewrite append_String, IH. Qed.

Lemma printSeq_weight {A} (f : A -> string) (w : A -> nat) (l : list A) :
  Forall (fun x => w x <= String.length (f x)) l ->
  forall close : ascii,
    list_sum (map (fun x => S (w x)) l) <= String.length (printSeq f (String close "") l).
Proof.
  intros Hall close. induction Hall as [|x l Hx Hall IH]; [cbn; lia |].
  destruct l as [|y l].
  - cbn [printSeq]. rewrite length_append. simpl. lia.
  - change (printSeq f (String close "") (x :: y :: l))
      with (f x +:+ String "," (printSeq f (String close "") (y :: l))).
    rewrite length_append.
    change (list_sum (map (fun x => S (w x)) (x :: y :: l)))
      with (S (w x) + list_sum (map (fun x => S (w x)) (y :: l))).
    cbn [String.length]. lia.
Qed.

Lemma weight_le_length v : weight v <= String.length (JSON_stringify v).
Proof.
  induction v as [| b | z | s | items IH | props IH] using value_ind.
  - cbn. lia.
  - destruct b; cbn; lia.
  - cbn [weight JSON_stringify]. unfold printZ.
    destruct (z <? 0)%Z; [cbn; lia |].
    destruct (printN_head (Z.to_N z)) as (c & s & -> & _). cbn. lia.
  - cbn. lia.
  - cbn [weight JSON_stringify String.length].
    pose proof (printSeq_weight JSON_stringify weight items IH "]"). lia.
  - cbn [weight JSON_stringify String.length].
    pose proof (printSeq_weight
                  (fun p => quote (fst p) +:+ String ":" (JSON_stringify (snd p)))
                  (fun p => weight (snd p)) props) as H.
    specialize (H ltac:(eapply Forall_impl; [exact IH |];
                        intros [k v] Hv; cbn in *;
                        rewrite length_append; cbn; lia) "}"%char).
    lia.
Qed.

(** Reading back the text of a value gives the value, up to repeated
    names. *)
Lemma JSON_parse_stringify v : JSON_parse (JSON_stringify v) = Return (normalize v).
Proof.
  unfold JSON_parse.
  rewrite <- (append_nil_r (JSON_stringify v)) at 2.
  rewrite parseValue_stringify; [reflexivity | | exact I].
  pose proof (weight_le_length v). lia.
Qed.

(** *** The names of an object *)

Lemma getProp_None k props : getProp k props = None <-> k ∉ props.*1.
Proof.
  induction props as [|[k' v'] props IH]; cbn [getProp].
  - split; [intros _; apply not_elem_of_nil | done].
  - rewrite fmap_cons, not_elem_of_cons. cbn [fst].
    destruct (String.eqb_spec k' k) as [->|Hne]; [split; [done | by intros [? _]] |].
    rewrite IH. split; [by split | by intros [_ ?]].
Qed.

Lemma getProp_Some k v props : getProp k props = Some v -> (k, v) ∈ props.
Proof.
  induction props as [|[k' v'] props IH]; cbn [getProp]; [done |].
  destruct (String.eqb_spec k' k) as [->|Hne].
  - intros [= ->]. by left.
  - intros H. right. by apply IH.
Qed.

Lemma replaceProp_keys k v props : (replaceProp k v props).*1 = props.*1.
Proof.
  induction props as [|[k' v'] props IH]; [reflexivity |]. cbn [replaceProp].
  destruct (String.eqb k' k); rewrite !fmap_cons; [reflexivity |]. by rewrite IH.
Qed.

Lemma replaceProp_Forall (P : value -> Prop) k v props :
  P v -> Forall (fun p => P p.2) props -> Forall (fun p => P p.2) (replaceProp k v props).
Proof.
  intros Hv. induction 1 as [|[k' v'] props Hp Hall IH]; cbn [replaceProp].
  - constructor.
  - destruct (String.eqb k' k); constructor; auto.
Qed.

Lemma insertIndex_perm i p props : insertIndex i p props ≡ₚ p :: props.
Proof.
  induction props as [|q props IH]; cbn [insertIndex]; [reflexivity |].
  destruct (arrayIndex q.1) as [j|]; [destruct (j <? i)%N |]; try reflexivity.
  rewrite IH. apply Permutation_swap.
Qed.

Lemma arrayIndex_printN k i : arrayIndex k = Some i -> k = printN i.
Proof.
  unfold arrayIndex, canonicalNumeral.
  destruct k as [|c k]; [discriminate |].
  destruct (allDigits _); [|discriminate]. cbn [andb].
  destruct (String.eqb_spec (printN (decimalValue 0 (String c k))) (String c k))
    as [Heq|]; [|discriminate].
  cbn [andb]. destruct (_ <? _)%N; [|discriminate]. intros [= <-]. symmetry. exact Heq.
Qed.

Lemma keyBefore_trans k1 k2 k3 : keyBefore k1 k2 -> keyBefore k2 k3 -> keyBefore k1 k3.
Proof.
  unfold keyBefore.
  destruct (arrayIndex k1), (arrayIndex k2), (arrayIndex k3); try done. lia.
Qed.

Lemma insertIndex_sorted i k v props :
  arrayIndex k = Some i -> k ∉ props.*1 ->
  StronglySorted keyBefore props.*1 ->
  StronglySorted keyBefore (insertIndex i (k, v) props).*1.
Proof.
  intros Hk. induction props as [|[k' v'] props IH]; intros Hfresh Hsorted.
  - cbn. repeat constructor.
  - rewrite fmap_cons in Hfresh, Hsorted. cbn [fst] in Hfresh, Hsorted.
    apply not_elem_of_cons in Hfresh as [Hne Hfresh].
    apply StronglySorted_inv in Hsorted as [Hsorted Hhead].
    assert (Hfirst : forall j, arrayIndex k' = Some j -> (j <? i)%N = false ->
                               keyBefore k k').
    { intros j Hj Hlt. unfold keyBefore. rewrite Hk, Hj.
      apply N.ltb_ge in Hlt. destruct (N.eq_dec i j) as [->|]; [|lia].
      exfalso. apply Hne.
      by rewrite (arrayIndex_printN _ _ Hk), (arrayIndex_printN _ _ Hj). }
    assert (Hbefore : keyBefore k k' ->
                      StronglySorted keyBefore (((k, v) :: (k', v') :: props).*1)).
    { intros Hkk'. rewrite !fmap_cons. cbn [fst].
      apply SSorted_cons; [by apply SSorted_cons |].
      constructor; [exact Hkk' |].
      eapply Forall_impl; [exact Hhead |]. intros x Hx. by eapply keyBefore_trans. }
    cbn [insertIndex fst]. destruct (arrayIndex k') as [j|] eqn:Hj.
    + destruct (j <? i)%N eqn:Hlt; [|by eapply Hbefore, Hfirst].
      rewrite fmap_cons. cbn [fst]. apply SSorted_cons; [by apply IH |].
      rewrite (fmap_Permutation fst _ _ (insertIndex_perm i (k, v) props)).
      rewrite fmap_cons. cbn [fst]. constructor; [|exact Hhead].
      unfold keyBefore. rewrite Hj, Hk. by apply N.ltb_lt.
    + apply Hbefore. unfold keyBefore. by rewrite Hk, Hj.
Qed.

Lemma insertIndex_last i k v props :
  arrayIndex k = Some i -> Forall (fun x => keyBefore x k) props.*1 ->
  insertIndex i (k, v) props = props ++ [(k, v)].
Proof.
  intros Hk. induction props as [|[k' v'] props IH]; [reflexivity |].
  rewrite fmap_cons. cbn [fst]. intros [Hhead Hall]%Forall_cons.
  cbn [insertIndex fst]. unfold keyBefore in Hhead. rewrite Hk in Hhead.
  destruct (arrayIndex k') as [j|]; [|done].
  rewrite (proj2 (N.ltb_lt _ _) Hhead). by rewrite IH.
Qed.

Lemma setProp_NoDup k v props : NoDup props.*1 -> NoDup (setProp k v props).*1.
Proof.
  intros Hnd. unfold setProp. destruct (getProp k props) eqn:Hown.
  - by rewrite replaceProp_keys.
  - apply getProp_None in Hown.
    assert (Hcons : NoDup (((k, v) :: props).*1)) by (rewrite fmap_cons; by constructor).
    destruct (arrayIndex k).
    + by rewrite (fmap_Permutation fst _ _ (insertIndex_perm _ _ _)).
    + rewrite fmap_app. cbn. by rewrite <- Permutation_cons_append.
Qed.

Lemma setProp_sorted k v props :
  StronglySorted keyBefore props.*1 -> StronglySorted keyBefore (setProp k v props).*1.
Proof.
  intros Hsorted. unfold setProp. destruct (getProp k props) eqn:Hown.
  - by rewrite replaceProp_keys.
  - apply getProp_None in Hown. destruct (arrayIndex k) as [i|] eqn:Hk.
    + by apply insertIndex_sorted.
    + rewrite fmap_app. apply StronglySorted_app_2; [|exact Hsorted | repeat constructor].
      intros x1 x2 _ Hx2. apply list_elem_of_singleton in Hx2. cbn [fst] in Hx2.
      unfold keyBefore. rewrite Hx2, Hk.
      by destruct (arrayIndex x1).
Qed.

Lemma setProp_Forall (P : value -> Prop) k v props :
  P v -> Forall (fun p => P p.2) props -> Forall (fun p => P p.2) (setProp k v props).
Proof.
  intros Hv Hall. unfold setProp. destruct (getProp k props).
  - by apply replaceProp_Forall.
  - destruct (arrayIndex k).
    + rewrite insertIndex_perm. by constructor.
    + apply Forall_app. split; [exact Hall | by repeat constructor].
Qed.

Lemma setProp_last k v props :
  k ∉ props.*1 -> Forall (fun x => keyBefore x k) props.*1 ->
  setProp k v props = props ++ [(k, v)].
Proof.
  intros Hfresh%getProp_None Hall. unfold setProp. rewrite Hfresh.
  destruct (arrayIndex k) eqn:Hk; [by apply insertIndex_last | reflexivity].
Qed.

Lemma normalize_props_invariant props acc :
  Forall (fun p => wellFormed (normalize p.2)) props ->
  NoDup acc.*1 -> StronglySorted keyBefore acc.*1 ->
  Forall (fun p => wellFormed p.2) acc ->
  let result := fold_left (fun acc p => setProp (fst p) (normalize (snd p)) acc) props acc in
  NoDup result.*1 /\ StronglySorted keyBefore result.*1 /\
  Forall (fun p => wellFormed p.2) result.
Proof.
  intros Hall. revert acc.
  induction Hall as [|[k v] props Hv Hall IH]; intros acc Hnd Hsorted Hwf.
  - done.
  - cbn [fold_left].
    apply IH; [by apply setProp_NoDup | by apply setProp_sorted | by apply setProp_Forall].
Qed.

Lemma normalize_wellFormed v : wellFormed (normalize v).
Proof.
  induction v as [| b | z | s | items IH | props IH] using value_ind;
    cbn [normalize]; try by constructor.
  - constructor. by apply Forall_fmap.
  - destruct (normalize_props_invariant props [] IH) as (Hnd & Hsorted & Hwf);
      [constructor | constructor | constructor |].
    by constructor.
Qed.

Lemma normalize_props_id props acc :
  Forall (fun p => normalize p.2 = p.2) props ->
  NoDup (acc.*1 ++ props.*1) -> StronglySorted keyBefore (acc.*1 ++ props.*1) ->
  fold_left (fun acc p => setProp (fst p) (normalize (snd p)) acc) props acc = acc ++ props.
Proof.
  intros Hall. revert acc.
  induction Hall as [|[k v] props Hv Hall IH]; intros acc Hnd Hsorted.
  - by rewrite app_nil_r.
  - cbn [fold_left fst snd]. cbn in Hv. rewrite Hv.
    rewrite fmap_cons in Hnd, Hsorted. cbn [fst] in Hnd, Hsorted.
    assert (Hfresh : k ∉ acc.*1).
    { apply NoDup_app in Hnd as (_ & Hdisj & _). intros Hin.
      apply (Hdisj k Hin). by left. }
    assert (Hlast : Forall (fun x => keyBefore x k) acc.*1).
    { apply Forall_forall. intros x Hx.
      eapply StronglySorted_app_1_elem_of; [exact Hsorted | exact Hx | by left]. }
    rewrite (setProp_last _ _ _ Hfresh Hlast), IH; [by rewrite <- app_assoc | |];
      rewrite fmap_app; cbn; by rewrite <- app_assoc.
Qed.

Lemma wellFormed_normalize v : wellFormed v -> normalize v = v.
Proof.
  induction v as [| b | z | s | items IH | props IH] using value_ind;
    intros Hwf; cbn [normalize]; try reflexivity.
  - inversion Hwf as [| | | | ? Hitems |]; subst. f_equal.
    clear Hwf. induction IH as [|x items Hx _ IHitems]; [reflexivity |].
    apply Forall_cons in Hitems as [Hwx Hitems]. cbn [map].
    by rewrite (Hx Hwx), (IHitems Hitems).
  - inversion Hwf as [| | | | | ? Hnd Hsorted Hprops]; subst. f_equal.
    rewrite normalize_props_id; [reflexivity | | exact Hnd | exact Hsorted].
    rewrite Forall_forall in IH, Hprops |- *. intros p Hp. by apply IH, Hprops.
Qed.

Lemma JSON_parse_wellFormed text v : JSON_parse text = Return v -> wellFormed v.
Proof.
  unfold JSON_parse. destruct (parseValue _ text) as [[v' [|c r]]|]; try discriminate.
  intros [= <-]. apply normalize_wellFormed.
Qed.

(** What the model's parser returns, it returns again after a round
    through [JSON.stringify]. *)
Lemma JSON_roundtrip v : wellFormed v -> JSON_parse (JSON_stringify v) = Return v.
Proof. intros Hwf. by rewrite JSON_parse_stringify, wellFormed_normalize. Qed.

(** ** [addField] on a collection of records *)

Lemma withField_record fieldName defaultValue props i arr :
  companyMigrations.withField fieldName defaultValue (VObj props) i arr =
  Return (VObj (withFieldProps fieldName defaultValue props)).
Proof.
  unfold companyMigrations.withField, readMember, withFieldProps.
  cbn [getMember bindR ownEnumerable inheritedFunctions prototypeAsJSON].
  destruct (getProp fieldName props) as [current|]; [reflexivity |].
  destruct (String.eqb fieldName "__proto__"); [reflexivity |].
  by destruct (bool_decide (fieldName ∈ objectPrototype)).
Qed.

Lemma arrayMapFrom_records fieldName defaultValue arr items :
  Forall isRecord items ->
  forall i,
    arrayMapFrom (companyMigrations.withField fieldName defaultValue) arr i items =
    Return (map (withFieldRecord fieldName defaultValue) items).
Proof.
  induction 1 as [|x items [props ->] _ IH]; intros i; [reflexivity |].
  cbn [arrayMapFrom map withFieldRecord]. rewrite withField_record. cbn [bindR].
  by rewrite IH.
Qed.

Lemma nullish_nullish x d : nullish (Some (nullish (Some x) d)) d = nullish (Some x) d.
Proof. destruct x; try reflexivity. by destruct d. Qed.

Lemma replaceProp_same k v props : getProp k props = Some v -> replaceProp k v props = props.
Proof.
  induction props as [|[k' v'] props IH]; [done |]. cbn [getProp replaceProp].
  destruct (String.eqb k' k); [by intros [= ->] |]. intros H. by rewrite IH.
Qed.

Lemma setProp_setProp k v props : setProp k v (setProp k v props) = setProp k v props.
Proof.
  assert (H : getProp k (setProp k v props) = Some v)
    by by rewrite getProp_setProp, String.eqb_refl.
  unfold setProp at 1. rewrite H. by apply replaceProp_same.
Qed.

(** A record that went through [addField] is left as it is by the next
    pass. *)
Lemma withFieldProps_idempotent fieldName defaultValue props :
  withFieldProps fieldName defaultValue (withFieldProps fieldName defaultValue props) =
  withFieldProps fieldName defaultValue props.
Proof.
  assert (Hset : forall x, nullish (Some x) defaultValue = x ->
                           withFieldProps fieldName defaultValue (setProp fieldName x props) =
                           setProp fieldName x props).
  { intros x Hx. unfold withFieldProps.
    rewrite getProp_setProp, String.eqb_refl, Hx. apply setProp_setProp. }
  unfold withFieldProps at 2 3.
  destruct (getProp fieldName props) as [current|] eqn:Hown.
  - apply Hset, nullish_nullish.
  - destruct (String.eqb fieldName "__proto__") eqn:Hproto; [by apply Hset |].
    destruct (bool_decide (fieldName ∈ objectPrototype)) eqn:Hinherited.
    + unfold withFieldProps. by rewrite Hown, Hproto, Hinherited.
    + apply Hset. by destruct defaultValue.
Qed.

Lemma withFieldRecord_idempotent fieldName defaultValue items :
  map (withFieldRecord fieldName defaultValue) (map (withFieldRecord fieldName defaultValue) items)
  = map (withFieldRecord fieldName defaultValue) items.
Proof.
  rewrite map_map. apply map_ext. intros [| | | | |props]; try reflexivity.
  cbn [withFieldRecord]. by rewrite withFieldProps_idempotent.
Qed.

Lemma withFieldRecord_isRecord fieldName defaultValue items :
  Forall isRecord items -> Forall isRecord (map (withFieldRecord fieldName defaultValue) items).
Proof.
  intros H. apply Forall_fmap. eapply Forall_impl; [exact H |].
  intros x [props ->]. by eexists.
Qed.

Lemma withFieldRecord_wellFormed fieldName defaultValue v :
  wellFormed defaultValue -> wellFormed v ->
  wellFormed (withFieldRecord fieldName defaultValue v).
Proof.
  intros Hd Hv. destruct v as [| | | | |props]; try exact Hv.
  inversion Hv as [| | | | | ? Hnd Hsorted Hprops]; subst.
  assert (Hset : forall x, wellFormed x -> wellFormed (VObj (setProp fieldName x props))).
  { intros x Hx.
    constructor; [by apply setProp_NoDup | by apply setProp_sorted | by apply setProp_Forall]. }
  cbn [withFieldRecord]. unfold withFieldProps.
  destruct (getProp fieldName props) as [current|] eqn:Hown.
  - apply Hset. apply getProp_Some in Hown.
    rewrite Forall_forall in Hprops. specialize (Hprops _ Hown).
    by destruct current.
  - destruct (String.eqb fieldName "__proto__").
    + apply Hset. constructor; constructor.
    + destruct (bool_decide _); [exact Hv | by apply Hset].
Qed.

(** What [addField] writes when the entry holds records. *)
Lemma addField_records fieldName defaultValue st text items :
  st !! LOCAL_STORAGE_KEYS.COMPANIES = Some text -> text <> "" ->
  JSON_parse text = Return (VArr items) -> Forall isRecord items ->
  snd (companyMigrations.addField fieldName defaultValue st) =
  <[LOCAL_STORAGE_KEYS.COMPANIES :=
      JSON_stringify (VArr (map (withFieldRecord fieldName defaultValue) items))]> st.
Proof.
  intros Htext Hne Hparse Hrecords. unfold companyMigrations.addField.
  rewrite Htext. cbn [falsyItem default from_option id].
  rewrite (proj2 (String.eqb_neq _ _) Hne), Hparse. cbn [bindR callMap]. unfold arrayMap.
  by rewrite arrayMapFrom_records.
Qed.

(** In every other case the store stays as it is. *)
Lemma addField_store fieldName defaultValue st :
  snd (companyMigrations.addField fieldName defaultValue st) = st \/
  exists text items,
    st !! LOCAL_STORAGE_KEYS.COMPANIES = Some text /\ text <> "" /\
    JSON_parse text = Return (VArr items).
Proof.
  unfold companyMigrations.addField.
  destruct (st !! LOCAL_STORAGE_KEYS.COMPANIES) as [text|] eqn:Htext; [|by left].
  cbn [falsyItem default from_option id]. destruct (String.eqb_spec text "") as [->|Hne]; [by left |].
  destruct (JSON_parse text) as [[| | | |items|]| ] eqn:Hparse; cbn [bindR callMap];
    try by left.
  right. by exists text, items.
Qed.



(** The hypothesis on the entry cannot be dropped: an element that is an
    array inherits [map]; the first pass writes it back as an object without
    that name, and the second pass adds the default to it. *)
Lemma addField_on_array_elements :
  let st : Storage := {[ LOCAL_STORAGE_KEYS.COMPANIES :=
                           JSON_stringify (VArr [VArr [VNum 1; VNum 2]]) ]} in
  let once := snd (companyMigrations.addField "map" (VStr "x") st) in
  let twice := snd (companyMigrations.addField "map" (VStr "x") once) in
  once !! LOCAL_STORAGE_KEYS.COMPANIES =
    Some (JSON_stringify (VArr [VObj [("0", VNum 1); ("1", VNum 2)]])) /\
  twice !! LOCAL_STORAGE_KEYS.COMPANIES =
    Some (JSON_stringify (VArr [VObj [("0", VNum 1); ("1", VNum 2); ("map", VStr "x")]])).
Proof. split; reflexivity. Qed.

(** A field that holds a value other than [null] is kept, and [null] counts
    as absent. *)
Lemma withFieldProps_present fieldName defaultValue props current :
  getProp fieldName props = Some current ->
  withFieldProps fieldName defaultValue props =
  match current with
  | VNull => setProp fieldName defaultValue props
  | _ => props
  end.
Proof.
  intros Hown. unfold withFieldProps. rewrite Hown.
  destruct current; try reflexivity; cbn [nullish];
    unfold setProp; rewrite Hown; by apply replaceProp_same.
Qed.

(** ** The texts that [parseVersion] accepts *)

Lemma spanDigits_split s m r :
  spanDigits s = (m, r) -> s = m +:+ r /\ allDigits m = true /\ headNotDigit r.
Proof.
  revert m r. induction s as [|c s IH]; intros m r; cbn [spanDigits].
  - by intros [= <- <-].
  - destruct (isDigit c) eqn:Hc.
    + destruct (spanDigits s) as [d r'] eqn:Hs. intros [= <- <-].
      destruct (IH _ _ eq_refl) as (-> & Hd & Hr).
      rewrite append_String. cbn [allDigits]. by rewrite Hc, Hd.
    + intros [= <- <-]. rewrite append_nil_l. by repeat split.
Qed.

Lemma matchVersion_text a b c l :
  numeral a -> numeral b -> numeral c -> labelText l ->
  matchVersion (versionText a b c l) = Some (a, b, c, l).
Proof.
  intros [Ha Da] [Hb Db] [Hc Dc] Hl. unfold matchVersion, versionText.
  rewrite (spanDigits_append a _ Da) by reflexivity.
  rewrite (append_String "." "" _), append_nil_l.
  rewrite (spanDigits_append b _ Db) by reflexivity.
  rewrite (append_String "." "" _), append_nil_l.
  destruct a as [|a0 a]; [done |]. destruct b as [|b0 b]; [done |].
  destruct l as [t|].
  - destruct Hl as [Ht Hline]. destruct t as [|t0 t]; [done |].
    rewrite (spanDigits_append c _ Dc) by reflexivity.
    rewrite (append_String "-" "" _), append_nil_l.
    destruct c as [|c0 c]; [done |]. by rewrite Hline.
  - rewrite (spanDigits_append c "" Dc) by exact I.
    by destruct c as [|c0 c].
Qed.

Lemma matchVersion_inv s a b c l :
  matchVersion s = Some (a, b, c, l) ->
  numeral a /\ numeral b /\ numeral c /\ labelText l /\ s = versionText a b c l.
Proof.
  unfold matchVersion.
  destruct (spanDigits s) as [m1 r1] eqn:H1.
  destruct m1 as [|a0 m1]; [discriminate |].
  destruct r1 as [|dot1 r1]; [discriminate |].
  destruct (Ascii.eqb_spec dot1 ".") as [->|Hn];
    [|by destruct dot1 as [[] [] [] [] [] [] [] []]].
  destruct (spanDigits r1) as [m2 r2] eqn:H2.
  destruct m2 as [|b0 m2]; [discriminate |].
  destruct r2 as [|dot2 r2]; [discriminate |].
  destruct (Ascii.eqb_spec dot2 ".") as [->|Hn];
    [|by destruct dot2 as [[] [] [] [] [] [] [] []]].
  destruct (spanDigits r2) as [m3 r3] eqn:H3.
  destruct m3 as [|c0 m3]; [discriminate |].
  apply spanDigits_split in H1 as (-> & D1 & _).
  apply spanDigits_split in H2 as (-> & D2 & _).
  apply spanDigits_split in H3 as (-> & D3 & _).
  destruct r3 as [|dash r3].
  - intros [= <- <- <- <-]. unfold numeral, versionText.
    by rewrite append_nil_r.
  - destruct (Ascii.eqb_spec dash "-") as [->|Hn];
      [|by destruct dash as [[] [] [] [] [] [] [] []]].
    destruct r3 as [|t0 t]; [discriminate |].
    destruct (noLineTerminator (String t0 t)) eqn:Hline; [|discriminate].
    intros [= <- <- <- <-]. by unfold numeral, versionText.
Qed.

(** X1. [parseVersion] accepts exactly the texts [a.b.c] and [a.b.c-label],
    with [a], [b], [c] runs of at least one digit (leading zeros allowed)
    and a label of at least one character without line terminator; the
    parsed version carries the numbers of the three runs, the label and the
    text itself.  Every other text is rejected with the text in the
    message. *)
Theorem parseVersion_grammar (s : string) :
  (forall v,
      parseVersion s = Return v <->
      exists a b c l,
        numeral a /\ numeral b /\ numeral c /\ labelText l /\
        s = versionText a b c l /\
        v = {| major := parseInt10 a; minor := parseInt10 b; patch := parseInt10 c;
               label := l; raw := s |}) /\
  (~ validVersion s ->
   parseVersion s = Throw (newError "Error" ("Invalid version format: " +:+ s))).
Proof.
  split.
  - intros v. unfold parseVersion. split.
    + destruct (matchVersion s) as [[[[a b] c] l]|] eqn:Hm; [|discriminate].
      intros [= <-]. exists a, b, c, l.
      destruct (matchVersion_inv _ _ _ _ _ Hm) as (Ha & Hb & Hc & Hl & Hs).
      repeat (split; [assumption |]). reflexivity.
    + intros (a & b & c & l & Ha & Hb & Hc & Hl & Hs & ->).
      rewrite Hs at 1. by rewrite (matchVersion_text a b c l Ha Hb Hc Hl).
  - intros Hinvalid. unfold validVersion, parseVersion in *.
    destruct (matchVersion s) as [[[[a b] c] l]|]; [|reflexivity].
    exfalso. apply Hinvalid. eauto.
Qed.

(** ** Downgrades and upgrades in the history *)

(** In the sorted history the first record of an older version stands
    before the first record of a newer one. *)
Lemma firstIndexOf_upgrade sorted fromVersion toVersion i j :
  StronglySorted versionLe sorted ->
  firstIndexOf fromVersion sorted i -> firstIndexOf toVersion sorted j ->
  compareVersions fromVersion toVersion = Return (-1)%Z -> i < j.
Proof.
  intros Hsorted [(rf & Hrf & Hvf) _] [(rt & Hrt & Hvt) _] Hlt.
  destruct (compareVersions_Return_valid _ _ _ Hlt) as [[pa Ha] [pb Hb]].
  rewrite (compareVersions_parsed _ _ _ _ Ha Hb) in Hlt. injection Hlt as Hlt.
  destruct (Nat.lt_trichotomy i j) as [L|[E|L]]; [exact L | exfalso..].
  - subst j. assert (rf = rt) by congruence. subst rt.
    assert (E : toVersion = fromVersion) by congruence. subst toVersion.
    assert (pb = pa) by congruence. subst pb.
    assert (E' : specOrder pa pa = Eq) by by apply specOrder_eq_key.
    rewrite E' in Hlt. discriminate.
  - assert (Hback : versionLe rt rf)
      by (apply (StronglySorted_lookup versionLe sorted j i); assumption).
    unfold versionLe in Hback. rewrite Hvf, Hvt in Hback.
    apply (versionStrLe_spec _ _ _ _ Hb Ha) in Hback.
    rewrite (specOrder_antisym pa pb) in Hback.
    destruct (specOrder pa pb); simpl in *; try discriminate. by apply Hback.
Qed.

Lemma firstIndexOf_downgrade sorted fromVersion toVersion i j :
  StronglySorted versionLe sorted ->
  firstIndexOf fromVersion sorted i -> firstIndexOf toVersion sorted j ->
  compareVersions fromVersion toVersion = Return 1%Z -> j <= i.
Proof.
  intros Hsorted [(rf & Hrf & Hvf) _] [(rt & Hrt & Hvt) _] Hgt.
  destruct (le_lt_dec j i) as [L|L]; [exact L | exfalso].
  assert (Hle : versionLe rf rt)
    by (apply (StronglySorted_lookup versionLe sorted i j); assumption).
  unfold versionLe, versionStrLe in Hle. rewrite Hvf, Hvt in Hle.
  destruct Hle as (c & Hc & Hc0). rewrite Hgt in Hc. injection Hc as <-. lia.
Qed.

(** The first indices of two versions of a valid history in its sorted
    form. *)
Lemma sorted_history VERSION_HISTORY fromVersion toVersion :
  Forall validRecord VERSION_HISTORY ->
  fromVersion ∈ versionsOf VERSION_HISTORY ->
  toVersion ∈ versionsOf VERSION_HISTORY ->
  exists sorted i j,
    sortWith byVersion VERSION_HISTORY = Return sorted /\
    sorted ≡ₚ VERSION_HISTORY /\ StronglySorted versionLe sorted /\
    firstIndexOf fromVersion sorted i /\ firstIndexOf toVersion sorted j.
Proof.
  intros Hvalid Hfrom Hto.
  destruct (sortWith_spec _ Hvalid) as (sorted & Hsort & Hperm & Hsorted).
  assert (Hfrom' : fromVersion ∈ versionsOf sorted)
    by (unfold versionsOf; by rewrite Hperm).
  assert (Hto' : toVersion ∈ versionsOf sorted)
    by (unfold versionsOf; by rewrite Hperm).
  destruct (findIndex_present _ _ Hfrom') as [i Hi].
  destruct (findIndex_present _ _ Hto') as [j Hj].
  apply findIndex_Some in Hi, Hj. by exists sorted, i, j.
Qed.

(** X2. Between two versions of a valid history, from the newer to the
    older one, [getMigrationPath] finds no step, while [needsMigration]
    answers that a migration is needed. *)
Theorem getMigrationPath_downgrade (VERSION_HISTORY : list VersionRecord)
    (fromVersion toVersion : string) :
  Forall validRecord VERSION_HISTORY ->
  fromVersion ∈ versionsOf VERSION_HISTORY ->
  toVersion ∈ versionsOf VERSION_HISTORY ->
  compareVersions fromVersion toVersion = Return 1%Z ->
  getMigrationPath VERSION_HISTORY fromVersion toVersion = Return [] /\
  needsMigration VERSION_HISTORY fromVersion toVersion = Return true.
Proof.
  intros Hvalid Hfrom Hto Hgt.
  assert (Hne : fromVersion <> toVersion).
  { intros ->. destruct (compareVersions_Return_valid _ _ _ Hgt) as [[pa Ha] _].
    rewrite (compareVersions_parsed _ _ _ _ Ha Ha) in Hgt.
    assert (E : specOrder pa pa = Eq) by by apply specOrder_eq_key.
    rewrite E in Hgt. discriminate. }
  split.
  - destruct (sorted_history _ _ _ Hvalid Hfrom Hto)
      as (sorted & i & j & Hsort & _ & Hsorted & Hi & Hj).
    rewrite (getMigrationPath_found _ _ _ _ _ _ Hne Hsort Hi Hj).
    pose proof (firstIndexOf_downgrade _ _ _ _ _ Hsorted Hi Hj Hgt) as Hle.
    by replace (j - i) with 0 by lia.
  - unfold needsMigration. apply String.eqb_neq in Hne. by rewrite Hne, Hgt.
Qed.

Lemma getMigrationPath_downgrade_witness :
  Forall validRecord sample_VERSION_HISTORY /\
  compareVersions "2.0.0" "1.0.0" = Return 1%Z /\
  getMigrationPath sample_VERSION_HISTORY "2.0.0" "1.0.0" = Return [] /\
  needsMigration sample_VERSION_HISTORY "2.0.0" "1.0.0" = Return true.
Proof.
  assert (Hv : Forall validRecord sample_VERSION_HISTORY)
    by (repeat constructor; eexists; reflexivity).
  assert (Hgt : compareVersions "2.0.0" "1.0.0" = Return 1%Z) by reflexivity.
  repeat (split; [assumption |]).
  apply (getMigrationPath_downgrade sample_VERSION_HISTORY "2.0.0" "1.0.0" Hv);
    [apply list_elem_of_In; vm_compute; tauto .. | exact Hgt].
Defined.

Lemma find_version v l r :
  find (fun x => String.eqb (version x) v) l = Some r -> r ∈ l /\ version r = v.
Proof.
  intros H. apply find_some in H as [Hin Hv].
  split; [by apply list_elem_of_In | by apply String.eqb_eq].
Qed.

Lemma NoDup_versions l r r' :
  NoDup (versionsOf l) -> r ∈ l -> r' ∈ l -> version r = version r' -> r = r'.
Proof.
  unfold versionsOf. induction l as [|x l IH]; [by intros _ ?%elem_of_nil |].
  rewrite fmap_cons, NoDup_cons. intros [Hx Hnd] Hr Hr' Hv.
  apply elem_of_cons in Hr as [->|Hr], Hr' as [->|Hr']; [done | | | by apply IH].
  - exfalso. apply Hx. rewrite Hv. by apply list_elem_of_fmap_2.
  - exfalso. apply Hx. rewrite <- Hv. by apply list_elem_of_fmap_2.
Qed.

(** X3. In a valid history that names no version twice, when
    [needsMigration] answers true for an upgrade from a version of the
    history, the path of [getMigrationPath] is not empty and ends with the
    record of the target, the one that lists [fromVersion] among its
    sources. *)
Theorem needsMigration_upgrade_path (VERSION_HISTORY : list VersionRecord)
    (fromVersion toVersion : string) :
  Forall validRecord VERSION_HISTORY ->
  NoDup (versionsOf VERSION_HISTORY) ->
  fromVersion ∈ versionsOf VERSION_HISTORY ->
  compareVersions fromVersion toVersion = Return (-1)%Z ->
  needsMigration VERSION_HISTORY fromVersion toVersion = Return true ->
  exists path target,
    getMigrationPath VERSION_HISTORY fromVersion toVersion = Return (path ++ [target]) /\
    target ∈ VERSION_HISTORY /\ version target = toVersion /\
    requiresMigration target = true /\ fromVersion ∈ migrateFrom target.
Proof.
  intros Hvalid Hnd Hfrom Hlt Hneeds. unfold needsMigration in Hneeds.
  destruct (String.eqb_spec fromVersion toVersion) as [E|Hne]; [discriminate |].
  rewrite Hlt in Hneeds. cbn [bindR] in Hneeds. cbn in Hneeds.
  destruct (find _ VERSION_HISTORY) as [target|] eqn:Hfind; [|discriminate].
  apply find_version in Hfind as [Htarget Hv].
  injection Hneeds as Hneeds. apply andb_true_iff in Hneeds as [Hreq Hsrc].
  assert (Hto : toVersion ∈ versionsOf VERSION_HISTORY)
    by (rewrite <- Hv; by apply list_elem_of_fmap_2).
  destruct (sorted_history _ _ _ Hvalid Hfrom Hto)
    as (sorted & i & j & Hsort & Hperm & Hsorted & Hi & Hj).
  pose proof (firstIndexOf_upgrade _ _ _ _ _ Hsorted Hi Hj Hlt) as Hij.
  destruct Hj as [(rt & Hrt & Hvt) Hmin].
  assert (rt = target).
  { apply (NoDup_versions VERSION_HISTORY); [exact Hnd | | exact Htarget | congruence].
    rewrite <- Hperm. by eapply list_elem_of_lookup_2. }
  subst rt.
  exists (filter (fun r => requiresMigration r = true)
                 (take (j - S i) (drop (S i) sorted))), target.
  split; [|repeat split; try assumption].
  - rewrite (getMigrationPath_found _ _ _ sorted i j Hne Hsort Hi
               (conj (ex_intro _ target (conj Hrt Hvt)) Hmin)).
    replace (j - i) with (S (j - S i)) by lia.
    rewrite (take_S_r _ _ target), filter_app.
    + rewrite (filter_cons_True _ target) by exact Hreq. reflexivity.
    + rewrite lookup_drop. by replace (S i + (j - S i)) with j by lia.
  - apply existsb_exists in Hsrc as (x & Hx & ->%String.eqb_eq).
    by apply list_elem_of_In.
Qed.

Lemma needsMigration_upgrade_path_witness :
  Forall validRecord keyed_VERSION_HISTORY /\
  NoDup (versionsOf keyed_VERSION_HISTORY) /\
  needsMigration keyed_VERSION_HISTORY "1.0.0" "1.2.0" = Return true /\
  exists path target,
    getMigrationPath keyed_VERSION_HISTORY "1.0.0" "1.2.0" = Return (path ++ [target]) /\
    version target = "1.2.0".
Proof.
  assert (Hv : Forall validRecord keyed_VERSION_HISTORY)
    by (repeat constructor; eexists; reflexivity).
  assert (Hnd : NoDup (versionsOf keyed_VERSION_HISTORY))
    by (apply NoDup_ListNoDup; vm_compute; repeat constructor; simpl; intuition discriminate).
  assert (Hneeds : needsMigration keyed_VERSION_HISTORY "1.0.0" "1.2.0" = Return true)
    by reflexivity.
  repeat (split; [assumption |]).
  destruct (needsMigration_upgrade_path keyed_VERSION_HISTORY "1.0.0" "1.2.0" Hv Hnd)
    as (path & target & Hpath & _ & Hversion & _);
    [apply list_elem_of_In; vm_compute; tauto | reflexivity | exact Hneeds |].
  by exists path, target.
Defined.

(** ** The storage keys along a path *)

Lemma foldl_addKey keys l :
  NoDup keys ->
  NoDup (foldl addKey keys l) /\
  forall k, k ∈ foldl addKey keys l <-> k ∈ keys \/ k ∈ l.
Proof.
  revert keys. induction l as [|x l IH]; intros keys Hnd; cbn [foldl].
  - split; [exact Hnd |]. intros k. rewrite elem_of_nil. tauto.
  - assert (Hnd' : NoDup (addKey keys x)).
    { unfold addKey. case_bool_decide; [exact Hnd |].
      apply NoDup_app. split; [exact Hnd |]. split; [|apply NoDup_singleton].
      intros y Hy ->%list_elem_of_singleton. contradiction. }
    destruct (IH _ Hnd') as [Hnd'' Hin]. split; [exact Hnd'' |].
    intros k. rewrite Hin, elem_of_cons. unfold addKey.
    case_bool_decide as Hx.
    + split; [tauto |]. intros [?|[->|?]]; tauto.
    + rewrite elem_of_app, list_elem_of_singleton. tauto.
Qed.

Lemma foldl_storageKeys keys (path : list VersionRecord) :
  NoDup keys ->
  let result := foldl (fun keys version => foldl addKey keys (storageKeys version))
                      keys path in
  NoDup result /\
  forall k, k ∈ result <-> k ∈ keys \/ exists r, r ∈ path /\ k ∈ storageKeys r.
Proof.
  revert keys. induction path as [|x path IH]; intros keys Hnd; cbn [foldl].
  - split; [exact Hnd |]. intros k. split; [by left |].
    intros [?|(r & Hr & _)]; [done | by apply elem_of_nil in Hr].
  - destruct (foldl_addKey keys (storageKeys x) Hnd) as [Hnd' Hin].
    destruct (IH _ Hnd') as [Hnd'' Hin']. split; [exact Hnd'' |].
    intros k. rewrite Hin', Hin. split.
    + intros [[?|?]|(r & Hr & Hk)]; [by left | right..].
      * exists x. split; [by left | done].
      * exists r. split; [by right | done].
    + intros [?|(r & Hr & Hk)]; [by left; left |].
      apply elem_of_cons in Hr as [->|Hr]; [by left; right |].
      right. by exists r.
Qed.

(** X4. What [getAffectedStorageKeys] returns names no key twice, and holds
    exactly the storage keys of the records on the migration path; when
    [getMigrationPath] raises, so does it. *)
Theorem getAffectedStorageKeys_keys (VERSION_HISTORY : list VersionRecord)
    (fromVersion toVersion : string) :
  match getMigrationPath VERSION_HISTORY fromVersion toVersion with
  | Return path =>
      exists keys,
        getAffectedStorageKeys VERSION_HISTORY fromVersion toVersion = Return keys /\
        NoDup keys /\
        forall k, k ∈ keys <-> exists r, r ∈ path /\ k ∈ storageKeys r
  | Throw error =>
      getAffectedStorageKeys VERSION_HISTORY fromVersion toVersion = Throw error
  end.
Proof.
  unfold getAffectedStorageKeys.
  destruct (getMigrationPath VERSION_HISTORY fromVersion toVersion) as [path|error];
    cbn [bindR]; [|reflexivity].
  eexists. split; [reflexivity |].
  destruct (foldl_storageKeys [] path (NoDup_nil_2 (A:=string))) as [Hnd Hin].
  split; [exact Hnd |]. intros k. rewrite Hin. split; [|by right].
  intros [H|H]; [by apply elem_of_nil in H | exact H].
Qed.

(** ** The executor on a malformed history *)

Lemma compareVersions_Throw a b e :
  compareVersions a b = Throw e ->
  (~ validVersion a /\ e = invalidVersionError a) \/
  (~ validVersion b /\ e = invalidVersionError b).
Proof.
  unfold compareVersions, validVersion, parseVersion, invalidVersionError.
  destruct (matchVersion a) as [[[[? ?] ?] ?]|]; cbn [bindR].
  - destruct (matchVersion b) as [[[[? ?] ?] ?]|]; cbn [bindR]; [discriminate |].
    intros [= <-]. right. split; [by intros [? ?] | reflexivity].
  - intros [= <-]. left. split; [by intros [? ?] | reflexivity].
Qed.

Lemma insertSorted_Throw x l e :
  insertSorted byVersion x l = Throw e ->
  exists v, v ∈ version x :: versionsOf l /\ ~ validVersion v /\ e = invalidVersionError v.
Proof.
  induction l as [|y l IH]; cbn [insertSorted]; [discriminate |].
  unfold byVersion at 1.
  destruct (compareVersions (version x) (version y)) as [c|e'] eqn:Hc; cbn [bindR].
  - destruct (c <=? 0)%Z; [discriminate |].
    destruct (insertSorted byVersion x l) as [r|e'] eqn:Hins; cbn [bindR]; [discriminate |].
    intros [= <-]. destruct (IH eq_refl) as (v & Hv & Hinvalid & He).
    exists v. split; [|done]. unfold versionsOf. rewrite fmap_cons.
    apply elem_of_cons in Hv as [->|Hv]; [by left | by right; right].
  - intros [= <-]. unfold versionsOf. rewrite fmap_cons.
    apply compareVersions_Throw in Hc as [[Hinvalid He]|[Hinvalid He]].
    + exists (version x). split; [by left | done].
    + exists (version y). split; [by right; left | done].
Qed.

Lemma sortWith_Throw l e :
  sortWith byVersion l = Throw e ->
  exists v, v ∈ versionsOf l /\ ~ validVersion v /\ e = invalidVersionError v.
Proof.
  induction l as [|x l IH]; cbn [sortWith]; [discriminate |].
  destruct (sortWith byVersion l) as [s|e'] eqn:Hs; cbn [bindR].
  - intros Hins. apply insertSorted_Throw in Hins as (v & Hv & Hinvalid & He).
    exists v. split; [|done]. unfold versionsOf in *.
    rewrite fmap_cons. by rewrite (sortWith_perm _ _ _ Hs) in Hv.
  - intros [= <-]. destruct (IH eq_refl) as (v & Hv & Hinvalid & He).
    exists v. split; [|done]. unfold versionsOf. rewrite fmap_cons. by right.
Qed.

(** X5. When the history has at least two records and one of them carries a
    version that does not parse, every call of [executeMigrations] with a
    stored version other than the current one ends in the outer handler: it
    resolves to a failure whose message is "Migration failed: " followed by
    the format error of an unparsable version of the history, no procedure
    is invoked and the store is untouched. *)
Theorem executeMigrations_malformed_history
    (APP_VERSION : string) (VERSION_HISTORY : list VersionRecord)
    (migrations : gmap string Procedure) (storedVersion : string) (w : World) :
  2 <= length VERSION_HISTORY ->
  Exists (fun r => ~ validRecord r) VERSION_HISTORY ->
  storedVersion <> "" -> storedVersion <> APP_VERSION ->
  exists v,
    v ∈ versionsOf VERSION_HISTORY /\ ~ validVersion v /\
    executeMigrations APP_VERSION VERSION_HISTORY migrations (Some storedVersion) w =
      ({| Exec.success := false;
          Exec.message := "Migration failed: " +:+ message (invalidVersionError v);
          Exec.affectedKeys := None;
          Exec.error := Some (ErrorThrown (invalidVersionError v));
          Exec.results := None |}, w).
Proof.
  intros Hlen Hbad Hnonempty Hne.
  destruct (sortWith byVersion VERSION_HISTORY) as [sorted|e] eqn:Hsort.
  { exfalso. apply Exists_exists in Hbad as (r & Hr & Hinvalid).
    pose proof (sortWith_compares _ _ Hsort Hlen) as Hvalid.
    rewrite Forall_forall in Hvalid. by apply Hinvalid, Hvalid. }
  destruct (sortWith_Throw _ _ Hsort) as (v & Hv & Hinvalid & ->).
  exists v. split; [exact Hv |]. split; [exact Hinvalid |].
  unfold executeMigrations, getMigrationPath.
  apply String.eqb_neq in Hnonempty, Hne. by rewrite Hnonempty, Hne, Hsort.
Qed.

Lemma executeMigrations_malformed_history_witness :
  exists v,
    ~ validVersion v /\
    executeMigrations "2.0.0" malformed_VERSION_HISTORY sample_migrations (Some "1.0.0")
                      sample_world =
      ({| Exec.success := false;
          Exec.message := "Migration failed: " +:+ message (invalidVersionError v);
          Exec.affectedKeys := None;
          Exec.error := Some (ErrorThrown (invalidVersionError v));
          Exec.results := None |}, sample_world).
Proof.
  destruct (executeMigrations_malformed_history
              "2.0.0" malformed_VERSION_HISTORY sample_migrations "1.0.0" sample_world)
    as (v & _ & Hinvalid & Hexec).
  - simpl. lia.
  - apply Exists_cons_tl, Exists_cons_hd. intros [p Hp]. discriminate.
  - discriminate.
  - discriminate.
  - by exists v.
Defined.

(** ** The executor and the registry *)

Lemma getMigrationPath_records VERSION_HISTORY fromVersion toVersion path :
  getMigrationPath VERSION_HISTORY fromVersion toVersion = Return path ->
  forall r, r ∈ path -> r ∈ VERSION_HISTORY.
Proof.
  unfold getMigrationPath.
  destruct (String.eqb fromVersion toVersion);
    [by intros [= <-] r ?%elem_of_nil |].
  destruct (sortWith byVersion VERSION_HISTORY) as [sorted|] eqn:Hsort; cbn [bindR];
    [|discriminate].
  destruct (findIndex _ sorted) as [i|]; [|by intros [= <-] r ?%elem_of_nil].
  destruct (findIndex _ sorted) as [j|]; [|by intros [= <-] r ?%elem_of_nil].
  intros [= <-] r Hr. apply list_elem_of_filter in Hr as [_ Hr].
  unfold slice in Hr. apply elem_of_take in Hr as (n & Hn & _).
  rewrite lookup_drop in Hn. rewrite <- (sortWith_perm _ _ _ Hsort).
  by eapply list_elem_of_lookup_2.
Qed.

Lemma runPath_unregistered APP_VERSION (migrations : gmap string Procedure)
    storedVersion path results affectedKeys w :
  (forall r, r ∈ path -> migrations !! version r = None) ->
  runPath APP_VERSION migrations storedVersion path results affectedKeys w =
    ({| Exec.success := true;
        Exec.message := "Successfully migrated from " +:+ storedVersion
                        +:+ " to " +:+ APP_VERSION;
        Exec.affectedKeys := Some affectedKeys;
        Exec.error := None;
        Exec.results := Some results |}, w).
Proof.
  induction path as [|r path IH]; intros Hnone; cbn [runPath]; [reflexivity |].
  rewrite (Hnone r) by by left. apply IH. intros r' Hr'. apply Hnone. by right.
Qed.

(** X6. When the registry holds no procedure for any version of the history
    (as the registry that ships, which is empty), [executeMigrations] leaves
    the store as it is and invokes nothing; it reports success with no
    affected key and no result, unless the path resolver raised, which it
    reports as a failure. *)
Theorem executeMigrations_unregistered
    (APP_VERSION : string) (VERSION_HISTORY : list VersionRecord)
    (migrations : gmap string Procedure) (storedVersion : option string) (w : World) :
  (forall v, v ∈ versionsOf VERSION_HISTORY -> migrations !! v = None) ->
  exists r,
    executeMigrations APP_VERSION VERSION_HISTORY migrations storedVersion w = (r, w) /\
    (Exec.affectedKeys r = None \/ Exec.affectedKeys r = Some []) /\
    (Exec.results r = None \/ Exec.results r = Some []) /\
    (Exec.success r = true \/
     exists stored e,
       storedVersion = Some stored /\
       getMigrationPath VERSION_HISTORY stored APP_VERSION = Throw e /\
       Exec.message r = "Migration failed: " +:+ message e).
Proof.
  intros Hnone. unfold executeMigrations.
  destruct storedVersion as [stored|]; [|eexists; split; [reflexivity | cbn; auto]].
  destruct (String.eqb stored "" || String.eqb stored APP_VERSION);
    [eexists; split; [reflexivity | cbn; auto] |].
  destruct (getMigrationPath VERSION_HISTORY stored APP_VERSION) as [[|r0 path]|e] eqn:Hpath.
  - eexists; split; [reflexivity | cbn; auto].
  - rewrite runPath_unregistered.
    + eexists; split; [reflexivity | cbn; auto].
    + intros r Hr. apply Hnone. unfold versionsOf. apply list_elem_of_fmap_2.
      by apply (getMigrationPath_records _ _ _ _ Hpath).
  - eexists; split; [reflexivity |]. cbn. repeat split; auto.
    right. by exists stored, e.
Qed.

Lemma executeMigrations_unregistered_witness :
  exists r,
    executeMigrations "2.0.0" sample_VERSION_HISTORY ∅ (Some "1.0.0") sample_world =
      (r, sample_world) /\
    Exec.success r = true /\ Exec.results r = Some [].
Proof.
  destruct (executeMigrations_unregistered
              "2.0.0" sample_VERSION_HISTORY ∅ (Some "1.0.0") sample_world)
    as (r & Hexec & _); [intros v _; apply lookup_empty |].
  exists r. split; [exact Hexec |].
  vm_compute in Hexec. injection Hexec as <-. by split.
Defined.

(** What one turn of the loop leaves behind. *)
Lemma stepBody_inv version results affectedKeys result outcome :
  stepBody version results affectedKeys result = Return outcome ->
  match outcome with
  | Continue results' _ =>
      exists step, results' = results ++ [step] /\ Step.version step = version /\
                   truthy (Step.success step) = true /\ Step.details step = result
  | Stop r => Exec.success r = false
  end.
Proof.
  unfold stepBody.
  destruct (getMember result "affectedKeys") as [ak|]; cbn [bindR]; [|discriminate].
  destruct (getMember result "success") as [ok|]; cbn [bindR]; [|discriminate].
  destruct (truthy ok) eqn:Hok; cbn [negb].
  - intros [= <-]. eexists. by repeat split.
  - destruct (getMember result "error") as [err|]; cbn [bindR]; [|discriminate].
    by intros [= <-].
Qed.

Lemma runPath_success APP_VERSION (migrations : gmap string Procedure)
    storedVersion path results affectedKeys w r w' :
  runPath APP_VERSION migrations storedVersion path results affectedKeys w = (r, w') ->
  Exec.success r = true ->
  exists steps,
    Exec.results r = Some (results ++ steps) /\
    Step.version <$> steps = filter (fun v => registered migrations v = true) (version <$> path) /\
    Forall (fun s => truthy (Step.success s) = true) steps /\
    trace w' = trace w ++ (Invoked storedVersion <$> (Step.version <$> steps)).
Proof.
  revert results affectedKeys w.
  induction path as [|versionInfo path IH]; intros results affectedKeys w; cbn [runPath].
  - intros [= <- <-] _. exists []. by rewrite !app_nil_r.
  - rewrite fmap_cons. unfold registered at 1.
    destruct (migrations !! version versionInfo) as [migrationFn|] eqn:Hfn.
    + rewrite filter_cons_True by (unfold registered; rewrite Hfn; by apply bool_decide_eq_true_2).
      destruct (migrationFn storedVersion (version versionInfo) (localStorage w))
        as [resolved st'] eqn:Hrun.
      destruct resolved as [result|e]; cbn [bindR]; [|by intros [= <- <-]].
      destruct (stepBody (version versionInfo) results affectedKeys result)
        as [[results' affectedKeys'|r0]|e] eqn:Hstep.
      * apply stepBody_inv in Hstep as (step & -> & Hversion & Hok & _).
        intros Hrest Hsuccess.
        destruct (IH _ _ _ Hrest Hsuccess) as (steps & Hresults & Hversions & Hall & Htrace).
        exists (step :: steps). cbn [trace] in Htrace.
        split; [by rewrite Hresults, <- app_assoc |].
        split; [by rewrite fmap_cons, Hversion, Hversions |].
        split; [by constructor |].
        by rewrite Htrace, !fmap_cons, Hversion, <- app_assoc.
      * apply stepBody_inv in Hstep. intros [= <- <-] Hsuccess. congruence.
      * by intros [= <- <-].
    + rewrite filter_cons_False
        by (unfold registered; rewrite Hfn, bool_decide_eq_false_2;
            [discriminate | by intros [? ?]]).
      apply IH.
Qed.

(** X7. When [executeMigrations] reports success after running a path, its
    [results] list one entry for each version of the path that has a
    registered procedure, in path order and each with a truthy [success];
    versions without a procedure are passed over; and the engine has invoked
    exactly those procedures, once each, in that order, always with the
    stored version as first argument. *)
Theorem executeMigrations_success_results
    (APP_VERSION : string) (VERSION_HISTORY : list VersionRecord)
    (migrations : gmap string Procedure) (storedVersion : string) (w : World)
    (r : Exec.t) (w' : World) (steps : list Step.t) :
  executeMigrations APP_VERSION VERSION_HISTORY migrations (Some storedVersion) w = (r, w') ->
  Exec.success r = true ->
  Exec.results r = Some steps ->
  exists path,
    getMigrationPath VERSION_HISTORY storedVersion APP_VERSION = Return path /\
    Step.version <$> steps =
      filter (fun v => registered migrations v = true) (version <$> path) /\
    Forall (fun s => truthy (Step.success s) = true) steps /\
    trace w' = trace w ++ (Invoked storedVersion <$> (Step.version <$> steps)).
Proof.
  unfold executeMigrations.
  destruct (String.eqb storedVersion "" || String.eqb storedVersion APP_VERSION);
    [by intros [= <- <-] |].
  destruct (getMigrationPath VERSION_HISTORY storedVersion APP_VERSION)
    as [[|r0 path]|e] eqn:Hpath.
  - by intros [= <- <-].
  - intros Hrun Hsuccess Hresults. exists (r0 :: path). split; [reflexivity |].
    destruct (runPath_success _ _ _ _ _ _ _ _ _ Hrun Hsuccess)
      as (steps' & Hresults' & Hversions & Hall & Htrace).
    rewrite Hresults in Hresults'. cbn [app] in Hresults'.
    injection Hresults' as ->. done.
  - by intros [= <- <-].
Qed.

Lemma executeMigrations_success_results_witness :
  exists r w' steps,
    executeMigrations "1.1.0" sample_VERSION_HISTORY sample_migrations (Some "1.0.0")
                      sample_world = (r, w') /\
    Exec.success r = true /\ Exec.results r = Some steps /\
    Step.version <$> steps = ["1.1.0"] /\
    trace w' = [Invoked "1.0.0" "1.1.0"].
Proof.
  destruct (executeMigrations "1.1.0" sample_VERSION_HISTORY sample_migrations
                              (Some "1.0.0") sample_world) as [r w'] eqn:Hexec.
  assert (Hsuccess : Exec.success r = true)
    by (vm_compute in Hexec; by injection Hexec as <- <-).
  destruct (Exec.results r) as [steps|] eqn:Hresults;
    [|vm_compute in Hexec; injection Hexec as <- <-; discriminate].
  destruct (executeMigrations_success_results
              "1.1.0" sample_VERSION_HISTORY sample_migrations "1.0.0" sample_world
              r w' steps Hexec Hsuccess Hresults)
    as (path & Hpath & Hversions & _ & Htrace).
  exists r, w', steps. repeat (split; [done |]).
  vm_compute in Hpath. injection Hpath as <-.
  split; [exact Hversions |]. rewrite Hversions in Htrace. exact Htrace.
Defined.

(** X8. When the procedure registered for the first step of the path was
    built by [createMigration] and its [migrate] raises, [executeMigrations]
    stops there: it reports a failure for that version with the message of
    the raised error ("Unknown error" when that message is empty), hands on
    the message and the stack as [error], lists the one failed step in
    [results], and leaves the store as [migrate] left it. *)
Theorem executeMigrations_reports_thrown_error
    (APP_VERSION : string) (VERSION_HISTORY : list VersionRecord)
    (migrations : gmap string Procedure) (storedVersion : string) (w : World)
    (r0 : VersionRecord) (path : list VersionRecord)
    (options : MigrationOptions) (e : JsError) (st' : Storage) :
  getMigrationPath VERSION_HISTORY storedVersion APP_VERSION = Return (r0 :: path) ->
  migrations !! version r0 = Some (createMigration options) ->
  migrate options storedVersion (version r0) (localStorage w) = (Throw e, st') ->
  exists r step,
    executeMigrations APP_VERSION VERSION_HISTORY migrations (Some storedVersion) w =
      (r, {| localStorage := st';
             trace := trace w ++ [Invoked storedVersion (version r0)] |}) /\
    Exec.success r = false /\
    Exec.message r =
      "Migration failed for version " +:+ version r0 +:+ ": " +:+
      (if String.eqb (message e) "" then "Unknown error" else message e) /\
    Exec.error r =
      Some (ErrorValue (Some (VObj [("message", VStr (message e));
                                    ("stack", VStr (stack e))]))) /\
    Exec.results r = Some [step] /\
    Step.version step = version r0 /\ Step.success step = Some (VBool false).
Proof.
  intros Hpath Hfn Hmigrate.
  destruct (getMigrationPath_nonempty _ _ _ _ _ Hpath) as [Hne [v Hv]].
  assert (Hnonempty : String.eqb storedVersion "" = false).
  { apply String.eqb_neq. intros ->. discriminate. }
  apply String.eqb_neq in Hne.
  unfold executeMigrations. rewrite Hnonempty, Hne, Hpath.
  cbn [orb runPath]. rewrite Hfn. unfold createMigration at 1. rewrite Hmigrate.
  cbn [bindR]. unfold stepBody, failureObject.
  cbn [getMember getProp String.eqb Ascii.eqb Bool.eqb bindR truthy negb errorMessageOf toStr].
  do 2 eexists. split; [reflexivity |]. cbn.
  repeat split. by destruct (String.eqb (message e) "").
Qed.

Lemma executeMigrations_reports_thrown_error_witness :
  exists r w',
    executeMigrations "1.2.0" sample_VERSION_HISTORY
                      {[ "1.1.0" := failingStep ]} (Some "1.0.0") sample_world = (r, w') /\
    Exec.success r = false /\
    Exec.message r = "Migration failed for version 1.1.0: schema not supported" /\
    localStorage w' = localStorage sample_world.
Proof.
  edestruct (executeMigrations_reports_thrown_error
               "1.2.0" sample_VERSION_HISTORY {[ "1.1.0" := failingStep ]} "1.0.0"
               sample_world (release "1.1.0" true) [release "1.2.0" true])
    as (r & step & Hexec & Hsuccess & Hmessage & _);
    [reflexivity | reflexivity | reflexivity |].
  eexists r, _. split; [exact Hexec |]. split; [exact Hsuccess |].
  split; [exact Hmessage | reflexivity].
Defined.

(** ** The tracker from one start of the application to the next *)

Lemma compareVersions_refl v : validVersion v -> compareVersions v v = Return 0%Z.
Proof.
  intros [p Hp]. rewrite (compareVersions_parsed _ _ _ _ Hp Hp).
  assert (E : specOrder p p = Eq) by by apply specOrder_eq_key.
  by rewrite E.
Qed.

Lemma validVersion_nonempty v : validVersion v -> v <> "".
Proof. intros [p Hp] ->. discriminate. Qed.

(** Once the marker holds the current version, the tracker finds nothing
    to do. *)
Lemma initializeVersioning_settled APP_VERSION VERSION_HISTORY
    (migrations : gmap string Procedure) w :
  validVersion APP_VERSION -> getStoredVersion w = Some APP_VERSION ->
  initializeVersioning APP_VERSION VERSION_HISTORY migrations w =
    (Return {| status := {| firstRun := false; updated := false;
                            fromVersion := Some APP_VERSION; toVersion := APP_VERSION;
                            isNewer := Some false; isOlder := Some false |};
               migrationNeeded := false; migrationResult := noMigrationNeeded |}, w).
Proof.
  intros Hvalid Hstored. unfold initializeVersioning, checkVersionStatus.
  rewrite Hstored. cbn [falsyItem default from_option id].
  rewrite (proj2 (String.eqb_neq _ _) (validVersion_nonempty _ Hvalid)).
  by rewrite (compareVersions_refl _ Hvalid).
Qed.

(** X9. On a first run (no marker, or an empty one) [initializeVersioning]
    runs no migration, reports [firstRun] and writes the current version as
    the marker; when that version parses, the next call reports neither a
    first run nor an update and changes nothing. *)
Theorem initializeVersioning_first_run
    (APP_VERSION : string) (VERSION_HISTORY : list VersionRecord)
    (migrations : gmap string Procedure) (w : World) :
  falsyItem (getStoredVersion w) = true ->
  validVersion APP_VERSION ->
  exists init1 init2 w1,
    initializeVersioning APP_VERSION VERSION_HISTORY migrations w = (Return init1, w1) /\
    firstRun (status init1) = true /\ updated (status init1) = false /\
    migrationNeeded init1 = false /\
    w1 = {| localStorage := <[VERSION_STORAGE_KEY := APP_VERSION]> (localStorage w);
            trace := trace w ++ [SavedVersion APP_VERSION] |} /\
    initializeVersioning APP_VERSION VERSION_HISTORY migrations w1 = (Return init2, w1) /\
    firstRun (status init2) = false /\ updated (status init2) = false /\
    migrationNeeded init2 = false.
Proof.
  intros Hfirst Hvalid.
  set (w1 := {| localStorage := <[VERSION_STORAGE_KEY := APP_VERSION]> (localStorage w);
                trace := trace w ++ [SavedVersion APP_VERSION] |}).
  assert (Hsettled := initializeVersioning_settled
                        APP_VERSION VERSION_HISTORY migrations w1 Hvalid
                        (lookup_insert_eq (localStorage w) VERSION_STORAGE_KEY APP_VERSION)).
  eexists _, _, w1. split.
  { unfold initializeVersioning, checkVersionStatus. rewrite Hfirst. reflexivity. }
  do 4 (split; [reflexivity |]).
  split; [exact Hsettled |]. by repeat split.
Qed.

Lemma initializeVersioning_first_run_witness :
  exists init1 w1,
    initializeVersioning shipped_APP_VERSION shipped_VERSION_HISTORY ∅ fresh_world =
      (Return init1, w1) /\
    firstRun (status init1) = true /\
    localStorage w1 = {[ "app_version" := "1.0.0-alpha" ]} /\
    exists init2,
      initializeVersioning shipped_APP_VERSION shipped_VERSION_HISTORY ∅ w1 =
        (Return init2, w1) /\
      updated (status init2) = false.
Proof.
  destruct (initializeVersioning_first_run
              shipped_APP_VERSION shipped_VERSION_HISTORY ∅ fresh_world)
    as (init1 & init2 & w1 & Hrun1 & Hfirst & _ & _ & Hw1 & Hrun2 & _ & Hupdated & _);
    [reflexivity | eexists; reflexivity |].
  exists init1, w1. split; [exact Hrun1 |]. split; [exact Hfirst |].
  split; [by rewrite Hw1 |]. by exists init2.
Defined.

Lemma compareVersions_range a b c :
  compareVersions a b = Return c -> (c = -1 \/ c = 0 \/ c = 1)%Z.
Proof.
  intros Hc. destruct (compareVersions_Return_valid _ _ _ Hc) as [[pa Ha] [pb Hb]].
  rewrite (compareVersions_parsed _ _ _ _ Ha Hb) in Hc. injection Hc as <-.
  apply signOf_range.
Qed.

(** X10. In what [initializeVersioning] resolves to, [migrationNeeded] is
    true exactly when the status says [updated] and [isNewer]: then
    [checkMigrationNeeded] always agrees, so the branch that logs that an
    update needs no migration is never taken.  Otherwise the result carries
    the fixed "No migration needed" object.  Of [isNewer] and [isOlder] at
    most one holds, and [updated] holds exactly when one of them does. *)
Theorem initializeVersioning_migrationNeeded
    (APP_VERSION : string) (VERSION_HISTORY : list VersionRecord)
    (migrations : gmap string Procedure) (w w' : World) (init : Initialization) :
  initializeVersioning APP_VERSION VERSION_HISTORY migrations w = (Return init, w') ->
  checkVersionStatus APP_VERSION w = Return (status init) /\
  migrationNeeded init = updated (status init) && default false (isNewer (status init)) /\
  (migrationNeeded init = false -> migrationResult init = noMigrationNeeded) /\
  updated (status init) =
    default false (isNewer (status init)) || default false (isOlder (status init)) /\
  default false (isNewer (status init)) && default false (isOlder (status init)) = false.
Proof.
  unfold initializeVersioning.
  destruct (checkVersionStatus APP_VERSION w) as [s|e] eqn:Hstatus; [|discriminate].
  assert (Hflags : updated s = default false (isNewer s) || default false (isOlder s) /\
                   default false (isNewer s) && default false (isOlder s) = false /\
                   (updated s && default false (isNewer s) = true ->
                    checkMigrationNeeded APP_VERSION (fromVersion s) = Return true)).
  { unfold checkVersionStatus in Hstatus.
    destruct (falsyItem (getStoredVersion w)) eqn:Hfalsy.
    - injection Hstatus as <-. by cbn.
    - destruct (compareVersions _ APP_VERSION) as [c|] eqn:Hc; [|discriminate].
      injection Hstatus as <-.
      cbn [updated isNewer isOlder fromVersion default from_option id].
      unfold checkMigrationNeeded. rewrite Hfalsy, Hc. cbn [bindR].
      destruct (compareVersions_range _ _ _ Hc) as [-> | [-> | ->]]; by cbn. }
  destruct Hflags as (Hupdated & Hexclusive & Hneeded).
  destruct (updated s && default false (isNewer s)) eqn:Hbranch.
  - rewrite (Hneeded eq_refl).
    destruct (executeMigrations _ _ _ _ w) as [r w1].
    intros [= <- <-]. cbn. by rewrite Hbranch.
  - intros [= <- <-]. cbn. by rewrite Hbranch.
Qed.

Lemma initializeVersioning_migrationNeeded_witness :
  exists init w',
    initializeVersioning "1.1.0" sample_VERSION_HISTORY sample_migrations sample_world =
      (Return init, w') /\
    migrationNeeded init = true /\ isNewer (status init) = Some true.
Proof.
  destruct (initializeVersioning "1.1.0" sample_VERSION_HISTORY sample_migrations
                                 sample_world) as [[init|e] w'] eqn:Hinit;
    [|vm_compute in Hinit; discriminate].
  destruct (initializeVersioning_migrationNeeded _ _ _ _ _ _ Hinit)
    as (Hstatus & Hneeded & _).
  exists init, w'. split; [reflexivity |].
  assert (Hs : checkVersionStatus "1.1.0" sample_world =
               Return {| firstRun := false; updated := true;
                         fromVersion := Some "1.0.0"; toVersion := "1.1.0";
                         isNewer := Some true; isOlder := Some false |})
    by reflexivity.
  rewrite Hs in Hstatus. injection Hstatus as Hstatus.
  rewrite Hneeded, <- Hstatus. by split.
Defined.

(** ** The review cache *)

Lemma elem_of_storageKeysOf (st : Storage) k : k ∈ storageKeysOf st <-> is_Some (st !! k).
Proof.
  unfold storageKeysOf. rewrite list_elem_of_fmap. split.
  - intros ([k' v] & -> & Hin). apply elem_of_map_to_list in Hin. by exists v.
  - intros [v Hv]. exists (k, v). split; [reflexivity | by apply elem_of_map_to_list].
Qed.

Lemma elem_of_findAllKeys (st : Storage) k :
  k ∈ reviewCacheHelpers.findAllKeys st <-> is_Some (st !! k) /\ isReviewKey k = true.
Proof.
  unfold reviewCacheHelpers.findAllKeys, isReviewKey.
  rewrite list_elem_of_filter, elem_of_storageKeysOf, andb_true_iff.
  split; [by intros [[_ ?] ?] |]. intros [Hk Hprefix]. repeat split; try done.
  destruct k; [discriminate | reflexivity].
Qed.

Lemma lookup_removeItems (st : Storage) (items : list value) k :
  foldl (fun st key => delete (toStr key) st) st items !! k =
  if bool_decide (k ∈ toStr <$> items) then None else st !! k.
Proof.
  revert st. induction items as [|x items IH]; intros st; cbn [foldl].
  - by rewrite bool_decide_eq_false_2 by apply not_elem_of_nil.
  - rewrite IH, fmap_cons. destruct (decide (k = toStr x)) as [->|Hne].
    + rewrite lookup_delete_eq. rewrite (bool_decide_eq_true_2 (_ ∈ _ :: _)) by by left.
      by case_bool_decide.
    + rewrite lookup_delete_ne by done.
      rewrite (bool_decide_ext (k ∈ toStr x :: (toStr <$> items)) (k ∈ toStr <$> items));
        [reflexivity |].
      rewrite elem_of_cons. split; [intros [?|?]; [contradiction | done] | by right].
Qed.

Lemma toStr_strings (keys : list string) : toStr <$> (VStr <$> keys) = keys.
Proof. induction keys as [|k keys IH]; [reflexivity |]. cbn. by rewrite IH. Qed.

Lemma stringify_nonempty v : JSON_stringify v <> "".
Proof.
  intros H. pose proof (weight_le_length v) as Hw. rewrite H in Hw.
  destruct v; cbn in Hw; lia.
Qed.

Lemma clearAllCache_lookup (st : Storage) k :
  snd (reviewCacheHelpers.clearAllCache st) !! k =
  if isReviewKey k then None else st !! k.
Proof.
  unfold reviewCacheHelpers.clearAllCache, clearStorageItems. cbn [snd].
  rewrite lookup_removeItems, toStr_strings.
  destruct (isReviewKey k) eqn:Hkey.
  - case_bool_decide as Hin; [reflexivity |].
    destruct (st !! k) as [v|] eqn:Hk; [|reflexivity].
    exfalso. apply Hin, elem_of_findAllKeys. by split; [exists v |].
  - rewrite bool_decide_eq_false_2; [reflexivity |].
    intros [_ Hin]%elem_of_findAllKeys. congruence.
Qed.

(** X11. [clearAllCache] removes every entry whose key starts with
    [reviews_] and no other entry; the number it returns is the number of
    such entries before the call, and afterwards [findAllKeys] finds
    nothing. *)
Theorem clearAllCache_clears (st : Storage) :
  let count := fst (reviewCacheHelpers.clearAllCache st) in
  let st' := snd (reviewCacheHelpers.clearAllCache st) in
  count = length (filter (fun k => isReviewKey k = true) (storageKeysOf st)) /\
  (forall k, st' !! k = if isReviewKey k then None else st !! k) /\
  reviewCacheHelpers.findAllKeys st' = [] /\
  reviewMigrations.clearAllCache st =
    (Return (VObj [("clearedCount", VNum (Z.of_nat count))]), st').
Proof.
  intros count st'.
  assert (Hlookup : forall k, st' !! k = if isReviewKey k then None else st !! k)
    by apply clearAllCache_lookup.
  split.
  { unfold count, reviewCacheHelpers.clearAllCache, reviewCacheHelpers.findAllKeys.
    cbn [fst]. f_equal. apply list_filter_iff. intros k. unfold isReviewKey.
    rewrite andb_true_iff. split; [by intros [_ ?] |].
    intros Hprefix. split; [by destruct k | done]. }
  split; [exact Hlookup |]. split; [|reflexivity].
  apply elem_of_nil_inv. intros k [[v Hk] Hkey]%elem_of_findAllKeys.
  rewrite Hlookup, Hkey in Hk. discriminate.
Qed.

Lemma getKey_isReviewKey glassdoorId :
  isReviewKey (reviewCacheHelpers.getKey glassdoorId) = true.
Proof.
  unfold isReviewKey, reviewCacheHelpers.getKey. by destruct (toStr glassdoorId).
Qed.



(** ** The company primitives *)

Lemma JSON_parse_nonempty text v : JSON_parse text = Return v -> text <> "".
Proof. intros H ->. discriminate. Qed.

Lemma companiesAre_lookup st items :
  companiesAre st items ->
  exists text, st !! LOCAL_STORAGE_KEYS.COMPANIES = Some text /\ text <> "" /\
               JSON_parse text = Return (VArr items).
Proof.
  intros (text & Htext & Hparse). exists text.
  split; [exact Htext |]. split; [by eapply JSON_parse_nonempty | exact Hparse].
Qed.


Lemma twoCompanies_stored : companiesAre twoCompanies_storage twoCompanies.
Proof. eexists. split; reflexivity. Qed.

Lemma twoCompanies_records : Forall isRecord twoCompanies.
Proof. repeat constructor; by eexists. Qed.

Lemma not_inheritedName_founded : ~ inheritedName "founded".
Proof.
  intros [H|H]; [discriminate |]. apply list_elem_of_In in H. vm_compute in H.
  intuition discriminate.
Qed.


Lemma readMember_record props k :
  readMember (Some (VObj props)) k = Return (memberOf props k).
Proof.
  unfold readMember, memberOf. cbn [getMember bindR prototypeAsJSON inheritedFunctions].
  destruct (getProp k props); [reflexivity |].
  destruct (String.eqb k "__proto__"); [reflexivity |].
  by destruct (bool_decide (k ∈ objectPrototype)).
Qed.

Lemma renamed_company oldName newName company i arr :
  companyMigrations.renamed oldName newName company i arr =
  Return (VObj (renamedProps oldName newName (ownEnumerable (Some company)))).
Proof.
  unfold companyMigrations.renamed, renamedProps.
  destruct (hasProperty _ oldName); [|reflexivity].
  by rewrite readMember_record.
Qed.

Lemma arrayMapFrom_renamed oldName newName arr items i :
  arrayMapFrom (companyMigrations.renamed oldName newName) arr i items =
  Return ((fun company => VObj (renamedProps oldName newName (ownEnumerable (Some company))))
            <$> items).
Proof.
  revert i. induction items as [|x items IH]; intros i; [reflexivity |].
  cbn [arrayMapFrom]. rewrite renamed_company. cbn [bindR]. by rewrite IH.
Qed.

(** What [renameField] writes when the entry holds an array. *)
Lemma renameField_array oldName newName st items :
  companiesAre st items ->
  companyMigrations.renameField oldName newName st =
    (Return (VObj [("updated", VNum (Z.of_nat (length items)));
                   ("fieldRenamed", VObj [("from", VStr oldName); ("to", VStr newName)])]),
     <[LOCAL_STORAGE_KEYS.COMPANIES :=
         JSON_stringify
           (VArr ((fun company =>
                     VObj (renamedProps oldName newName (ownEnumerable (Some company))))
                    <$> items))]> st).
Proof.
  intros (text & Htext & Hne & Hparse)%companiesAre_lookup.
  unfold companyMigrations.renameField. rewrite Htext.
  cbn [falsyItem default from_option id].
  rewrite (proj2 (String.eqb_neq _ _) Hne), Hparse. cbn [bindR callMap]. unfold arrayMap.
  by rewrite arrayMapFrom_renamed, length_fmap.
Qed.


(** *** [delete] on the properties *)

Lemma getProp_deleteProp k k' props :
  getProp k (deleteProp k' props) = if String.eqb k' k then None else getProp k props.
Proof.
  unfold deleteProp. induction props as [|[k0 v0] props IH]; cbn [getProp].
  - rewrite filter_nil. by destruct (String.eqb k' k).
  - destruct (decide (k0 = k')) as [->|Hne].
    + rewrite filter_cons_False by (cbn; by intros []). rewrite IH.
      by destruct (String.eqb k' k).
    + rewrite filter_cons_True by done. cbn [getProp]. rewrite IH.
      destruct (String.eqb_spec k0 k) as [->|Hne']; [|reflexivity].
      by rewrite (proj2 (String.eqb_neq _ _) (not_eq_sym Hne)).
Qed.

Lemma deleteProp_fresh k props : getProp k props = None -> deleteProp k props = props.
Proof.
  unfold deleteProp. induction props as [|[k0 v0] props IH]; cbn [getProp]; [done |].
  destruct (String.eqb_spec k0 k) as [->|Hne]; [discriminate |].
  intros H. rewrite filter_cons_True by done. by rewrite IH.
Qed.

Lemma deleteProp_deleteProp k props : deleteProp k (deleteProp k props) = deleteProp k props.
Proof.
  apply deleteProp_fresh. by rewrite getProp_deleteProp, String.eqb_refl.
Qed.

Lemma deleteProp_replaceProp k x props :
  deleteProp k (replaceProp k x props) = deleteProp k props.
Proof.
  unfold deleteProp. induction props as [|[k0 v0] props IH]; [reflexivity |].
  cbn [replaceProp]. destruct (String.eqb_spec k0 k) as [->|Hne].
  - by rewrite !filter_cons_False by (cbn; by intros []).
  - rewrite !filter_cons_True by done. by rewrite IH.
Qed.

Lemma deleteProp_insertIndex k x i props :
  deleteProp k (insertIndex i (k, x) props) = deleteProp k props.
Proof.
  unfold deleteProp. induction props as [|q props IH]; cbn [insertIndex].
  - by rewrite filter_cons_False by (cbn; by intros []).
  - destruct (arrayIndex q.1) as [j|]; [destruct (j <? i)%N |];
      try by rewrite (filter_cons_False _ (k, x)) by (cbn; by intros []).
    rewrite !(filter_cons _ q). by rewrite IH.
Qed.

Lemma deleteProp_setProp k x props : deleteProp k (setProp k x props) = deleteProp k props.
Proof.
  unfold setProp. destruct (getProp k props); [apply deleteProp_replaceProp |].
  destruct (arrayIndex k); [apply deleteProp_insertIndex |].
  unfold deleteProp. rewrite filter_app.
  rewrite (filter_cons_False _ (k, x)) by (cbn; by intros []).
  by rewrite filter_nil, app_nil_r.
Qed.

Lemma hasProperty_own props k x : getProp k props = Some x -> hasProperty props k = true.
Proof. unfold hasProperty. by intros ->. Qed.

Lemma hasProperty_absent props k :
  getProp k props = None -> ~ inheritedName k -> hasProperty props k = false.
Proof.
  unfold hasProperty, inheritedName. intros -> Hname.
  destruct (String.eqb_spec k "__proto__") as [E|_]; [exfalso; by apply Hname; left |].
  rewrite bool_decide_eq_false_2; [reflexivity |]. intros ?. apply Hname. by right.
Qed.

(** Renaming a field to its own name removes it. *)
Lemma renamedProps_same k props : renamedProps k k props = deleteProp k props.
Proof.
  unfold renamedProps, hasProperty, memberOf, putMember.
  destruct (getProp k props) as [x|] eqn:Hown.
  - apply deleteProp_setProp.
  - destruct (String.eqb k "__proto__") eqn:Hproto; cbn [orb]; [reflexivity |].
    destruct (bool_decide (k ∈ objectPrototype)).
    + apply deleteProp_deleteProp.
    + symmetry. by apply deleteProp_fresh.
Qed.





Lemma deleteProp_sublist k props : deleteProp k props `sublist_of` props.
Proof. apply sublist_filter. Qed.

Lemma deleteProp_wellFormed k props :
  wellFormed (VObj props) -> wellFormed (VObj (deleteProp k props)).
Proof.
  intros Hwf. inversion Hwf as [| | | | | ? Hnd Hsorted Hprops]; subst.
  pose proof (fmap_sublist fst _ _ (deleteProp_sublist k props)) as Hkeys.
  constructor.
  - by eapply sublist_NoDup.
  - by eapply StronglySorted_sublist.
  - rewrite Forall_forall in Hprops |- *. intros p Hp. apply Hprops.
    unfold deleteProp in Hp. by apply list_elem_of_filter in Hp as [_ Hp].
Qed.

Lemma setProp_wellFormed k x props :
  wellFormed x -> wellFormed (VObj props) -> wellFormed (VObj (setProp k x props)).
Proof.
  intros Hx Hwf. inversion Hwf as [| | | | | ? Hnd Hsorted Hprops]; subst.
  constructor; [by apply setProp_NoDup | by apply setProp_sorted | by apply setProp_Forall].
Qed.

Lemma renamedProps_wellFormed oldName newName props :
  wellFormed (VObj props) -> wellFormed (VObj (renamedProps oldName newName props)).
Proof.
  intros Hwf. unfold renamedProps. destruct (hasProperty props oldName); [|exact Hwf].
  apply deleteProp_wellFormed. unfold memberOf.
  assert (Hvalue : forall x, getProp oldName props = Some x -> wellFormed x).
  { intros x Hx%getProp_Some.
    inversion Hwf as [| | | | | ? _ _ Hprops]; subst.
    rewrite Forall_forall in Hprops. apply (Hprops _ Hx). }
  destruct (getProp oldName props) as [x|].
  - cbn [putMember]. specialize (Hvalue x eq_refl).
    destruct (getProp newName props); [by apply setProp_wellFormed |].
    destruct (String.eqb newName "__proto__"); [exact Hwf | by apply setProp_wellFormed].
  - destruct (String.eqb oldName "__proto__").
    + cbn [putMember].
      assert (Hempty : wellFormed (VObj [])) by (constructor; constructor).
      destruct (getProp newName props); [by apply setProp_wellFormed |].
      destruct (String.eqb newName "__proto__"); [exact Hwf | by apply setProp_wellFormed].
    + destruct (bool_decide _); cbn [putMember]; by apply deleteProp_wellFormed.
Qed.

(** A company from which the old field has gone is left as it is by the
    next pass, unless every object inherits the old name. *)
Lemma renamedProps_idempotent oldName newName props :
  ~ inheritedName oldName ->
  renamedProps oldName newName (renamedProps oldName newName props) =
  renamedProps oldName newName props.
Proof.
  intros Hold. unfold renamedProps at 2.
  destruct (hasProperty props oldName) eqn:Hhas.
  - unfold renamedProps. rewrite Hhas, hasProperty_absent; [reflexivity | | exact Hold].
    by rewrite getProp_deleteProp, String.eqb_refl.
  - unfold renamedProps. by rewrite Hhas.
Qed.

Lemma renameField_store oldName newName st :
  snd (companyMigrations.renameField oldName newName st) = st \/
  exists items, companiesAre st items.
Proof.
  unfold companyMigrations.renameField, companiesAre.
  destruct (st !! LOCAL_STORAGE_KEYS.COMPANIES) as [text|] eqn:Htext; [|by left].
  cbn [falsyItem default from_option id]. destruct (String.eqb text ""); [by left |].
  destruct (JSON_parse text) as [[| | | |items|]| ] eqn:Hparse; cbn [bindR callMap];
    try by left.
  right. by exists items, text.
Qed.


Lemma twoCompanies_recordsOnly : recordsOnly twoCompanies_storage.
Proof.
  intros text items Htext Hparse. vm_compute in Htext. injection Htext as <-.
  vm_compute in Hparse. injection Hparse as <-. repeat constructor; by eexists.
Qed.


(** The condition on the old name cannot be dropped: a field named as a
    member of [Object.prototype] moves on the first pass, and on the second
    pass, where the name is found again by inheritance, the moved value is
    overwritten by a function and is not written back. *)
Lemma renameField_inherited_name :
  let st : Storage :=
    {[ LOCAL_STORAGE_KEYS.COMPANIES :=
         JSON_stringify (VArr [VObj [("constructor", VNum 1)]]) ]} in
  let once := snd (companyMigrations.renameField "constructor" "kind" st) in
  let twice := snd (companyMigrations.renameField "constructor" "kind" once) in
  once !! LOCAL_STORAGE_KEYS.COMPANIES =
    Some (JSON_stringify (VArr [VObj [("kind", VNum 1)]])) /\
  twice !! LOCAL_STORAGE_KEYS.COMPANIES = Some (JSON_stringify (VArr [VObj []])).
Proof. split; reflexivity. Qed.

(** ** The general primitives *)

Lemma lookup_preserve (st : Storage) keys (data : gmap string (option string)) k :
  foldl (generalMigrations.preserve st) data keys !! k =
  if kept keys k then Some (st !! k) else data !! k.
Proof.
  unfold kept. revert data. induction keys as [|x keys IH]; intros data; cbn [foldl].
  - by rewrite bool_decide_eq_false_2 by apply not_elem_of_nil.
  - rewrite IH. unfold generalMigrations.preserve.
    destruct (String.eqb k "__proto__") eqn:Hk; cbn [negb];
      rewrite ?andb_false_r, ?andb_true_r.
    + apply String.eqb_eq in Hk.
      destruct (String.eqb_spec x "__proto__") as [Hx|Hx]; [reflexivity |].
      rewrite lookup_insert_ne; [reflexivity | congruence].
    + destruct (decide (k = x)) as [Heq|Hne].
      * rewrite <- Heq, Hk, lookup_insert_eq.
        rewrite (bool_decide_eq_true_2 (k ∈ k :: keys)) by by left.
        by case_bool_decide.
      * rewrite (bool_decide_ext (k ∈ x :: keys) (k ∈ keys))
          by (rewrite elem_of_cons; split; [intros [?|?]; [contradiction | done] | by right]).
        case_bool_decide; [reflexivity |].
        destruct (String.eqb x "__proto__"); [reflexivity |].
        rewrite lookup_insert_ne; [reflexivity | congruence].
Qed.

Lemma lookup_restore (data : gmap string (option string)) k :
  map_fold generalMigrations.restore (∅ : Storage) data !! k = data !! k ≫= id.
Proof.
  revert k.
  apply (map_fold_weak_ind
           (fun (r : Storage) (m : gmap string (option string)) =>
              forall k, r !! k = m !! k ≫= id)).
  - intros k. by rewrite !lookup_empty.
  - intros i x m r Hfresh IH k. unfold generalMigrations.restore.
    destruct (decide (k = i)) as [->|Hne].
    + rewrite lookup_insert_eq. cbn. destruct x as [data'|].
      * by rewrite lookup_insert_eq.
      * by rewrite IH, Hfresh.
    + rewrite lookup_insert_ne by done. destruct x as [data'|].
      * rewrite lookup_insert_ne by done. apply IH.
      * apply IH.
Qed.

(** X18. After [clearAllStorage] the store holds exactly the items of the
    listed keys that were there before, with one exception: an item stored
    under the key [__proto__] is never kept, listed or not.  The result
    reports the number of items before the call as [cleared] and the number
    of listed keys, present or not, as [preserved]. *)
Theorem clearAllStorage_keeps (exceptKeys : option (list string)) (st : Storage) :
  exists st',
    generalMigrations.clearAllStorage exceptKeys st =
      (Return (VObj [("cleared", VNum (Z.of_nat (size st)));
                     ("preserved", VNum (Z.of_nat (length (default [] exceptKeys))))]),
       st') /\
    forall k, st' !! k = if kept (default [] exceptKeys) k then st !! k else None.
Proof.
  eexists. split; [reflexivity |]. intros k.
  rewrite lookup_restore, lookup_preserve, lookup_empty.
  by destruct (kept _ k).
Qed.

(** ** [forEachMatchingKey] *)

Lemma handleKeys_counts handler keys succeeded failed st :
  exists succeeded' failed' st',
    generalMigrations.handleKeys handler keys succeeded failed st =
      (succeeded', failed', st') /\
    succeeded' + failed' = succeeded + failed + length keys /\
    succeeded <= succeeded' /\ failed <= failed' /\
    ((forall key item st0, exists st1, handler key item st0 = (Return tt, st1)) ->
     failed' = failed).
Proof.
  revert succeeded failed st.
  induction keys as [|key keys IH]; intros succeeded failed st;
    cbn [generalMigrations.handleKeys].
  - exists succeeded, failed, st. repeat split; try lia. cbn. lia.
  - destruct (handler key (st !! key) st) as [[[]|e] st1] eqn:Hrun.
    + destruct (IH (S succeeded) failed st1) as (s' & f' & st' & Hloop & Hsum & Hs & Hf & Hok).
      exists s', f', st'. split; [exact Hloop |]. cbn [length].
      repeat split; try lia. exact Hok.
    + destruct (IH succeeded (S failed) st1) as (s' & f' & st' & Hloop & Hsum & Hs & Hf & Hok).
      exists s', f', st'. split; [exact Hloop |]. cbn [length].
      repeat split; try lia. intros Htotal.
      destruct (Htotal key (st !! key) st) as [st2 Hst2]. congruence.
Qed.


(** ** What [transformReviews] writes *)

Lemma transformEntry_updated transformer now key st text props reviews reviews' :
  st !! key = Some text -> JSON_parse text = Return (VObj props) ->
  getProp "reviews" props = Some (VArr reviews) ->
  arrayMap transformer reviews = Return reviews' ->
  reviewMigrations.transformEntry transformer now key st =
    (reviewMigrations.EntryUpdated,
     <[key := JSON_stringify
                (VObj (setProp "lastMigrated" (VStr now)
                                (setProp "reviews" (VArr reviews') props)))]> st).
Proof.
  intros Htext Hparse Hreviews Hmap. unfold reviewMigrations.transformEntry.
  rewrite Htext. cbn [falsyItem default from_option id].
  rewrite (proj2 (String.eqb_neq _ _) (JSON_parse_nonempty _ _ Hparse)), Hparse.
  cbn [truthy getMember]. by rewrite Hreviews, Hmap.
Qed.

Lemma transformLoop_frame transformer clock keys i updatedCount failedCount st k :
  NoDup keys -> k ∉ keys ->
  snd (reviewMigrations.transformLoop transformer clock i keys updatedCount failedCount st)
    !! k = st !! k.
Proof.
  intros Hnd Hk.
  destruct (transformLoop_counts transformer clock keys Hnd i updatedCount failedCount st)
    as (st' & Hloop & Hkeep).
  rewrite Hloop. cbn [snd]. apply Hkeep. by left.
Qed.

Lemma transformLoop_entry transformer clock keys :
  NoDup keys ->
  forall j i updatedCount failedCount st key text props reviews reviews',
    keys !! j = Some key ->
    st !! key = Some text -> JSON_parse text = Return (VObj props) ->
    getProp "reviews" props = Some (VArr reviews) ->
    arrayMap transformer reviews = Return reviews' ->
    snd (reviewMigrations.transformLoop transformer clock i keys updatedCount failedCount st)
      !! key =
    Some (JSON_stringify
            (VObj (setProp "lastMigrated" (VStr (clock (i + j)))
                            (setProp "reviews" (VArr reviews') props)))).
Proof.
  induction 1 as [|key0 keys Hnotin Hnd IH];
    intros j i updatedCount failedCount st key text props reviews reviews'
           Hj Htext Hparse Hreviews Hmap; [done |].
  cbn [reviewMigrations.transformLoop]. destruct j as [|j].
  - injection Hj as ->. rewrite Nat.add_0_r.
    rewrite (transformEntry_updated _ _ _ _ _ _ _ _ Htext Hparse Hreviews Hmap).
    rewrite transformLoop_frame by done. apply lookup_insert_eq.
  - cbn in Hj.
    assert (Hne : key <> key0).
    { intros ->. apply Hnotin. by eapply list_elem_of_lookup_2. }
    pose proof (transformEntry_frame transformer (clock i) key0 st key Hne) as Hframe.
    destruct (reviewMigrations.transformEntry transformer (clock i) key0 st)
      as [outcome st1].
    cbn [snd] in Hframe. rewrite <- Hframe in Htext.
    replace (i + S j) with (S i + j) by lia.
    destruct outcome; by eapply IH.
Qed.



(** ** The template procedure of exampleMigration.js *)

Lemma addField_Throw fieldName defaultValue st e :
  fst (companyMigrations.addField fieldName defaultValue st) = Throw e ->
  companyMigrations.addField fieldName defaultValue st = (Throw e, st).
Proof.
  unfold companyMigrations.addField.
  repeat case_match; cbn [fst]; try discriminate; by intros [= <-].
Qed.



(** ** The application as it ships *)

Lemma shipped_getMigrationPath fromVersion toVersion :
  getMigrationPath shipped_VERSION_HISTORY fromVersion toVersion = Return [].
Proof.
  unfold getMigrationPath. destruct (String.eqb fromVersion toVersion); [reflexivity |].
  cbn [shipped_VERSION_HISTORY sortWith insertSorted bindR findIndex version].
  destruct (String.eqb "1.0.0-alpha" fromVersion), (String.eqb "1.0.0-alpha" toVersion);
    reflexivity.
Qed.

Lemma parseVersion_invalid s :
  ~ validVersion s -> parseVersion s = Throw (invalidVersionError s).
Proof.
  intros Hinvalid. unfold validVersion, parseVersion in *.
  destruct (matchVersion s) as [[[[a b] c] l]|]; [|reflexivity].
  exfalso. apply Hinvalid. eauto.
Qed.


(** ** The comparison of versions is numeric *)

Lemma roundToDouble_exact n : exact n -> roundToDouble n = Finite n.
Proof.
  unfold exact, roundToDouble. intros Hn.
  assert (Hlog : (N.log2 n <? 53)%N = true).
  { apply N.ltb_lt. destruct (N.eq_dec n 0%N) as [->|Hpos]; [reflexivity |].
    apply N.log2_lt_pow2; lia. }
  cbv zeta. by rewrite Hlog.
Qed.

(** X23. On two version texts whose numbers are all below 2^53,
    [compareVersions] compares major, minor and patch as integers, in this
    order, and then the labels: the comparison is numeric and not textual
    (1.10.0 is above 1.9.0), and leading zeros do not count. *)
Theorem compareVersions_numeric (a b c a' b' c' : string) (l l' : option string) :
  numeral a -> numeral b -> numeral c -> labelText l ->
  numeral a' -> numeral b' -> numeral c' -> labelText l' ->
  exact (numberOf a) -> exact (numberOf b) -> exact (numberOf c) ->
  exact (numberOf a') -> exact (numberOf b') -> exact (numberOf c') ->
  compareVersions (versionText a b c l) (versionText a' b' c' l') =
    Return (signOf (integerOrder (numberOf a, (numberOf b, (numberOf c, l)))
                                 (numberOf a', (numberOf b', (numberOf c', l'))))).
Proof.
  intros Ha Hb Hc Hl Ha' Hb' Hc' Hl' Ea Eb Ec Ea' Eb' Ec'.
  assert (Hparse : forall x y z t, numeral x -> numeral y -> numeral z -> labelText t ->
             parseVersion (versionText x y z t) =
               Return {| major := parseInt10 x; minor := parseInt10 y;
                         patch := parseInt10 z; label := t;
                         raw := versionText x y z t |}).
  { intros x y z t Hx Hy Hz Ht. unfold parseVersion.
    by rewrite (matchVersion_text x y z t Hx Hy Hz Ht). }
  rewrite (compareVersions_parsed _ _ _ _ (Hparse a b c l Ha Hb Hc Hl)
                                          (Hparse a' b' c' l' Ha' Hb' Hc' Hl')).
  unfold specOrder, integerOrder, versionKey, thenBy, parseInt10, numberOf in *.
  cbn [major minor patch label fst snd].
  by rewrite !roundToDouble_exact by assumption.
Qed.

Lemma compareVersions_numeric_witness :
  compareVersions "1.10.0" "1.9.0" = Return 1%Z /\
  compareVersions "01.0.0" "1.0.0" = Return 0%Z.
Proof.
  split.
  - refine (compareVersions_numeric "1" "10" "0" "1" "9" "0" None None
              _ _ _ _ _ _ _ _ _ _ _ _ _ _);
      first [exact I | split; [discriminate | reflexivity] | reflexivity].
  - refine (compareVersions_numeric "01" "0" "0" "1" "0" "0" None None
              _ _ _ _ _ _ _ _ _ _ _ _ _ _);
      first [exact I | split; [discriminate | reflexivity] | reflexivity].
Defined.

(** Beyond that bound, two different numbers can be one double. *)
Lemma compareVersions_beyond_exact :
  compareVersions "9007199254740993.0.0" "9007199254740992.0.0" = Return 0%Z.
Proof. reflexivity. Qed.

(** ** The affected keys of a run *)

Lemma sameValueZero_sym x y : sameValueZero x y = sameValueZero y x.
Proof.
  destruct x, y; cbn; try reflexivity.
  - by destruct b, b0.
  - apply Z.eqb_sym.
  - apply String.eqb_sym.
Qed.

Lemma existsb_false {A} (p : A -> bool) l x :
  existsb p l = false -> x ∈ l -> p x = false.
Proof.
  intros Hnone Hx. destruct (p x) eqn:Hp; [|reflexivity].
  rewrite <- Hnone. symmetry. apply existsb_exists.
  exists x. split; [by apply list_elem_of_In | exact Hp].
Qed.

Lemma setAdd_distinct keys x : distinctKeys keys -> distinctKeys (setAdd keys x).
Proof.
  intros Hdistinct. unfold setAdd.
  destruct (existsb (sameValueZero x) keys) eqn:Hseen; [exact Hdistinct |].
  intros i j a b Hij Hi Hj.
  destruct (decide (j < length keys)) as [Hlt|Hge].
  - rewrite lookup_app_l in Hi, Hj by lia. exact (Hdistinct i j a b Hij Hi Hj).
  - rewrite lookup_app_r in Hj by lia.
    destruct (j - length keys) as [|n] eqn:Hn; [|destruct n; discriminate].
    injection Hj as <-.
    rewrite lookup_app_l in Hi by lia.
    rewrite sameValueZero_sym. apply (existsb_false _ _ _ Hseen).
    by eapply list_elem_of_lookup_2.
Qed.

Lemma setAdd_elem keys x k : k ∈ setAdd keys x -> k ∈ keys \/ k = x.
Proof.
  unfold setAdd. destruct (existsb _ keys); [by left |].
  rewrite elem_of_app, list_elem_of_singleton. tauto.
Qed.

Lemma foldl_setAdd keys reported :
  distinctKeys keys ->
  distinctKeys (foldl setAdd keys reported) /\
  forall k, k ∈ foldl setAdd keys reported -> k ∈ keys \/ k ∈ reported.
Proof.
  revert keys. induction reported as [|x reported IH]; intros keys Hdistinct; cbn [foldl].
  - split; [exact Hdistinct | by left].
  - destruct (IH _ (setAdd_distinct keys x Hdistinct)) as [Hd Hin].
    split; [exact Hd |]. intros k Hk.
    destruct (Hin k Hk) as [Hk'|Hk']; [|right; by right].
    apply setAdd_elem in Hk' as [Hk'|Hk']; [by left | right; rewrite Hk'; by left].
Qed.

(** What one turn of the loop does to the set of affected keys. *)
Lemma stepBody_affectedKeys version results affectedKeys result outcome :
  distinctKeys affectedKeys -> reportedBy results affectedKeys ->
  stepBody version results affectedKeys result = Return outcome ->
  exists results' affectedKeys',
    distinctKeys affectedKeys' /\ reportedBy results' affectedKeys' /\
    match outcome with
    | Continue rs ks => rs = results' /\ ks = affectedKeys'
    | Stop r => Exec.results r = Some results' /\ Exec.affectedKeys r = Some affectedKeys'
    end.
Proof.
  intros Hdistinct Hreported. unfold stepBody.
  destruct (getMember result "affectedKeys") as [ak|]; cbn [bindR]; [|discriminate].
  destruct (getMember result "success") as [ok|]; cbn [bindR]; [|discriminate].
  set (step := {| Step.version := version; Step.success := ok;
                  Step.affectedKeys := ak; Step.details := result |}).
  set (keys' := if truthy ak then addAffectedKeys affectedKeys ak else affectedKeys).
  assert (Hkeys : distinctKeys keys' /\ reportedBy (results ++ [step]) keys').
  { assert (Hold : reportedBy (results ++ [step]) affectedKeys).
    { intros k Hk. destruct (Hreported k Hk) as (s & reported & Hs & Hak & Hin).
      exists s, reported. split; [|done]. apply elem_of_app. by left. }
    unfold keys'. destruct (truthy ak); [|by split].
    unfold addAffectedKeys. destruct ak as [[| | | |reported|]|]; try by split.
    destruct (foldl_setAdd affectedKeys reported Hdistinct) as [Hd Hin].
    split; [exact Hd |]. intros k Hk. destruct (Hin k Hk) as [Hk'|Hk'].
    - by apply Hold.
    - exists step, reported. split; [|done]. apply elem_of_app. right. by left. }
  destruct Hkeys as [Hd Hr].
  destruct (truthy ok); cbn [negb].
  - intros [= <-]. by exists (results ++ [step]), keys'.
  - destruct (getMember result "error") as [err|]; cbn [bindR]; [|discriminate].
    intros [= <-]. by exists (results ++ [step]), keys'.
Qed.

Lemma runPath_affectedKeys APP_VERSION (migrations : gmap string Procedure)
    storedVersion path results affectedKeys w r w' :
  distinctKeys affectedKeys -> reportedBy results affectedKeys ->
  runPath APP_VERSION migrations storedVersion path results affectedKeys w = (r, w') ->
  exists steps keys,
    Exec.results r = Some steps /\ Exec.affectedKeys r = Some keys /\
    distinctKeys keys /\ reportedBy steps keys.
Proof.
  revert results affectedKeys w.
  induction path as [|versionInfo path IH]; intros results affectedKeys w Hd Hr;
    cbn [runPath].
  - intros [= <- <-]. by exists results, affectedKeys.
  - destruct (migrations !! version versionInfo) as [migrationFn|]; [|by apply IH].
    destruct (migrationFn storedVersion (version versionInfo) (localStorage w))
      as [resolved st'].
    destruct resolved as [result|e]; cbn [bindR];
      [|intros [= <- <-]; by exists results, affectedKeys].
    destruct (stepBody (version versionInfo) results affectedKeys result)
      as [outcome|e] eqn:Hstep; [|intros [= <- <-]; by exists results, affectedKeys].
    destruct (stepBody_affectedKeys _ _ _ _ _ Hd Hr Hstep)
      as (results' & keys' & Hd' & Hr' & Hout).
    destruct outcome as [rs ks|r0].
    + destruct Hout as [-> ->]. by apply IH.
    + destruct Hout as [Hrs Hks]. intros [= <- <-]. by exists results', keys'.
Qed.

(** X24. Whenever [executeMigrations] reports affected keys, on success and
    on failure alike, the list names no value twice (two strings in it are
    different strings), and every key in it was reported in the
    [affectedKeys] array of a step that is listed in [results]. *)
Theorem executeMigrations_affectedKeys
    (APP_VERSION : string) (VERSION_HISTORY : list VersionRecord)
    (migrations : gmap string Procedure) (storedVersion : option string) (w w' : World)
    (r : Exec.t) (keys : list value) :
  executeMigrations APP_VERSION VERSION_HISTORY migrations storedVersion w = (r, w') ->
  Exec.affectedKeys r = Some keys ->
  exists steps,
    Exec.results r = Some steps /\ distinctKeys keys /\ reportedBy steps keys.
Proof.
  unfold executeMigrations.
  destruct storedVersion as [stored|]; [|by intros [= <- <-]].
  destruct (String.eqb stored "" || String.eqb stored APP_VERSION);
    [by intros [= <- <-] |].
  destruct (getMigrationPath VERSION_HISTORY stored APP_VERSION) as [[|r0 path]|e].
  - by intros [= <- <-].
  - intros Hrun Hkeys.
    destruct (runPath_affectedKeys _ _ _ _ [] [] _ _ _
                ltac:(by intros i j x y _ ?) ltac:(by intros k ?%elem_of_nil) Hrun)
      as (steps & keys' & Hsteps & Hkeys' & Hd & Hr).
    exists steps. rewrite Hkeys in Hkeys'. injection Hkeys' as ->. done.
  - by intros [= <- <-].
Qed.

Lemma executeMigrations_affectedKeys_witness :
  exists r w' keys,
    executeMigrations "1.2.0" sample_VERSION_HISTORY
      {[ "1.1.0" := addIndustry; "1.2.0" := addIndustry ]} (Some "1.0.0") sample_world
      = (r, w') /\
    Exec.affectedKeys r = Some keys /\ keys = [VStr "companies"] /\ distinctKeys keys.
Proof.
  destruct (executeMigrations "1.2.0" sample_VERSION_HISTORY
              {[ "1.1.0" := addIndustry; "1.2.0" := addIndustry ]} (Some "1.0.0")
              sample_world) as [r w'] eqn:Hexec.
  assert (Hkeys : Exec.affectedKeys r = Some [VStr "companies"])
    by (vm_compute in Hexec; by injection Hexec as <- <-).
  destruct (executeMigrations_affectedKeys _ _ _ _ _ _ _ _ Hexec Hkeys)
    as (steps & _ & Hdistinct & _).
  by exists r, w', [VStr "companies"].
Defined.
